(** * potions-shelf: the dependency resolver (scripts/dependency-resolver.py)

    A shallow embedding of the resolver's version-constraint matcher, graph
    builder, cycle detector and dependency validator, and the properties of
    its specification proved (or refuted) on that embedding.

    Conventions of the embedding.
    - A Python [str] is a [string]; each character is read as a code point
      below 256 (ASCII and Latin-1).
    - A Python [int] is a [Z].
    - An exception is a value of [exn]; code that can raise returns a
      [result].
    - A manifest is a YAML mapping with the fields of the input schema:
      an optional [name], an optional [version] and a list of dependency
      declarations, each with an optional [name] and [version].  Module
      [Yaml] has the resolver on manifests whose fields hold values of
      other types as well, as the YAML loader can give them. *)

From Stdlib Require Import ZArith Ascii String List Lia DecimalString DecimalNat.
From stdpp Require Import base option list strings gmap sets.
Import ListNotations.

#[local] Set Warnings "-clear-no-such-hyp".

Local Open Scope string_scope.
Local Open Scope list_scope.
Local Open Scope Z_scope.

(** ** Exceptions *)

Inductive exn : Type :=
| ValueError (msg : string)
| KeyError (key : string)
| IndexError
| RecursionError.

Inductive result (A : Type) : Type :=
| Ok (a : A)
| Raise (e : exn).

Arguments Ok {A} a.
Arguments Raise {A} e.

#[global] Instance result_bind : MBind result :=
  fun A B (k : A -> result B) (r : result A) =>
    match r with
    | Ok a => k a
    | Raise e => Raise e
    end.

(** ** The builtins the resolver calls *)

Module Py.

Definition LF : ascii := ascii_of_nat 10.

Definition is_lf (c : ascii) : bool := Ascii.eqb c LF.

(** The longest prefix of characters that [.] matches (anything but a
    line feed), and what follows it. *)
Fixpoint span_dot (s : string) : string * string :=
  match s with
  | EmptyString => (EmptyString, EmptyString)
  | String c r =>
      if is_lf c then (EmptyString, s)
      else let (p, q) := span_dot r in (String c p, q)
  end.

(** [$] without MULTILINE: the end of the string, or the position of a
    line feed that is the last character. *)
Definition at_dollar (rest : string) : bool :=
  match rest with
  | EmptyString => true
  | String c EmptyString => is_lf c
  | _ => false
  end.

(** [(.+)$] at the current position.  [.+] is greedy, and a shorter run
    is followed by a character that is not a line feed, where [$] cannot
    match: only the longest run can succeed. *)
Definition dot_plus_dollar (s : string) : option string :=
  let (p, q) := span_dot s in
  match p with
  | EmptyString => None
  | _ => if at_dollar q then Some p else None
  end.

(** [.*$] at the current position: returns what is left after the match. *)
Definition dot_star_dollar (s : string) : option string :=
  let (p, q) := span_dot s in
  if at_dollar q then Some q else None.

Fixpoint strip_prefix (p s : string) : option string :=
  match p, s with
  | EmptyString, _ => Some s
  | String a p', String b s' => if Ascii.eqb a b then strip_prefix p' s' else None
  | String _ _, EmptyString => None
  end.

Definition is_sign (c : ascii) : bool :=
  Ascii.eqb c "-"%char || Ascii.eqb c "+"%char.

(** [re.sub(r'[-+].*$', '', s)]: the leftmost sign from which the rest of
    the line reaches [$] is removed together with that rest; a match ends
    at [$], so there is at most one. *)
Fixpoint re_sub_suffix (s : string) : string :=
  match s with
  | EmptyString => EmptyString
  | String c r =>
      if is_sign c then
        match dot_star_dollar r with
        | Some q => q
        | None => String c (re_sub_suffix r)
        end
      else String c (re_sub_suffix r)
  end.

(** [s.split(sep)] for a one-character separator. *)
Fixpoint split (sep : ascii) (s : string) : list string :=
  match s with
  | EmptyString => [EmptyString]
  | String c r =>
      if Ascii.eqb c sep then EmptyString :: split sep r
      else match split sep r with
           | p :: ps => String c p :: ps
           | [] => [String c EmptyString]
           end
  end.

(** White space for [int]: tab to carriage return and space, and, above
    ASCII, NEL and the no-break space. *)
Definition is_space (c : ascii) : bool :=
  let n := nat_of_ascii c in
  ((9 <=? n)%nat && (n <=? 13)%nat) || (n =? 32)%nat || (n =? 133)%nat || (n =? 160)%nat.

Fixpoint lstrip (s : string) : string :=
  match s with
  | String c r => if is_space c then lstrip r else s
  | EmptyString => EmptyString
  end.

Definition digit_value (c : ascii) : option Z :=
  let n := nat_of_ascii c in
  if ((48 <=? n)%nat && (n <=? 57)%nat)%bool then Some (Z.of_nat n - 48) else None.

Definition is_underscore (c : ascii) : bool := Ascii.eqb c "_"%char.

(** The digits of a base-10 literal after its first digit: digits, each
    optionally preceded by one underscore.  Returns the value, the number
    of digits read so far and what follows the literal. *)
Fixpoint int_digits (acc : Z) (digits : nat) (s : string) : Z * nat * string :=
  match s with
  | EmptyString => (acc, digits, EmptyString)
  | String c r =>
      match digit_value c with
      | Some d => int_digits (10 * acc + d) (S digits) r
      | None =>
          if is_underscore c then
            match r with
            | String c' r' =>
                match digit_value c' with
                | Some d => int_digits (10 * acc + d) (S digits) r'
                | None => (acc, digits, s)
                end
            | EmptyString => (acc, digits, s)
            end
          else (acc, digits, s)
      end
  end.

(** [sys.get_int_max_str_digits()], as the interpreter starts. *)
Definition int_max_str_digits : nat := 4300.

(** What reading a literal gives: its value, or one of the two ways it is
    refused. *)
Inductive literal : Type :=
| Value (v : Z)
| Malformed
| TooLong (digits : nat).

(** The cap on the number of digits is tested where the run of digits
    ends, after the underscores are checked and before what follows the
    digits is looked at. *)
Definition int_unsigned (s : string) : literal :=
  match s with
  | String c r =>
      match digit_value c with
      | Some d =>
          let '(v, digits, rest) := int_digits d 1 r in
          match rest with
          | String c' _ =>
              if is_underscore c' then Malformed
              else if (int_max_str_digits <? digits)%nat then TooLong digits
              else match lstrip rest with
                   | EmptyString => Value v
                   | _ => Malformed
                   end
          | EmptyString =>
              if (int_max_str_digits <? digits)%nat then TooLong digits else Value v
          end
      | None => Malformed
      end
  | EmptyString => Malformed
  end.

Definition negate (l : literal) : literal :=
  match l with
  | Value v => Value (- v)
  | _ => l
  end.

Definition int_literal (s : string) : literal :=
  match lstrip s with
  | String c r =>
      if Ascii.eqb c "-"%char then negate (int_unsigned r)
      else if Ascii.eqb c "+"%char then int_unsigned r
      else int_unsigned (String c r)
  | EmptyString => Malformed
  end.

Definition hex_digit (n : nat) : ascii :=
  if (n <? 10)%nat then ascii_of_nat (48 + n) else ascii_of_nat (87 + n).

Definition contains (c : ascii) (s : string) : bool :=
  existsb (Ascii.eqb c) (list_ascii_of_string s).

Definition is_printable (n : nat) : bool :=
  ((32 <=? n)%nat && (n <? 127)%nat) || ((161 <=? n)%nat && negb (n =? 173)%nat).

Definition repr_char (quote : ascii) (c : ascii) : string :=
  let n := nat_of_ascii c in
  if Ascii.eqb c quote || Ascii.eqb c "\"%char then String "\"%char (String c EmptyString)
  else if (n =? 9)%nat then "\t"
  else if (n =? 10)%nat then "\n"
  else if (n =? 13)%nat then "\r"
  else if is_printable n then String c EmptyString
  else String "\"%char (String "x"%char
         (String (hex_digit (n / 16)) (String (hex_digit (n mod 16)) EmptyString))).

Definition DQUOTE : ascii := ascii_of_nat 34.
Definition SQUOTE : ascii := ascii_of_nat 39.

(** [repr(s)] of a [str]. *)
Definition repr (s : string) : string :=
  let quote := if contains SQUOTE s && negb (contains DQUOTE s) then DQUOTE else SQUOTE in
  String quote
    (String.concat EmptyString (map (repr_char quote) (list_ascii_of_string s))
     +:+ String quote EmptyString).

Fixpoint take_chars (n : nat) (s : string) : string :=
  match n, s with
  | S n', String c r => String c (take_chars n' r)
  | _, _ => EmptyString
  end.

(** [str(n)] for a natural number. *)
Definition str_of_nat (n : nat) : string :=
  NilEmpty.string_of_uint (Nat.to_uint n).

(** [int(s)] for a [str] in base 10. *)
Definition int (s : string) : result Z :=
  match int_literal s with
  | Value v => Ok v
  | Malformed =>
      Raise (ValueError ("invalid literal for int() with base 10: "
                         +:+ take_chars 200 (repr s)))
  | TooLong digits =>
      Raise (ValueError ("Exceeds the limit (4300 digits) for integer string conversion: "
                         +:+ "value has " +:+ str_of_nat digits
                         +:+ " digits; use sys.set_int_max_str_digits() to increase the limit"))
  end.

(** Order of 3-tuples of integers. *)
Definition tuple_lt (a b : Z * Z * Z) : bool :=
  let '(a0, a1, a2) := a in
  let '(b0, b1, b2) := b in
  (a0 <? b0) || ((a0 =? b0) && ((a1 <? b1) || ((a1 =? b1) && (a2 <? b2)))).

(** Truth value of an optional string: [None] and [''] are false. *)
Definition truthy (o : option string) : bool :=
  match o with
  | Some (String _ _) => true
  | _ => false
  end.

End Py.

(** ** class VersionConstraint *)

Module VersionConstraint.

Record t : Type := mk {
  constraint : string;
  operator : string;
  version : string
}.

(** The alternatives of the pattern, in the order the pattern lists them. *)
Definition operators : list string := [">="; "<="; ">"; "<"; "~>"; "="; "^"].

(** [re.match(r'^(>=|<=|>|<|~>|=|\^)(.+)$', s)]: the first alternative
    after which [(.+)$] matches; groups 1 and 2. *)
Fixpoint re_match (ops : list string) (s : string) : option (string * string) :=
  match ops with
  | [] => None
  | op :: ops' =>
      match Py.strip_prefix op s with
      | Some rest =>
          match Py.dot_plus_dollar rest with
          | Some v => Some (op, v)
          | None => re_match ops' s
          end
      | None => re_match ops' s
      end
  end.

Definition _parse (constraint : string) : result (string * string) :=
  match re_match operators constraint with
  | None => Raise (ValueError ("Invalid version constraint: " +:+ constraint))
  | Some g => Ok g
  end.

Definition __init__ (constraint : string) : result t :=
  g ← _parse constraint;
  Ok (mk constraint (fst g) (snd g)).

Definition _parse_version (version : string) : result (Z * Z * Z) :=
  let version := Py.re_sub_suffix version in
  let parts := Py.split "."%char version in
  p0 ← match parts with
        | x :: _ => Py.int x
        | _ => Ok 0
        end;
  p1 ← match parts with
        | _ :: x :: _ => Py.int x
        | _ => Ok 0
        end;
  p2 ← match parts with
        | _ :: _ :: x :: _ => Py.int x
        | _ => Ok 0
        end;
  Ok (p0, p1, p2).

Definition _compare_versions (v1 v2 : Z * Z * Z) : Z :=
  if Py.tuple_lt v1 v2 then -1
  else if Py.tuple_lt v2 v1 then 1
  else 0.

Definition satisfies (self : t) (version : string) : result bool :=
  v1_parts ← _parse_version self.(VersionConstraint.version);
  v2_parts ← _parse_version version;
  let op := self.(operator) in
  if String.eqb op "=" then
    Ok (String.eqb self.(VersionConstraint.version) version)
  else if String.eqb op ">=" then
    Ok (_compare_versions v2_parts v1_parts >=? 0)
  else if String.eqb op "<=" then
    Ok (_compare_versions v2_parts v1_parts <=? 0)
  else if String.eqb op ">" then
    Ok (_compare_versions v2_parts v1_parts >? 0)
  else if String.eqb op "<" then
    Ok (_compare_versions v2_parts v1_parts <? 0)
  else if String.eqb op "~>" then
    let '(a, b, _) := v1_parts in
    Ok ((_compare_versions v2_parts v1_parts >=? 0)
        && (_compare_versions v2_parts (a, b + 1, 0) <? 0))
  else if String.eqb op "^" then
    let '(a, _, _) := v1_parts in
    Ok ((_compare_versions v2_parts v1_parts >=? 0)
        && (_compare_versions v2_parts (a + 1, 0, 0) <? 0))
  else Ok false.

End VersionConstraint.

(** [VersionConstraint(c).satisfies(v)], as the validator calls it. *)
Definition Satisfies (c v : string) : result bool :=
  vc ← VersionConstraint.__init__ c;
  VersionConstraint.satisfies vc v.

(** ** class DependencyResolver *)

Module DependencyResolver.

Record dependency : Type := mk_dependency {
  dep_name : option string;
  dep_version : option string
}.

Record manifest : Type := mk_manifest {
  name : option string;
  version : option string;
  dependencies : list dependency
}.

(** What opening and parsing one [*.potion] file gives: a manifest, or an
    exception whose text is [reason]. *)
Inductive loaded : Type :=
| Document (m : manifest)
| Unloadable (reason : string).

Record manifest_file : Type := mk_file {
  file_path : string;
  file_load : loaded
}.

(** [self.plugins]: a dict, in insertion order. *)
Definition registry : Type := list (string * manifest).

Fixpoint dict_get (k : string) (d : registry) : option manifest :=
  match d with
  | [] => None
  | (k', v) :: d' => if String.eqb k k' then Some v else dict_get k d'
  end.

(** [d[k] = v]: a present key keeps its place. *)
Fixpoint dict_set (k : string) (v : manifest) (d : registry) : registry :=
  match d with
  | [] => [(k, v)]
  | (k', v') :: d' =>
      if String.eqb k k' then (k, v) :: d' else (k', v') :: dict_set k v d'
  end.

Definition dict_mem (k : string) (d : registry) : bool :=
  match dict_get k d with
  | Some _ => true
  | None => false
  end.

Definition keys (d : registry) : list string := map fst d.

(** A [for] loop whose body may raise. *)
Fixpoint for_each {A S : Type} (l : list A) (body : S -> A -> result S) (s : S)
  : result S :=
  match l with
  | [] => Ok s
  | x :: l' => s' ← body s x; for_each l' body s'
  end.

(** *** load_plugins

    [plugins_dir] is [None] when the directory does not exist, and
    otherwise the files [glob] yields, in its order.  Returns the registry
    and the warnings written to the error stream. *)
Definition load_step (acc : registry * list string) (f : manifest_file)
  : registry * list string :=
  let (plugins, warnings) := acc in
  match file_load f with
  | Document manifest =>
      match name manifest with
      | Some (String c r) => (dict_set (String c r) manifest plugins, warnings)
      | _ => (plugins, warnings)
      end
  | Unloadable e =>
      (plugins,
       warnings ++ ["Warning: Failed to load " +:+ file_path f +:+ ": " +:+ e])
  end.

Definition load_plugins (plugins_dir : option (list manifest_file))
  : registry * list string :=
  match plugins_dir with
  | None => ([], [])
  | Some files => fold_left load_step files ([], [])
  end.

(** *** build_dependency_graph *)

Record graphs : Type := mk_graphs {
  dependency_graph : gmap string (gset string);
  reverse_graph : gmap string (gset string)
}.

(** [g[k].add(x)] on a [defaultdict(set)]. *)
Definition add_to (k x : string) (g : gmap string (gset string))
  : gmap string (gset string) :=
  <[k := default ∅ (g !! k) ∪ {[x]}]> g.

Definition add_dependency (name : string) (gr : graphs) (dep : dependency) : graphs :=
  match dep_name dep with
  | Some (String c r) =>
      let dep_name := String c r in
      {| dependency_graph := add_to name dep_name (dependency_graph gr);
         reverse_graph := add_to dep_name name (reverse_graph gr) |}
  | _ => gr
  end.

Definition add_manifest (gr : graphs) (item : string * manifest) : graphs :=
  let (name, manifest) := item in
  fold_left (add_dependency name) (dependencies manifest) gr.

Definition build_dependency_graph (plugins : registry) : graphs :=
  fold_left add_manifest plugins (mk_graphs ∅ ∅).

(** *** detect_circular_dependencies *)

Record dfs_state : Type := mk_state {
  cycles : list (list string);
  visited : gset string;
  rec_stack : gset string;
  path : list string
}.

(** [l.index(x)] *)
Fixpoint index (x : string) (l : list string) : option nat :=
  match l with
  | [] => None
  | y :: l' => if String.eqb y x then Some O else option_map S (index x l')
  end.

(** The three statements that open [dfs]: [visited.add(node)],
    [rec_stack.add(node)], [path.append(node)]. *)
Definition enter (node : string) (st : dfs_state) : dfs_state :=
  mk_state (cycles st) ({[node]} ∪ visited st) ({[node]} ∪ rec_stack st)
           (path st ++ [node]).

(** The two that close it: [rec_stack.remove(node)], [path.pop()]. *)
Definition leave (node : string) (st : dfs_state) : result dfs_state :=
  if decide (node ∈ rec_stack st) then
    match path st with
    | [] => Raise IndexError
    | _ => Ok (mk_state (cycles st) (visited st)
                        (rec_stack st ∖ {[node]}) (removelast (path st)))
    end
  else Raise (KeyError node).

Section Traversal.

(** [iter node X] is the order in which the set [X] held for [node] is
    iterated; for a set of strings it is not fixed by the elements. *)
Variable iter : string -> gset string -> list string.

Variable graph : gmap string (gset string).

Definition neighbors (node : string) : list string :=
  iter node (default ∅ (graph !! node)).

Definition visit (dfs : string -> dfs_state -> result dfs_state)
    (st : dfs_state) (neighbor : string) : result dfs_state :=
  if decide (neighbor ∉ visited st) then dfs neighbor st
  else if decide (neighbor ∈ rec_stack st) then
    match index neighbor (path st) with
    | Some cycle_start =>
        let cycle := drop cycle_start (path st) ++ [neighbor] in
        Ok (mk_state (cycles st ++ [cycle]) (visited st) (rec_stack st) (path st))
    | None => Raise (ValueError (Py.repr neighbor +:+ " is not in list"))
    end
  else Ok st.

(** [limit] is the number of nested calls of [dfs] the interpreter still
    allows; beyond it the call raises [RecursionError]. *)
Fixpoint dfs (limit : nat) (node : string) (st : dfs_state) : result dfs_state :=
  match limit with
  | O => Raise RecursionError
  | S limit' =>
      st ← for_each (neighbors node) (visit (dfs limit')) (enter node st);
      leave node st
  end.

Definition visit_root (limit : nat) (st : dfs_state) (node : string) : result dfs_state :=
  if decide (node ∉ visited st) then dfs limit node st else Ok st.

Definition detect_circular_dependencies (limit : nat) (plugins : registry)
  : result (list (list string)) :=
  st ← for_each (keys plugins) (visit_root limit) (mk_state [] ∅ ∅ []);
  Ok (cycles st).

End Traversal.

(** *** validate_dependencies *)

(** The body of the [try]. *)
Definition check_version (plugins : registry) (errors : list string)
    (dep_name dep_version : string) : result (list string) :=
  constraint ← VersionConstraint.__init__ dep_version;
  registered ← match dict_get dep_name plugins with
               | Some m => Ok m
               | None => Raise (KeyError dep_name)
               end;
  let plugin_version := default "0.0.0" (version registered) in
  ok ← VersionConstraint.satisfies constraint plugin_version;
  if negb ok then
    Ok (errors ++ ["Dependency '" +:+ dep_name +:+ "' version '" +:+ plugin_version
                   +:+ "' does not satisfy constraint '" +:+ dep_version +:+ "'"])
  else Ok errors.

(** One turn of the loop over the declarations. *)
Definition validate_dep (plugins : registry) (errors : list string)
    (dep : dependency) : result (list string) :=
  match dep_name dep with
  | Some (String c r) =>
      let dep_name := String c r in
      if negb (dict_mem dep_name plugins) then
        Ok (errors ++ ["Dependency '" +:+ dep_name +:+ "' not found in registry"])
      else
        match dep_version dep with
        | Some (String c' r') =>
            let dep_version := String c' r' in
            match check_version plugins errors dep_name dep_version with
            | Ok errors' => Ok errors'
            | Raise (ValueError e) =>
                Ok (errors ++ ["Invalid version constraint for '" +:+ dep_name
                               +:+ "': " +:+ e])
            | Raise e => Raise e
            end
        | _ => Ok errors
        end
  | _ => Ok (errors ++ ["Invalid dependency: missing name"])
  end.

Definition validate_dependencies (plugins : registry) (manifest : manifest)
  : result (bool * list string) :=
  errors ← for_each (dependencies manifest) (validate_dep plugins) [];
  Ok (Nat.eqb (length errors) 0, errors).

(** *** resolve_all_dependencies *)

(** [sep.join(l)] *)
Fixpoint join (sep : string) (l : list string) : string :=
  match l with
  | [] => ""
  | [x] => x
  | x :: l' => x +:+ sep +:+ join sep l'
  end.

Definition resolve_all_dependencies (iter : string -> gset string -> list string)
    (limit : nat) (plugins : registry) (gr : graphs) : result (bool * list string) :=
  cycles ← detect_circular_dependencies iter (dependency_graph gr) limit plugins;
  let errors :=
    map (fun cycle => "Circular dependency detected: " +:+ join " -> " cycle) cycles in
  errors ← for_each plugins
             (fun errors item =>
                r ← validate_dependencies plugins (snd item);
                if negb (fst r) then
                  Ok (errors ++ map (fun e => "[" +:+ fst item +:+ "] " +:+ e) (snd r))
                else Ok errors)
             errors;
  Ok (Nat.eqb (length errors) 0, errors).

(** *** main, without a manifest argument

    The exit status and the lines written to the error stream (what is
    printed on the standard output is left out); an exception that reaches
    the top level is [Raise]. *)
Definition main (iter : string -> gset string -> list string) (limit : nat)
    (plugins_dir : option (list manifest_file)) : result (Z * list string) :=
  let (plugins, warnings) := load_plugins plugins_dir in
  let gr := build_dependency_graph plugins in
  r ← resolve_all_dependencies iter limit plugins gr;
  if negb (fst r) then
    Ok (1, warnings ++ "Dependency resolution failed:"
                    :: map (fun error => "  - " +:+ error) (snd r))
  else Ok (0, warnings).

End DependencyResolver.

(** ** The resolver on manifests as the loader gives them

    The YAML loader gives a string only for a scalar that it does not read
    as something else: an unquoted [1.0] is a float, an unquoted [2] an
    integer, [yes] a boolean, and a field can also hold null, a list or a
    mapping.  Here the fields other than the names hold whatever the loader
    gives; the names are strings, as the annotations of the resolver have
    them ([Dict[str, dict]], [dfs(node: str)]).  An exception that no
    handler of the resolver catches is an [Abort]. *)

Module Yaml.

Import DependencyResolver.

(** [TypeError] and [AttributeError] are raised by the interpreter on a
    value of the wrong type; the others are those of [exn]. *)
Inductive error : Type :=
| Exn (e : exn)
| TypeError
| AttributeError.

Inductive outcome (A : Type) : Type :=
| Done (a : A)
| Abort (e : error).

Arguments Done {A} a.
Arguments Abort {A} e.

#[global] Instance outcome_bind : MBind outcome :=
  fun A B (k : A -> outcome B) (r : outcome A) =>
    match r with
    | Done a => k a
    | Abort e => Abort e
    end.

Definition lift {A : Type} (r : result A) : outcome A :=
  match r with
  | Ok a => Done a
  | Raise e => Abort (Exn e)
  end.

(** A field where the schema has a string.  The resolver does not look
    into a value that is not a string: it tests its truth and hands it to
    [re], which raises [TypeError]. *)
Inductive field : Type :=
| Missing
| Str (s : string)
| Other (truth : bool).

(** An item of [dependencies]: a mapping with its two fields, or a value
    without [get] (a string, a number, null, a list). *)
Inductive item : Type :=
| Declaration (dep_name : option string) (dep_version : field)
| NotMapping.

(** The field [dependencies]: missing; a list; or a value that cannot be
    iterated (null, a number, a boolean).  A string or a mapping is iterated
    as its characters or its keys, which are items without [get]. *)
Inductive items : Type :=
| NoKey
| Sequence (l : list item)
| NotIterable.

Record manifest : Type := mk_manifest {
  name : option string;
  version : field;
  dependencies : items
}.

Inductive loaded : Type :=
| Document (m : manifest)
| Unloadable (reason : string).

Record manifest_file : Type := mk_file {
  file_path : string;
  file_load : loaded
}.

Definition registry : Type := list (string * manifest).

Fixpoint dict_get (k : string) (d : registry) : option manifest :=
  match d with
  | [] => None
  | (k', v) :: d' => if String.eqb k k' then Some v else dict_get k d'
  end.

Fixpoint dict_set (k : string) (v : manifest) (d : registry) : registry :=
  match d with
  | [] => [(k, v)]
  | (k', v') :: d' =>
      if String.eqb k k' then (k, v) :: d' else (k', v') :: dict_set k v d'
  end.

Definition dict_mem (k : string) (d : registry) : bool :=
  match dict_get k d with
  | Some _ => true
  | None => false
  end.

Definition keys (d : registry) : list string := map fst d.

Fixpoint for_each {A S : Type} (l : list A) (body : S -> A -> outcome S) (s : S)
  : outcome S :=
  match l with
  | [] => Done s
  | x :: l' => s' ← body s x; for_each l' body s'
  end.

(** *** load_plugins *)
Definition load_step (acc : registry * list string) (f : manifest_file)
  : registry * list string :=
  let (plugins, warnings) := acc in
  match file_load f with
  | Document manifest =>
      match name manifest with
      | Some (String c r) => (dict_set (String c r) manifest plugins, warnings)
      | _ => (plugins, warnings)
      end
  | Unloadable e =>
      (plugins,
       warnings ++ ["Warning: Failed to load " +:+ file_path f +:+ ": " +:+ e])
  end.

Definition load_plugins (plugins_dir : option (list manifest_file))
  : registry * list string :=
  match plugins_dir with
  | None => ([], [])
  | Some files => fold_left load_step files ([], [])
  end.

(** *** build_dependency_graph

    [for dep in dependencies] raises [TypeError] on a value that cannot be
    iterated, and [dep.get] raises [AttributeError] on an item that is no
    mapping. *)
Definition add_dependency (name : string) (gr : graphs) (dep : item) : outcome graphs :=
  match dep with
  | Declaration (Some (String c r)) _ =>
      let dep_name := String c r in
      Done {| dependency_graph := add_to name dep_name (dependency_graph gr);
              reverse_graph := add_to dep_name name (reverse_graph gr) |}
  | Declaration _ _ => Done gr
  | NotMapping => Abort AttributeError
  end.

Definition add_manifest (gr : graphs) (entry : string * manifest) : outcome graphs :=
  let (name, manifest) := entry in
  match dependencies manifest with
  | NoKey => Done gr
  | Sequence l => for_each l (add_dependency name) gr
  | NotIterable => Abort TypeError
  end.

Definition build_dependency_graph (plugins : registry) : outcome graphs :=
  for_each plugins add_manifest (mk_graphs ∅ ∅).

(** *** detect_circular_dependencies *)
Definition detect_circular_dependencies (iter : string -> gset string -> list string)
    (graph : gmap string (gset string)) (limit : nat) (plugins : registry)
  : result (list (list string)) :=
  st ← DependencyResolver.for_each (keys plugins) (visit_root iter graph limit)
         (mk_state [] ∅ ∅ []);
  Ok (cycles st).

(** *** validate_dependencies *)

(** The body of the [try].  [satisfies] parses the version of the
    constraint first, and then hands the registered version to [re.sub]. *)
Definition check_version (plugins : registry) (errors : list string)
    (dep_name dep_version : string) : outcome (list string) :=
  constraint ← lift (VersionConstraint.__init__ dep_version);
  registered ← match dict_get dep_name plugins with
               | Some m => Done m
               | None => Abort (Exn (KeyError dep_name))
               end;
  match version registered with
  | Other _ =>
      _ ← lift (VersionConstraint._parse_version
                  (VersionConstraint.version constraint));
      Abort TypeError
  | plugin_version =>
      let plugin_version :=
        match plugin_version with
        | Str s => s
        | _ => "0.0.0"
        end in
      ok ← lift (VersionConstraint.satisfies constraint plugin_version);
      if negb ok then
        Done (errors ++ ["Dependency '" +:+ dep_name +:+ "' version '" +:+ plugin_version
                         +:+ "' does not satisfy constraint '" +:+ dep_version +:+ "'"])
      else Done errors
  end.

(** One turn of the loop over the declarations. *)
Definition validate_dep (plugins : registry) (errors : list string)
    (dep : item) : outcome (list string) :=
  match dep with
  | NotMapping => Abort AttributeError
  | Declaration (Some (String c r)) dep_version =>
      let dep_name := String c r in
      if negb (dict_mem dep_name plugins) then
        Done (errors ++ ["Dependency '" +:+ dep_name +:+ "' not found in registry"])
      else
        match dep_version with
        | Str (String c' r') =>
            let dep_version := String c' r' in
            match check_version plugins errors dep_name dep_version with
            | Done errors' => Done errors'
            | Abort (Exn (ValueError e)) =>
                Done (errors ++ ["Invalid version constraint for '" +:+ dep_name
                                 +:+ "': " +:+ e])
            | Abort e => Abort e
            end
        | Other true => Abort TypeError
        | _ => Done errors
        end
  | Declaration _ _ => Done (errors ++ ["Invalid dependency: missing name"])
  end.

Definition validate_dependencies (plugins : registry) (manifest : manifest)
  : outcome (bool * list string) :=
  errors ← match dependencies manifest with
           | NoKey => Done []
           | Sequence l => for_each l (validate_dep plugins) []
           | NotIterable => Abort TypeError
           end;
  Done (Nat.eqb (length errors) 0, errors).

(** *** resolve_all_dependencies *)
Definition resolve_all_dependencies (iter : string -> gset string -> list string)
    (limit : nat) (plugins : registry) (gr : graphs) : outcome (bool * list string) :=
  cycles ← lift (detect_circular_dependencies iter (dependency_graph gr) limit plugins);
  let errors :=
    map (fun cycle => "Circular dependency detected: " +:+ join " -> " cycle) cycles in
  errors ← for_each plugins
             (fun errors entry =>
                r ← validate_dependencies plugins (snd entry);
                if negb (fst r) then
                  Done (errors ++ map (fun e => "[" +:+ fst entry +:+ "] " +:+ e) (snd r))
                else Done errors)
             errors;
  Done (Nat.eqb (length errors) 0, errors).

(** *** main, without a manifest argument *)
Definition main (iter : string -> gset string -> list string) (limit : nat)
    (plugins_dir : option (list manifest_file)) : outcome (Z * list string) :=
  let (plugins, warnings) := load_plugins plugins_dir in
  gr ← build_dependency_graph plugins;
  r ← resolve_all_dependencies iter limit plugins gr;
  if negb (fst r) then
    Done (1, warnings ++ "Dependency resolution failed:"
                      :: map (fun error => "  - " +:+ error) (snd r))
  else Done (0, warnings).

End Yaml.

(** * Vocabulary of the properties *)

Import VersionConstraint.

(** ** Order of versions *)

(** Lexicographic order of triples: major, then minor, then patch. *)
Definition triple_lt (a b : Z * Z * Z) : Prop :=
  let '(a0, a1, a2) := a in
  let '(b0, b1, b2) := b in
  a0 < b0 \/ (a0 = b0 /\ (a1 < b1 \/ (a1 = b1 /\ a2 < b2))).

Definition triple_le (a b : Z * Z * Z) : Prop := triple_lt a b \/ a = b.

(** What [satisfies] computes once both versions are parsed. *)
Definition decide_parsed (op ver v : string) (r t : Z * Z * Z) : bool :=
  if String.eqb op "=" then String.eqb ver v
  else if String.eqb op ">=" then _compare_versions t r >=? 0
  else if String.eqb op "<=" then _compare_versions t r <=? 0
  else if String.eqb op ">" then _compare_versions t r >? 0
  else if String.eqb op "<" then _compare_versions t r <? 0
  else if String.eqb op "~>" then
    (_compare_versions t r >=? 0) && (_compare_versions t (r.1.1, r.1.2 + 1, 0) <? 0)
  else if String.eqb op "^" then
    (_compare_versions t r >=? 0) && (_compare_versions t (r.1.1 + 1, 0, 0) <? 0)
  else false.

(** Every character of [s] passes the test [P]. *)
Fixpoint all_chars (P : ascii -> bool) (s : string) : bool :=
  match s with
  | EmptyString => true
  | String c r => P c && all_chars P r
  end.

(** No line feed in [s]. *)
Definition no_lf (s : string) : Prop :=
  all_chars (fun c => negb (Py.is_lf c)) s = true.

(** Neither [-] nor [+] in [s]. *)
Definition sign_free (s : string) : Prop :=
  all_chars (fun c => negb (Py.is_sign c)) s = true.

(** The line feed as a string. *)
Definition LFs : string := String Py.LF EmptyString.


(** A decimal digit. *)
Definition is_digit (c : ascii) : bool :=
  let n := nat_of_ascii c in ((48 <=? n)%nat && (n <=? 57)%nat)%bool.

(** What may follow the first digit of a literal: digits, each of which
    may have one underscore in front. *)
Inductive digit_tail : string -> Prop :=
| tail_end : digit_tail ""
| tail_digit (c : ascii) (s : string) :
    is_digit c = true -> digit_tail s -> digit_tail (String c s)
| tail_group (c : ascii) (s : string) :
    is_digit c = true -> digit_tail s -> digit_tail (String "_" (String c s)).

(** An integer literal: white space, an optional sign, digits with single
    underscores between them, white space. *)
Definition integer_literal (x : string) : Prop :=
  exists (ws1 sign : string) (c : ascii) (t ws2 : string),
    x = ws1 +:+ sign +:+ String c t +:+ ws2 /\
    all_chars Py.is_space ws1 = true /\
    (sign = "" \/ sign = "-" \/ sign = "+") /\
    is_digit c = true /\ digit_tail t /\
    all_chars Py.is_space ws2 = true.

(** The number of digits in a string. *)
Fixpoint count_digits (s : string) : nat :=
  match s with
  | EmptyString => 0
  | String c r => ((if is_digit c then 1 else 0) + count_digits r)%nat
  end.

(** Component [i] of a split version: its integer value, and 0 when the
    version has no such component. *)
Definition component (parts : list string) (i : nat) : result Z :=
  match nth_error parts i with
  | Some x => Py.int x
  | None => Ok 0
  end.

(** The errors one dependency declaration adds to the list. *)
Definition dep_errors (plugins : DependencyResolver.registry)
    (dep : DependencyResolver.dependency) : list string :=
  match DependencyResolver.validate_dep plugins [] dep with
  | Ok errors => errors
  | Raise _ => []
  end.

(** A declaration fails when it has no name, when its name is not
    registered, or when it has a constraint for which [Satisfies] does not
    return true on the registered version ([0.0.0] when the registered
    manifest has none). *)
Definition dep_fails (plugins : DependencyResolver.registry)
    (dep : DependencyResolver.dependency) : bool :=
  match DependencyResolver.dep_name dep with
  | Some (String c r) =>
      match DependencyResolver.dict_get (String c r) plugins with
      | Some registered =>
          match DependencyResolver.dep_version dep with
          | Some (String c' r') =>
              match Satisfies (String c' r')
                      (default "0.0.0" (DependencyResolver.version registered)) with
              | Ok true => false
              | _ => true
              end
          | _ => false
          end
      | None => true
      end
  | _ => true
  end.

(** [a -> b] is an edge of the adjacency map [g]. *)
Definition has_edge (g : gmap string (gset string)) (a b : string) : Prop :=
  b ∈ default ∅ (g !! a).

(** The manifest registered as [a] declares a dependency named [b]. *)
Definition declares (plugins : DependencyResolver.registry) (a b : string) : Prop :=
  exists (m : DependencyResolver.manifest) (d : DependencyResolver.dependency),
    In (a, m) plugins /\ In d (DependencyResolver.dependencies m) /\
    DependencyResolver.dep_name d = Some b /\ b <> "".

(** The set [dependency_graph.get(node, set())]. *)
Definition succs (g : gmap string (gset string)) (node : string) : gset string :=
  default ∅ (g !! node).

(** [x], [y] and [z] are three nodes, each with the next as its only
    dependency, and [z] with [x]. *)
Definition triangle (g : gmap string (gset string)) (x y z : string) : Prop :=
  x <> y /\ y <> z /\ z <> x /\
  succs g x = {[y]} /\ succs g y = {[z]} /\ succs g z = {[x]}.

(** [c] is the closed walk [x, y, z, x], started at any of the three. *)
Definition rotation_of (x y z : string) (c : list string) : Prop :=
  c = [x; y; z; x] \/ c = [y; z; x; y] \/ c = [z; x; y; z].

(** Between two calls of [dfs]: what is on the stack is visited, the path
    holds what is on the stack, and all visited nodes are nodes of [U]. *)
Definition stack_wf (U : gset string) (st : DependencyResolver.dfs_state) : Prop :=
  DependencyResolver.rec_stack st ⊆ DependencyResolver.visited st /\
  (forall x, x ∈ DependencyResolver.path st <-> x ∈ DependencyResolver.rec_stack st) /\
  DependencyResolver.visited st ⊆ U.

(** Between two calls of [dfs]: a triangle that has a visited node is
    visited throughout and one of its rotations is recorded. *)
Definition triangles_closed (g : gmap string (gset string))
    (st : DependencyResolver.dfs_state) : Prop :=
  forall x y z, triangle g x y z -> x ∈ DependencyResolver.visited st ->
    y ∈ DependencyResolver.visited st /\
    exists c, c ∈ DependencyResolver.cycles st /\ rotation_of x y z c.

(** The first element of the set of [x], when it has one. *)
Definition candidate (g : gmap string (gset string)) (x : string) : string :=
  match elements (succs g x) with
  | y :: _ => y
  | [] => ""
  end.

(** The nodes of the graph of a registry: its keys and the names it
    declares as dependencies. *)
Definition nodes (plugins : DependencyResolver.registry) : gset string :=
  list_to_set (DependencyResolver.keys plugins) ∪
  list_to_set (flat_map (fun item => omap DependencyResolver.dep_name
                                       (DependencyResolver.dependencies (snd item)))
                        plugins).

(** What a call of [dfs] on [node] leaves behind. *)
Definition dfs_post (U : gset string) (g : gmap string (gset string)) (node : string)
    (st st' : DependencyResolver.dfs_state) : Prop :=
  stack_wf U st' /\ triangles_closed g st' /\
  DependencyResolver.visited st ∪ {[node]} ⊆ DependencyResolver.visited st' /\
  DependencyResolver.rec_stack st' = DependencyResolver.rec_stack st /\
  DependencyResolver.path st' = DependencyResolver.path st.

(** ** Manifests of the input schema *)

(** The version of a manifest of the schema: a string, or no version. *)
Definition typed_version (f : Yaml.field) : option (option string) :=
  match f with
  | Yaml.Missing => Some None
  | Yaml.Str s => Some (Some s)
  | Yaml.Other _ => None
  end.

(** The constraint of a declaration of the schema: a string, or none; a
    value that is false stands for none. *)
Definition typed_constraint (f : Yaml.field) : option (option string) :=
  match f with
  | Yaml.Missing => Some None
  | Yaml.Str s => Some (Some s)
  | Yaml.Other false => Some None
  | Yaml.Other true => None
  end.

Definition typed_item (dep : Yaml.item) : option DependencyResolver.dependency :=
  match dep with
  | Yaml.Declaration dep_name dep_version =>
      option_map (DependencyResolver.mk_dependency dep_name) (typed_constraint dep_version)
  | Yaml.NotMapping => None
  end.

Fixpoint typed_list {A B : Type} (f : A -> option B) (l : list A) : option (list B) :=
  match l with
  | [] => Some []
  | x :: l' =>
      match f x, typed_list f l' with
      | Some y, Some l'' => Some (y :: l'')
      | _, _ => None
      end
  end.

Definition typed_items (deps : Yaml.items) : option (list DependencyResolver.dependency) :=
  match deps with
  | Yaml.NoKey => Some []
  | Yaml.Sequence l => typed_list typed_item l
  | Yaml.NotIterable => None
  end.

(** The manifest of the schema that a loaded manifest is, when every field
    has the type the schema gives it. *)
Definition typed_manifest (m : Yaml.manifest) : option DependencyResolver.manifest :=
  match typed_version (Yaml.version m), typed_items (Yaml.dependencies m) with
  | Some version, Some dependencies =>
      Some (DependencyResolver.mk_manifest (Yaml.name m) version dependencies)
  | _, _ => None
  end.

Definition typed_entry (entry : string * Yaml.manifest)
  : option (string * DependencyResolver.manifest) :=
  option_map (pair (fst entry)) (typed_manifest (snd entry)).

Definition typed_registry (plugins : Yaml.registry) : option DependencyResolver.registry :=
  typed_list typed_entry plugins.

(** A directory of [n] manifests [p0], [p1], ..., each depending on the
    next without constraint; the last depends on a name that is not
    registered. *)
Definition plugin_name (i : nat) : string := "p" +:+ Py.str_of_nat i.

Definition chain_manifest (i : nat) : Yaml.manifest :=
  Yaml.mk_manifest (Some (plugin_name i)) (Yaml.Str "1.0.0")
    (Yaml.Sequence [Yaml.Declaration (Some (plugin_name (S i))) Yaml.Missing]).

Definition chain_file (i : nat) : Yaml.manifest_file :=
  Yaml.mk_file (plugin_name i +:+ ".potion") (Yaml.Document (chain_manifest i)).

Definition chain (n : nat) : list Yaml.manifest_file := map chain_file (seq 0 n).

(** The registry of a chain, as loaded and as of the schema. *)
Definition loaded_chain (n : nat) : Yaml.registry :=
  map (fun i => (plugin_name i, chain_manifest i)) (seq 0 n).

Definition typed_chain (n : nat) : DependencyResolver.registry :=
  map (fun i => (plugin_name i,
                 DependencyResolver.mk_manifest (Some (plugin_name i)) (Some "1.0.0")
                   [DependencyResolver.mk_dependency (Some (plugin_name (S i))) None]))
      (seq 0 n).

(** * Properties *)

Lemma tuple_lt_spec (a b : Z * Z * Z) : Py.tuple_lt a b = true <-> triple_lt a b.
Proof.
  destruct a as [[a0 a1] a2], b as [[b0 b1] b2]. unfold Py.tuple_lt, triple_lt.
  rewrite !orb_true_iff, !andb_true_iff, !orb_true_iff, !andb_true_iff.
  rewrite !Z.ltb_lt, !Z.eqb_eq. tauto.
Qed.

Lemma tuple_lt_false (a b : Z * Z * Z) : Py.tuple_lt a b = false <-> triple_le b a.
Proof.
  rewrite <- not_true_iff_false, tuple_lt_spec.
  destruct a as [[a0 a1] a2], b as [[b0 b1] b2]. unfold triple_le, triple_lt.
  split.
  - intros H.
    destruct (Z.lt_trichotomy a0 b0) as [?|[?|?]]; [tauto | | left; lia].
    destruct (Z.lt_trichotomy a1 b1) as [?|[?|?]]; [tauto | | left; lia].
    destruct (Z.lt_trichotomy a2 b2) as [?|[?|?]]; [tauto | | left; lia].
    right. congruence.
  - intros [H | H]; [lia | inversion H; lia].
Qed.

Lemma compare_ge (a b : Z * Z * Z) :
  (_compare_versions a b >=? 0) = negb (Py.tuple_lt a b).
Proof. unfold _compare_versions. by repeat case_match. Qed.

Lemma compare_lt (a b : Z * Z * Z) :
  (_compare_versions a b <? 0) = Py.tuple_lt a b.
Proof. unfold _compare_versions. by repeat case_match. Qed.

Lemma satisfies_parsed (vc : VersionConstraint.t) (v : string) (r t : Z * Z * Z) :
  _parse_version (version vc) = Ok r ->
  _parse_version v = Ok t ->
  satisfies vc v = Ok (decide_parsed (operator vc) (version vc) v r t).
Proof.
  intros Hr Ht. unfold satisfies. rewrite Hr, Ht. cbn.
  unfold decide_parsed. destruct r as [[a b] c]. cbn.
  by repeat case_match.
Qed.

Lemma Satisfies_init (c v : string) (vc : VersionConstraint.t) :
  __init__ c = Ok vc -> Satisfies c v = satisfies vc v.
Proof. intros H. unfold Satisfies. by rewrite H. Qed.

(** C1 (as stated, refuted): under [=] two identical strings that are not
    versions are not found equal; the call fails while parsing them. *)
Lemma satisfies_eq_unparsed_raises :
  String.eqb "latest" "latest" = true /\
  Satisfies "=latest" "latest"
  = Raise (ValueError "invalid literal for int() with base 10: 'latest'").
Proof. split; reflexivity. Qed.

(** C1 (amended): under [=], when the reference and the candidate both parse
    as versions, the result is equality of the two strings as written, so
    [1.2.0] and [1.2] differ; when one of them does not parse the call fails
    with that error, whatever the strings; under every other operator the
    result depends on the two strings only through their parsed triples. *)
Theorem satisfies_eq_string_exact :
  (forall (vc : VersionConstraint.t) (v : string) (r t : Z * Z * Z),
      operator vc = "=" ->
      _parse_version (version vc) = Ok r ->
      _parse_version v = Ok t ->
      satisfies vc v = Ok (String.eqb (version vc) v)) /\
  (forall (vc : VersionConstraint.t) (v : string) (e : exn),
      _parse_version (version vc) = Raise e -> satisfies vc v = Raise e) /\
  (forall (vc : VersionConstraint.t) (v : string) (r : Z * Z * Z) (e : exn),
      _parse_version (version vc) = Ok r ->
      _parse_version v = Raise e -> satisfies vc v = Raise e) /\
  Satisfies "=1.2.0" "1.2" = Ok false /\
  _parse_version "1.2.0" = _parse_version "1.2" /\
  (forall (vc vc' : VersionConstraint.t) (v v' : string),
      operator vc = operator vc' ->
      operator vc <> "=" ->
      _parse_version (version vc) = _parse_version (version vc') ->
      _parse_version v = _parse_version v' ->
      satisfies vc v = satisfies vc' v').
Proof.
  repeat split.
  - intros vc v r t Hop Hr Ht.
    rewrite (satisfies_parsed vc v r t Hr Ht). unfold decide_parsed. by rewrite Hop.
  - intros vc v e He. unfold satisfies. by rewrite He.
  - intros vc v r e Hr He. unfold satisfies. by rewrite Hr, He.
  - intros vc vc' v v' Hop Hne Hr Ht.
    unfold satisfies. rewrite <- Hr, <- Ht, <- Hop.
    destruct (String.eqb_spec (operator vc) "=") as [|_]; [done|].
    reflexivity.
Qed.

Lemma satisfies_eq_string_exact_witness :
  satisfies (VersionConstraint.mk "=1.2.0" "=" "1.2.0") "1.2" = Ok false.
Proof.
  apply (proj1 satisfies_eq_string_exact (VersionConstraint.mk "=1.2.0" "=" "1.2.0")
           "1.2" (1, 2, 0) (1, 2, 0)); reflexivity.
Defined.

(** C2: under [~>], with the reference parsed to [r] and the candidate to
    [t], the result is true exactly when [r <= t < (major r, minor r + 1, 0)];
    the bound is taken from the parsed triple, also for a reference written
    with two components. *)
Theorem satisfies_pessimistic :
  (forall (c v : string) (vc : VersionConstraint.t) (r t : Z * Z * Z),
      __init__ c = Ok vc ->
      operator vc = "~>" ->
      _parse_version (version vc) = Ok r ->
      _parse_version v = Ok t ->
      exists b : bool,
        Satisfies c v = Ok b /\
        (b = true <-> triple_le r t /\ triple_lt t (r.1.1, r.1.2 + 1, 0))) /\
  Satisfies "~>1.2.3" "1.2.9" = Ok true /\
  Satisfies "~>1.2.3" "1.3.0" = Ok false /\
  Satisfies "~>1.2" "1.2.9" = Ok true /\
  Satisfies "~>1.2" "1.3.0" = Ok false.
Proof.
  split; [|repeat split].
  intros c v vc r t Hinit Hop Hr Ht.
  rewrite (Satisfies_init c v vc Hinit), (satisfies_parsed vc v r t Hr Ht).
  eexists. split; [reflexivity|].
  unfold decide_parsed. rewrite Hop. cbn [String.eqb Ascii.eqb Bool.eqb].
  rewrite compare_ge, compare_lt, andb_true_iff, negb_true_iff.
  by rewrite tuple_lt_false, tuple_lt_spec.
Qed.

Lemma satisfies_pessimistic_witness :
  exists b : bool,
    Satisfies "~>1.2.3" "1.2.9" = Ok b /\
    (b = true <-> triple_le (1, 2, 3) (1, 2, 9) /\ triple_lt (1, 2, 9) (1, 2 + 1, 0)).
Proof.
  apply (proj1 satisfies_pessimistic "~>1.2.3" "1.2.9"
           (VersionConstraint.mk "~>1.2.3" "~>" "1.2.3") (1, 2, 3) (1, 2, 9));
    reflexivity.
Defined.

(** C9: under [^], with the reference parsed to [r] and the candidate to
    [t], the result is true exactly when [r <= t < (major r + 1, 0, 0)]. *)
Theorem satisfies_caret :
  (forall (c v : string) (vc : VersionConstraint.t) (r t : Z * Z * Z),
      __init__ c = Ok vc ->
      operator vc = "^" ->
      _parse_version (version vc) = Ok r ->
      _parse_version v = Ok t ->
      exists b : bool,
        Satisfies c v = Ok b /\
        (b = true <-> triple_le r t /\ triple_lt t (r.1.1 + 1, 0, 0))) /\
  Satisfies "^1.2.3" "1.9.9" = Ok true /\
  Satisfies "^1.2.3" "2.0.0" = Ok false.
Proof.
  split; [|repeat split].
  intros c v vc r t Hinit Hop Hr Ht.
  rewrite (Satisfies_init c v vc Hinit), (satisfies_parsed vc v r t Hr Ht).
  eexists. split; [reflexivity|].
  unfold decide_parsed. rewrite Hop. cbn [String.eqb Ascii.eqb Bool.eqb].
  rewrite compare_ge, compare_lt, andb_true_iff, negb_true_iff.
  by rewrite tuple_lt_false, tuple_lt_spec.
Qed.

Lemma satisfies_caret_witness :
  exists b : bool,
    Satisfies "^1.2.3" "1.9.9" = Ok b /\
    (b = true <-> triple_le (1, 2, 3) (1, 9, 9) /\ triple_lt (1, 9, 9) (1 + 1, 0, 0)).
Proof.
  apply (proj1 satisfies_caret "^1.2.3" "1.9.9"
           (VersionConstraint.mk "^1.2.3" "^" "1.2.3") (1, 2, 3) (1, 9, 9));
    reflexivity.
Defined.

(** ** Strings and the two patterns *)

Lemma append_cons (c : ascii) (a b : string) : String c a +:+ b = String c (a +:+ b).
Proof. reflexivity. Qed.

Lemma append_nil_l (b : string) : "" +:+ b = b.
Proof. reflexivity. Qed.

Lemma append_nil_r (s : string) : s +:+ "" = s.
Proof. induction s as [|c s IH]; [done | by rewrite append_cons, IH]. Qed.

Lemma append_assoc (a b c : string) : (a +:+ b) +:+ c = a +:+ (b +:+ c).
Proof. induction a as [|x a IH]; [done | by rewrite !append_cons, IH]. Qed.


Lemma is_lf_true (c : ascii) : Py.is_lf c = true <-> c = Py.LF.
Proof. apply Ascii.eqb_eq. Qed.


Lemma span_dot_spec (s p q : string) :
  Py.span_dot s = (p, q) ->
  s = p +:+ q /\ no_lf p /\ (q = "" \/ exists q', q = String Py.LF q').
Proof.
  revert p q. induction s as [|c s IH]; intros p q; simpl.
  - intros [= <- <-]. split; [done|]. split; [done|]. by left.
  - destruct (Py.is_lf c) eqn:Hc.
    + intros [= <- <-]. apply is_lf_true in Hc as ->.
      split; [done|]. split; [done|]. right. by eexists.
    + destruct (Py.span_dot s) as [p' q'] eqn:Hs. intros [= <- <-].
      destruct (IH p' q' eq_refl) as (-> & Hp & Hq).
      repeat split; [|done]. unfold no_lf in *. simpl. by rewrite Hc, Hp.
Qed.

Lemma span_dot_app (p q : string) :
  no_lf p -> (q = "" \/ exists q', q = String Py.LF q') ->
  Py.span_dot (p +:+ q) = (p, q).
Proof.
  intros Hp Hq. induction p as [|c p IH]; rewrite ?append_nil_l, ?append_cons; simpl.
  - destruct Hq as [->|[q' ->]]; [done|]. simpl.
    by replace (Py.is_lf Py.LF) with true by (symmetry; by apply is_lf_true).
  - unfold no_lf in Hp. simpl in Hp. apply andb_true_iff in Hp as [Hc Hp].
    apply negb_true_iff in Hc. rewrite Hc. by rewrite (IH Hp).
Qed.

Lemma at_dollar_true (q : string) : Py.at_dollar q = true <-> q = "" \/ q = LFs.
Proof.
  unfold Py.at_dollar, LFs. destruct q as [|c [|d q]].
  - by intuition.
  - rewrite is_lf_true. split; [intros ->; by right | intros [|[= ->]]; done].
  - split; [done | intros [|]; discriminate].
Qed.

Lemma dot_plus_dollar_spec (rest v : string) :
  Py.dot_plus_dollar rest = Some v <->
  v <> "" /\ no_lf v /\ (rest = v \/ rest = v +:+ LFs).
Proof.
  unfold Py.dot_plus_dollar. split.
  - destruct (Py.span_dot rest) as [p q] eqn:Hs.
    destruct (span_dot_spec _ _ _ Hs) as (-> & Hp & _).
    destruct p as [|c p]; [done|].
    destruct (Py.at_dollar q) eqn:Hq; [|done]. intros [= <-].
    apply at_dollar_true in Hq as [-> | ->].
    + rewrite append_nil_r. by auto.
    + by auto.
  - intros (Hv & Hlf & Hrest).
    assert (exists q, rest = v +:+ q /\ (q = "" \/ q = LFs)) as (q & -> & Hq).
    { destruct Hrest as [-> | ->]; [exists ""; by rewrite append_nil_r; auto | eauto]. }
    rewrite (span_dot_app v q Hlf).
    + destruct v; [done|]. by rewrite (proj2 (at_dollar_true q) Hq).
    + destruct Hq as [-> | ->]; [by left | right; by eexists].
Qed.







(** ** Versions *)

Lemma re_sub_sign_free (v : string) : sign_free v -> Py.re_sub_suffix v = v.
Proof.
  unfold sign_free. induction v as [|c v IH]; simpl; [done|].
  intros [Hc Hv]%andb_true_iff. apply negb_true_iff in Hc. rewrite Hc.
  by rewrite (IH Hv).
Qed.

Lemma dot_star_dollar_no_lf (s : string) : no_lf s -> Py.dot_star_dollar s = Some "".
Proof.
  intros Hs. unfold Py.dot_star_dollar.
  rewrite <- (append_nil_r s) at 1. by rewrite (span_dot_app s "" Hs (or_introl eq_refl)).
Qed.

Lemma re_sub_strips (v s : string) (c : ascii) :
  sign_free v -> Py.is_sign c = true -> no_lf s ->
  Py.re_sub_suffix (v +:+ String c s) = v.
Proof.
  unfold sign_free. intros Hv Hc Hs.
  induction v as [|x v IH]; rewrite ?append_nil_l, ?append_cons; simpl.
  - by rewrite Hc, (dot_star_dollar_no_lf s Hs).
  - simpl in Hv. apply andb_true_iff in Hv as [Hx Hv]. apply negb_true_iff in Hx.
    by rewrite Hx, (IH Hv).
Qed.

Lemma re_sub_no_lf (v : string) : no_lf v -> sign_free (Py.re_sub_suffix v).
Proof.
  unfold no_lf, sign_free. induction v as [|c v IH]; simpl; [done|].
  intros [Hc Hv]%andb_true_iff. destruct (Py.is_sign c) eqn:Hs.
  - by rewrite (dot_star_dollar_no_lf v Hv).
  - simpl. by rewrite Hs, (IH Hv).
Qed.

Lemma split_not_nil (sep : ascii) (s : string) : Py.split sep s <> [].
Proof. induction s as [|c s IH]; simpl; [done|]. by repeat case_match. Qed.

Lemma split_all_chars (P : ascii -> bool) (sep : ascii) (s : string) :
  all_chars P s = true ->
  Forall (fun x => all_chars P x = true) (Py.split sep s).
Proof.
  induction s as [|c s IH]; simpl.
  - intros _. by repeat constructor.
  - intros [Hc Hs]%andb_true_iff. specialize (IH Hs).
    destruct (Ascii.eqb c sep); [by constructor|].
    destruct (Py.split sep s) as [|p ps].
    + constructor; [|done]. simpl. by rewrite Hc.
    + inversion IH; subst. constructor; [|done]. simpl. by rewrite Hc.
Qed.

Lemma lstrip_all_chars (P : ascii -> bool) (s : string) :
  all_chars P s = true -> all_chars P (Py.lstrip s) = true.
Proof.
  induction s as [|c s IH]; simpl; [done|].
  intros H. destruct (Py.is_space c); [|done].
  apply andb_true_iff in H as [_ H]. by auto.
Qed.

Lemma digit_value_nonneg (c : ascii) (d : Z) : Py.digit_value c = Some d -> 0 <= d.
Proof.
  unfold Py.digit_value. case_match eqn:H; [|done]. intros [= <-].
  apply andb_true_iff in H as [H _]. apply Nat.leb_le in H. lia.
Qed.

Lemma int_digits_nonneg (n : nat) :
  forall (s : string) (acc : Z) (k : nat),
    (String.length s <= n)%nat -> 0 <= acc -> 0 <= fst (fst (Py.int_digits acc k s)).
Proof.
  induction n as [|n IH]; intros s acc k Hlen Hacc.
  - destruct s; [done | simpl in Hlen; lia].
  - destruct s as [|c r]; [done|]. simpl in Hlen. simpl.
    destruct (Py.digit_value c) as [d|] eqn:Hd.
    + apply IH; [lia|]. apply digit_value_nonneg in Hd. lia.
    + destruct (Py.is_underscore c); [|done].
      destruct r as [|c' r']; [done|].
      destruct (Py.digit_value c') as [d|] eqn:Hd'; [|done].
      apply IH; [simpl in Hlen; lia|]. apply digit_value_nonneg in Hd'. lia.
Qed.

Lemma int_unsigned_nonneg (s : string) (n : Z) : Py.int_unsigned s = Py.Value n -> 0 <= n.
Proof.
  unfold Py.int_unsigned. destruct s as [|c r]; [done|].
  destruct (Py.digit_value c) as [d|] eqn:Hd; [|done].
  pose proof (int_digits_nonneg (String.length r) r d 1 (le_n _)
                (digit_value_nonneg _ _ Hd)) as H.
  destruct (Py.int_digits d 1 r) as [[v digits] rest]. cbn [fst] in H.
  repeat case_match; try done; by intros [= <-].
Qed.

Lemma int_sign_free_nonneg (x : string) (n : Z) :
  sign_free x -> Py.int x = Ok n -> 0 <= n.
Proof.
  unfold sign_free, Py.int, Py.int_literal. intros Hx.
  apply (lstrip_all_chars _ x) in Hx.
  destruct (Py.lstrip x) as [|c r]; [done|].
  simpl in Hx. apply andb_true_iff in Hx as [Hc _]. apply negb_true_iff in Hc.
  unfold Py.is_sign in Hc. apply orb_false_iff in Hc as [-> ->].
  destruct (Py.int_unsigned (String c r)) as [v| |k] eqn:Hv; [|done|done].
  intros [= <-]. by eapply int_unsigned_nonneg.
Qed.

Lemma int_raise_value_error (x : string) (e : exn) :
  Py.int x = Raise e -> exists msg, e = ValueError msg.
Proof.
  unfold Py.int. destruct (Py.int_literal x); [done| |]; intros [= <-]; by eexists.
Qed.

(** *** The strings [int] accepts *)

Lemma char_classes (c : ascii) :
  (is_digit c = true ->
   Py.is_space c = false /\ Py.is_underscore c = false /\ Py.is_sign c = false) /\
  (Py.is_space c = true ->
   is_digit c = false /\ Py.is_underscore c = false /\ Py.is_sign c = false) /\
  (is_digit c = true <-> exists d, Py.digit_value c = Some d).
Proof.
  assert (H : is_digit c = true <-> exists d, Py.digit_value c = Some d).
  { unfold is_digit, Py.digit_value.
    destruct (_ && _)%bool; split; [by eauto | done | done | by intros [? ?]]. }
  split; [|split; [|exact H]]; clear H;
    destruct c as [[] [] [] [] [] [] [] []]; by vm_compute.
Qed.

Lemma digit_value_digit (c : ascii) (d : Z) : Py.digit_value c = Some d -> is_digit c = true.
Proof. intros H. apply char_classes. by eauto. Qed.

Lemma not_digit_value (c : ascii) : is_digit c = false -> Py.digit_value c = None.
Proof.
  intros H. destruct (Py.digit_value c) as [d|] eqn:Hd; [|done].
  apply digit_value_digit in Hd. congruence.
Qed.

Lemma count_digits_app (a b : string) :
  count_digits (a +:+ b) = (count_digits a + count_digits b)%nat.
Proof.
  induction a as [|c a IH]; [by rewrite append_nil_l|].
  rewrite append_cons. cbn [count_digits]. rewrite IH. lia.
Qed.

Lemma count_digits_space (ws : string) :
  all_chars Py.is_space ws = true -> count_digits ws = 0%nat.
Proof.
  induction ws as [|c ws IH]; [done|]. cbn [all_chars count_digits].
  intros [Hc Hws]%andb_true_iff.
  destruct (proj1 (proj2 (char_classes c)) Hc) as (-> & _). by rewrite IH.
Qed.

Lemma lstrip_space (ws s : string) :
  all_chars Py.is_space ws = true -> Py.lstrip (ws +:+ s) = Py.lstrip s.
Proof.
  induction ws as [|c ws IH]; [by rewrite append_nil_l|].
  cbn [all_chars]. intros [Hc Hws]%andb_true_iff.
  rewrite append_cons. cbn [Py.lstrip]. rewrite Hc. by apply IH.
Qed.

Lemma lstrip_split (s : string) :
  exists ws, s = ws +:+ Py.lstrip s /\ all_chars Py.is_space ws = true.
Proof.
  induction s as [|c s (ws & Hs & Hws)]; [by exists ""|].
  cbn [Py.lstrip]. destruct (Py.is_space c) eqn:Hc.
  - exists (String c ws). rewrite append_cons, <- Hs. split; [done|].
    cbn [all_chars]. by rewrite Hc, Hws.
  - by exists "".
Qed.

Lemma lstrip_nil (s : string) : Py.lstrip s = "" <-> all_chars Py.is_space s = true.
Proof.
  induction s as [|c s IH]; [done|]. cbn [Py.lstrip all_chars].
  destruct (Py.is_space c); [by rewrite IH|]. split; done.
Qed.

(** What [int_digits] reads is a tail of digits, and it counts them. *)
Lemma int_digits_reads (n : nat) :
  forall (s : string) (acc : Z) (k : nat) (v : Z) (k' : nat) (rest : string),
    (String.length s <= n)%nat ->
    Py.int_digits acc k s = (v, k', rest) ->
    exists t, s = t +:+ rest /\ digit_tail t /\ k' = (k + count_digits t)%nat.
Proof.
  induction n as [|n IH]; intros s acc k v k' rest Hlen Hrun.
  - destruct s; [|simpl in Hlen; lia]. cbn in Hrun. injection Hrun as <- <- <-.
    exists "". split; [done|]. split; [constructor|]. cbn. lia.
  - destruct s as [|c r].
    { cbn in Hrun. injection Hrun as <- <- <-.
      exists "". split; [done|]. split; [constructor|]. cbn. lia. }
    simpl in Hlen. cbn [Py.int_digits] in Hrun.
    assert (Hstop : (acc, k, String c r) = (v, k', rest) ->
                    exists t, String c r = t +:+ rest /\ digit_tail t /\
                              k' = (k + count_digits t)%nat).
    { intros [= <- <- <-]. exists "". split; [done|]. split; [constructor|]. cbn. lia. }
    destruct (Py.digit_value c) as [d|] eqn:Hd.
    + destruct (IH r _ _ _ _ _ ltac:(lia) Hrun) as (t & -> & Ht & ->).
      exists (String c t). rewrite append_cons. split; [done|].
      apply digit_value_digit in Hd. split; [by constructor|].
      cbn [count_digits]. rewrite Hd. lia.
    + destruct (Py.is_underscore c) eqn:Hu; [|by apply Hstop].
      destruct r as [|c' r']; [by apply Hstop|].
      destruct (Py.digit_value c') as [d|] eqn:Hd'; [|by apply Hstop].
      simpl in Hlen.
      destruct (IH r' _ _ _ _ _ ltac:(lia) Hrun) as (t & -> & Ht & ->).
      apply Ascii.eqb_eq in Hu as ->.
      exists (String "_" (String c' t)). rewrite !append_cons. split; [done|].
      apply digit_value_digit in Hd'. split; [by constructor|].
      cbn [count_digits]. rewrite Hd'.
      replace (is_digit "_") with false by by vm_compute. lia.
Qed.

(** A tail of digits followed by white space is read whole. *)
Lemma int_digits_tail (t ws : string) :
  digit_tail t -> all_chars Py.is_space ws = true ->
  forall (acc : Z) (k : nat),
    exists v, Py.int_digits acc k (t +:+ ws) = (v, (k + count_digits t)%nat, ws).
Proof.
  intros Ht Hws. induction Ht as [|c s Hc Hs IH|c s Hc Hs IH]; intros acc k.
  - rewrite append_nil_l. exists acc. cbn [count_digits]. rewrite Nat.add_0_r.
    destruct ws as [|c r]; [done|]. cbn [all_chars] in Hws.
    apply andb_true_iff in Hws as [Hc _].
    destruct (proj1 (proj2 (char_classes c)) Hc) as (Hd & Hu & _).
    cbn [Py.int_digits]. by rewrite (not_digit_value c Hd), Hu.
  - rewrite append_cons. cbn [Py.int_digits count_digits]. rewrite Hc.
    destruct (proj1 (proj2 (proj2 (char_classes c))) Hc) as [d ->].
    destruct (IH (10 * acc + d) (S k)) as [v ->]. exists v. do 2 f_equal. lia.
  - rewrite !append_cons. cbn [Py.int_digits count_digits]. rewrite Hc.
    destruct (proj1 (proj2 (proj2 (char_classes c))) Hc) as [d ->].
    replace (Py.digit_value "_") with (@None Z) by by vm_compute.
    replace (Py.is_underscore "_") with true by by vm_compute.
    replace (is_digit "_") with false by by vm_compute.
    destruct (IH (10 * acc + d) (S k)) as [v ->]. exists v. do 2 f_equal. lia.
Qed.

Lemma int_unsigned_value (s : string) (v : Z) :
  Py.int_unsigned s = Py.Value v ->
  exists (c : ascii) (t ws : string),
    s = String c t +:+ ws /\ is_digit c = true /\ digit_tail t /\
    all_chars Py.is_space ws = true /\
    (count_digits s <= Py.int_max_str_digits)%nat.
Proof.
  unfold Py.int_unsigned. destruct s as [|c r]; [done|].
  destruct (Py.digit_value c) as [d|] eqn:Hd; [|done].
  destruct (Py.int_digits d 1 r) as [[v' digits] rest] eqn:Hrun.
  destruct (int_digits_reads _ _ _ _ _ _ _ (le_n _) Hrun) as (t & -> & Ht & ->).
  apply digit_value_digit in Hd. intros H.
  assert (Hcap : (Py.int_max_str_digits <? 1 + count_digits t)%nat = false /\
                 Py.lstrip rest = "").
  { destruct rest as [|c' rest']; [by case_match|].
    destruct (Py.is_underscore c'); [done|]. case_match; [done|]. split; [done|].
    by case_match. }
  destruct Hcap as [Hcap Hrest]. apply Nat.ltb_ge in Hcap. apply lstrip_nil in Hrest.
  exists c, t, rest. rewrite append_cons. do 4 (split; [done|]).
  cbn [count_digits]. rewrite Hd, count_digits_app, (count_digits_space rest Hrest). lia.
Qed.

Lemma int_unsigned_accepts (c : ascii) (t ws : string) :
  is_digit c = true -> digit_tail t -> all_chars Py.is_space ws = true ->
  (1 + count_digits t <= Py.int_max_str_digits)%nat ->
  exists v, Py.int_unsigned (String c t +:+ ws) = Py.Value v.
Proof.
  intros Hc Ht Hws Hcap. rewrite append_cons. unfold Py.int_unsigned.
  destruct (proj1 (proj2 (proj2 (char_classes c))) Hc) as [d ->].
  destruct (int_digits_tail t ws Ht Hws d 1) as [v ->]. exists v.
  apply Nat.ltb_ge in Hcap. rewrite Hcap.
  destruct ws as [|c' ws']; [done|].
  rewrite (proj2 (lstrip_nil _) Hws). cbn [all_chars] in Hws.
  apply andb_true_iff in Hws as [Hc' _].
  by destruct (proj1 (proj2 (char_classes c')) Hc') as (_ & -> & _).
Qed.

(** [int] returns exactly on the integer literals of at most 4300 digits. *)
Lemma int_accepts (x : string) :
  (exists n, Py.int x = Ok n) <->
  integer_literal x /\ (count_digits x <= Py.int_max_str_digits)%nat.
Proof.
  split.
  - intros [n Hn]. unfold Py.int in Hn.
    destruct (Py.int_literal x) as [v| |k] eqn:Hl; [|done|done]. clear Hn.
    unfold Py.int_literal in Hl.
    destruct (lstrip_split x) as (ws1 & Hx & Hws1).
    assert (Hshape : forall sign s v',
               (sign = "" \/ sign = "-" \/ sign = "+") ->
               Py.lstrip x = sign +:+ s -> Py.int_unsigned s = Py.Value v' ->
               integer_literal x /\ (count_digits x <= Py.int_max_str_digits)%nat).
    { intros sign s v' Hsign Hs Hv.
      destruct (int_unsigned_value s v' Hv) as (c & t & ws2 & -> & Hc & Ht & Hws2 & Hcap).
      rewrite Hs in Hx. split.
      - exists ws1, sign, c, t, ws2. by rewrite Hx.
      - rewrite Hx, !count_digits_app, (count_digits_space ws1 Hws1).
        rewrite count_digits_app in Hcap.
        assert (count_digits sign = 0%nat) as -> by (by destruct Hsign as [-> | [-> | ->]]).
        lia. }
    destruct (Py.lstrip x) as [|c r] eqn:Hs; [done|].
    destruct (Ascii.eqb c "-") eqn:Hm.
    { apply Ascii.eqb_eq in Hm as ->.
      destruct (Py.int_unsigned r) as [v'| |k] eqn:Hv; [|done|done].
      apply (Hshape "-" r v'); by auto. }
    destruct (Ascii.eqb c "+") eqn:Hp.
    { apply Ascii.eqb_eq in Hp as ->. apply (Hshape "+" r v); by auto. }
    apply (Hshape "" (String c r) v); by auto.
  - intros [(ws1 & sign & c & t & ws2 & -> & Hws1 & Hsign & Hc & Ht & Hws2) Hcap].
    rewrite !count_digits_app, (count_digits_space ws1 Hws1),
      (count_digits_space ws2 Hws2) in Hcap.
    assert (count_digits sign = 0%nat) as Hs0 by (by destruct Hsign as [-> | [-> | ->]]).
    rewrite Hs0 in Hcap. cbn [count_digits] in Hcap. rewrite Hc in Hcap.
    destruct (int_unsigned_accepts c t ws2 Hc Ht Hws2 ltac:(lia)) as [v Hv].
    destruct (proj1 (char_classes c) Hc) as (Hsp & _ & Hsg).
    unfold Py.is_sign in Hsg. apply orb_false_iff in Hsg as [Hm Hp].
    unfold Py.int, Py.int_literal. rewrite (lstrip_space ws1 _ Hws1).
    destruct Hsign as [-> | [-> | ->]]; rewrite ?append_nil_l, ?append_cons.
    + rewrite append_cons in Hv. cbn [Py.lstrip]. rewrite Hsp, Hm, Hp, Hv. by eauto.
    + rewrite append_nil_l. cbn [Py.lstrip].
      replace (Py.is_space "-") with false by by vm_compute.
      replace (Ascii.eqb "-" "-") with true by by vm_compute.
      rewrite append_cons in Hv. rewrite Hv. cbn. by eauto.
    + rewrite append_nil_l. cbn [Py.lstrip].
      replace (Py.is_space "+") with false by by vm_compute.
      replace (Ascii.eqb "+" "-") with false by by vm_compute.
      replace (Ascii.eqb "+" "+") with true by by vm_compute.
      rewrite append_cons in Hv. rewrite Hv. by eauto.
Qed.

Lemma parse_version_components (v : string) (a b c : Z) :
  let parts := Py.split "." (Py.re_sub_suffix v) in
  _parse_version v = Ok (a, b, c) <->
  component parts 0 = Ok a /\ component parts 1 = Ok b /\ component parts 2 = Ok c.
Proof.
  intros parts. unfold _parse_version. fold parts. unfold component.
  destruct parts as [|x [|y [|z rest]]]; cbn.
  - split; [intros [= <- <- <-]; done | intros ([= <-] & [= <-] & [= <-]); done].
  - destruct (Py.int x); cbn; split; try done.
    + intros [= <- <- <-]; done.
    + intros ([= <-] & [= <-] & [= <-]); done.
    + intros (? & _); done.
  - destruct (Py.int x); cbn; [|split; [done | intros (? & _); done]].
    destruct (Py.int y); cbn; [|split; [done | intros (_ & ? & _); done]].
    split; [intros [= <- <- <-]; done | intros ([= <-] & [= <-] & [= <-]); done].
  - destruct (Py.int x); cbn; [|split; [done | intros (? & _); done]].
    destruct (Py.int y); cbn; [|split; [done | intros (_ & ? & _); done]].
    destruct (Py.int z); cbn; [|split; [done | intros (_ & _ & ?); done]].
    split; [intros [= <- <- <-]; done | intros ([= <-] & [= <-] & [= <-]); done].
Qed.

Lemma parse_version_raises (v : string) (e : exn) :
  let parts := Py.split "." (Py.re_sub_suffix v) in
  _parse_version v = Raise e ->
  exists i, (i < 3)%nat /\ component parts i = Raise e.
Proof.
  intros parts. unfold _parse_version. fold parts. unfold component.
  destruct parts as [|x [|y [|z rest]]]; cbn; try done.
  - destruct (Py.int x) eqn:Hx; cbn; [done|]. intros [= <-]. exists 0%nat. by split; [lia|].
  - destruct (Py.int x) eqn:Hx; cbn; [|intros [= <-]; exists 0%nat; by split; [lia|]].
    destruct (Py.int y) eqn:Hy; cbn; [done|]. intros [= <-]. exists 1%nat. by split; [lia|].
  - destruct (Py.int x) eqn:Hx; cbn; [|intros [= <-]; exists 0%nat; by split; [lia|]].
    destruct (Py.int y) eqn:Hy; cbn; [|intros [= <-]; exists 1%nat; by split; [lia|]].
    destruct (Py.int z) eqn:Hz; cbn; [done|]. intros [= <-]. exists 2%nat. by split; [lia|].
Qed.

(** C4 (as stated, refuted): a fourth component that is not an integer is
    present and the version is parsed all the same; behind a sign that is
    followed by a line feed inside the string nothing is stripped, so that a
    component can be negative, or the version is refused with its suffix; and
    a component with an underscore or with white space is converted. *)
Lemma parse_version_departs :
  (Py.split "." (Py.re_sub_suffix "1.2.3.x") = ["1"; "2"; "3"; "x"] /\
   Py.int "x" = Raise (ValueError "invalid literal for int() with base 10: 'x'") /\
   _parse_version "1.2.3.x" = Ok (1, 2, 3)) /\
  (Py.re_sub_suffix ("-1" +:+ LFs +:+ LFs) = "-1" +:+ LFs +:+ LFs /\
   _parse_version ("-1" +:+ LFs +:+ LFs) = Ok (-1, 0, 0)) /\
  (Py.re_sub_suffix ("1.2.3-a" +:+ LFs +:+ "b") = "1.2.3-a" +:+ LFs +:+ "b" /\
   _parse_version ("1.2.3-a" +:+ LFs +:+ "b")
   = Raise (ValueError "invalid literal for int() with base 10: '3-a\nb'")) /\
  _parse_version "1_0. 2" = Ok (10, 2, 0).
Proof. repeat split. Qed.

(** C4 (amended): [_parse_version] drops what starts at the first [-] or
    [+] (a suffix without line feed), splits the rest on [.] and converts the
    first three components with [int], a missing one being 0; it fails, with
    the error of the conversion, exactly when the conversion of one of the
    first three components that are present fails, and components after the
    third are not looked at.  The conversion succeeds exactly on an integer
    literal (white space, an optional sign, digits with single underscores
    between them, white space) of at most 4300 digits.  A version without
    line feed parses to numbers that are not negative, and a pre-release or
    build suffix does not change the result. *)
Theorem parse_version_spec :
  (forall (v s : string) (c : ascii),
      sign_free v -> Py.is_sign c = true -> no_lf s ->
      Py.re_sub_suffix (v +:+ String c s) = v /\
      _parse_version (v +:+ String c s) = _parse_version v) /\
  (forall (v : string) (a b c : Z),
      _parse_version v = Ok (a, b, c) <->
      component (Py.split "." (Py.re_sub_suffix v)) 0 = Ok a /\
      component (Py.split "." (Py.re_sub_suffix v)) 1 = Ok b /\
      component (Py.split "." (Py.re_sub_suffix v)) 2 = Ok c) /\
  (forall v : string,
      (exists e, _parse_version v = Raise e) <->
      (exists i e, (i < 3)%nat /\
                   component (Py.split "." (Py.re_sub_suffix v)) i = Raise e)) /\
  (forall v : string,
      (exists e, _parse_version v = Raise e) <->
      (exists i x, (i < 3)%nat /\
                   nth_error (Py.split "." (Py.re_sub_suffix v)) i = Some x /\
                   ~ (integer_literal x /\ (count_digits x <= 4300)%nat))) /\
  (forall x : string,
      (exists n, Py.int x = Ok n) <->
      integer_literal x /\ (count_digits x <= 4300)%nat) /\
  (forall (v : string) (e : exn),
      _parse_version v = Raise e -> exists msg, e = ValueError msg) /\
  (forall (v : string) (a b c : Z),
      no_lf v -> _parse_version v = Ok (a, b, c) -> 0 <= a /\ 0 <= b /\ 0 <= c) /\
  _parse_version "1.2.3-beta+001" = Ok (1, 2, 3) /\
  _parse_version "1.2.3" = Ok (1, 2, 3) /\
  _parse_version "1.2" = Ok (1, 2, 0) /\
  _parse_version "1" = Ok (1, 0, 0) /\
  _parse_version "1.2.3.4.x" = Ok (1, 2, 3) /\
  _parse_version "1.x.3"
  = Raise (ValueError "invalid literal for int() with base 10: 'x'") /\
  (exists n, _parse_version (string_of_list_ascii (repeat "1"%char 4300)) = Ok (n, 0, 0)) /\
  _parse_version (string_of_list_ascii (repeat "1"%char 4301))
  = Raise (ValueError ("Exceeds the limit (4300 digits) for integer string conversion: "
                       +:+ "value has 4301 digits; "
                       +:+ "use sys.set_int_max_str_digits() to increase the limit")).
Proof.
  assert (Hcomp : forall parts i e, component parts i = Raise e -> exists msg, e = ValueError msg).
  { intros parts i e. unfold component. destruct (nth_error parts i); [|done].
    apply int_raise_value_error. }
  assert (Hfail : forall v : string,
      (exists e, _parse_version v = Raise e) <->
      (exists i e, (i < 3)%nat /\
                   component (Py.split "." (Py.re_sub_suffix v)) i = Raise e)).
  { intros v. split.
    - intros [e He]. destruct (parse_version_raises v e He) as (i & Hi & H). by eauto.
    - intros (i & e & Hi & H).
      destruct (_parse_version v) as [[[a b] c]|e'] eqn:Hp; [|by eauto].
      apply parse_version_components in Hp as (H0 & H1 & H2).
      destruct i as [|[|[|i]]]; [congruence | congruence | congruence | lia]. }
  split; [|split; [|split; [exact Hfail|split; [|split; [exact int_accepts|split; [|split]]]]]].
  - intros v s c Hv Hc Hs. pose proof (re_sub_strips v s c Hv Hc Hs) as H.
    split; [done|]. unfold _parse_version. by rewrite H, (re_sub_sign_free v Hv).
  - intros v a b c. apply parse_version_components.
  - intros v. rewrite Hfail. change 4300%nat with Py.int_max_str_digits. split.
    + intros (i & e & Hi & H). revert H. unfold component.
      destruct (nth_error (Py.split "." (Py.re_sub_suffix v)) i) as [x|] eqn:Hx; [|done].
      intros H. exists i, x. do 2 (split; [done|]). rewrite <- int_accepts.
      intros [n Hn]. congruence.
    + intros (i & x & Hi & Hx & H). rewrite <- int_accepts in H.
      exists i. unfold component. rewrite Hx.
      destruct (Py.int x) as [n|e] eqn:Hn; [|by eauto].
      exfalso. apply H. by eauto.
  - intros v e He. destruct (parse_version_raises v e He) as (i & _ & H). by eauto.
  - intros v a b c Hv Hp. apply parse_version_components in Hp as (H0 & H1 & H2).
    pose proof (split_all_chars _ "."%char _ (re_sub_no_lf v Hv)) as Hall.
    assert (Hi : forall i n, component (Py.split "." (Py.re_sub_suffix v)) i = Ok n -> 0 <= n).
    { intros i n. unfold component.
      destruct (nth_error (Py.split "." (Py.re_sub_suffix v)) i) as [x|] eqn:Hx.
      - apply int_sign_free_nonneg. rewrite Forall_forall in Hall.
        apply Hall, list_elem_of_In. by eapply nth_error_In.
      - intros [= <-]. lia. }
    repeat split; by eapply Hi.
  - do 6 (split; [reflexivity|]). split; [|by vm_compute].
    eexists. vm_compute. reflexivity.
Qed.

Lemma parse_version_spec_witness :
  Py.re_sub_suffix ("1.2.3" +:+ String "-" "beta+001") = "1.2.3" /\
  _parse_version ("1.2.3" +:+ String "-" "beta+001") = _parse_version "1.2.3".
Proof.
  apply (proj1 parse_version_spec "1.2.3" "beta+001" "-"%char); reflexivity.
Defined.

(** ** The validator *)

Import DependencyResolver.

Lemma init_raise_value_error (c : string) (e : exn) :
  __init__ c = Raise e -> exists msg, e = ValueError msg.
Proof.
  unfold __init__, _parse. destruct (re_match operators c); cbn; [done|].
  intros [= <-]. by eexists.
Qed.

Lemma parse_version_raise_value_error (v : string) (e : exn) :
  _parse_version v = Raise e -> exists msg, e = ValueError msg.
Proof.
  intros H. destruct (parse_version_raises v e H) as (i & _ & Hi).
  unfold component in Hi. destruct (nth_error _ i); [|done].
  by eapply int_raise_value_error.
Qed.

Lemma satisfies_raise_value_error (vc : VersionConstraint.t) (v : string) (e : exn) :
  satisfies vc v = Raise e -> exists msg, e = ValueError msg.
Proof.
  unfold satisfies.
  destruct (_parse_version (VersionConstraint.version vc)) as [[[a b] c]|e1] eqn:H1; cbn.
  - destruct (_parse_version v) as [t|e2] eqn:H2; cbn.
    + by repeat case_match.
    + intros [= <-]. by eapply parse_version_raise_value_error.
  - intros [= <-]. by eapply parse_version_raise_value_error.
Qed.

(** The [try] block with the dependency registered: what it does is decided
    by [Satisfies] on the registered version, or on [0.0.0] without one. *)
Lemma check_version_registered (plugins : registry) (errors : list string)
    (n c : string) (m : manifest) :
  dict_get n plugins = Some m ->
  check_version plugins errors n c =
  match Satisfies c (default "0.0.0" (DependencyResolver.version m)) with
  | Ok true => Ok errors
  | Ok false =>
      Ok (errors ++ ["Dependency '" +:+ n +:+ "' version '"
                     +:+ default "0.0.0" (DependencyResolver.version m)
                     +:+ "' does not satisfy constraint '" +:+ c +:+ "'"])
  | Raise e => Raise e
  end.
Proof.
  intros Hm. unfold check_version, Satisfies. rewrite Hm.
  destruct (__init__ c) as [vc|e]; cbn; [|done].
  destruct (satisfies vc _) as [[|]|e]; by cbn.
Qed.

Lemma dict_mem_get (n : string) (plugins : registry) :
  dict_mem n plugins = true -> exists m, dict_get n plugins = Some m.
Proof. unfold dict_mem. destruct (dict_get n plugins); [by eauto | done]. Qed.

Lemma Satisfies_raise_value_error (c v : string) (e : exn) :
  Satisfies c v = Raise e -> exists msg, e = ValueError msg.
Proof.
  unfold Satisfies. destruct (__init__ c) as [vc|e'] eqn:Hi; cbn.
  - apply satisfies_raise_value_error.
  - intros [= <-]. by eapply init_raise_value_error.
Qed.

Local Ltac settle :=
  split; [by rewrite ?app_nil_r, ?app_nil_l | simpl; lia].

(** One turn of the loop never raises, and appends what the declaration
    contributes: nothing or one error. *)
Lemma validate_dep_appends (plugins : registry) (errors : list string) (dep : dependency) :
  validate_dep plugins errors dep = Ok (errors ++ dep_errors plugins dep) /\
  (length (dep_errors plugins dep) <= 1)%nat.
Proof.
  unfold dep_errors, validate_dep.
  destruct (dep_name dep) as [[|c r]|]; [settle | | settle].
  destruct (dict_mem (String c r) plugins) eqn:Hmem; cbn [negb]; [|settle].
  destruct (dep_version dep) as [[|c' r']|]; [settle | | settle].
  destruct (dict_mem_get _ _ Hmem) as [m Hm].
  rewrite !(check_version_registered _ _ _ _ m Hm).
  destruct (Satisfies _ _) as [[|]|e] eqn:HS; [settle | settle |].
  destruct (Satisfies_raise_value_error _ _ _ HS) as [msg ->]. settle.
Qed.

Lemma for_each_validate (plugins : registry) (deps : list dependency) (errors : list string) :
  for_each deps (validate_dep plugins) errors
  = Ok (errors ++ concat (map (dep_errors plugins) deps)).
Proof.
  revert errors. induction deps as [|d deps IH]; intros errors; simpl.
  - by rewrite app_nil_r.
  - rewrite (proj1 (validate_dep_appends plugins errors d)). cbn.
    by rewrite IH, app_assoc.
Qed.

(** A declaration adds one error when it fails and none when it does not. *)
Lemma dep_errors_length (plugins : registry) (dep : dependency) :
  length (dep_errors plugins dep) = if dep_fails plugins dep then 1%nat else 0%nat.
Proof.
  unfold dep_errors, dep_fails, validate_dep, dict_mem.
  destruct (dep_name dep) as [[|c r]|]; [done | | done].
  destruct (dict_get (String c r) plugins) as [m|] eqn:Hm; cbn [negb]; [|done].
  destruct (dep_version dep) as [[|c' r']|]; [done | | done].
  rewrite (check_version_registered _ _ _ _ m Hm).
  destruct (Satisfies _ _) as [[|]|e] eqn:HS; [done | done |].
  by destruct (Satisfies_raise_value_error _ _ _ HS) as [msg ->].
Qed.

Lemma concat_dep_errors_length (plugins : registry) (deps : list dependency) :
  length (concat (map (dep_errors plugins) deps))
  = length (filter (fun d => dep_fails plugins d = true) deps).
Proof.
  induction deps as [|d deps IH]; [done|].
  cbn [map concat]. rewrite length_app, filter_cons, IH, dep_errors_length.
  case_decide as Hf; [by rewrite Hf|]. by destruct (dep_fails plugins d).
Qed.

(** C6: every declaration adds one error to the list when it fails and
    nothing when it does not, whatever the declarations before it did; the
    errors returned are those of all declarations in order, one per failing
    declaration, so that the error of a failing declaration is in the list
    whatever comes before it; the flag is true when no declaration fails;
    and a manifest whose only declaration names a plugin absent from the
    registry gets exactly the not-found error, whatever its constraint. *)
Theorem validate_accumulates :
  (forall (plugins : registry) (errors : list string) (dep : dependency),
      validate_dep plugins errors dep = Ok (errors ++ dep_errors plugins dep) /\
      length (dep_errors plugins dep)
      = if dep_fails plugins dep then 1%nat else 0%nat) /\
  (forall (plugins : registry) (m : manifest),
      exists errors : list string,
        validate_dependencies plugins m = Ok (Nat.eqb (length errors) 0, errors) /\
        errors = concat (map (dep_errors plugins) (dependencies m)) /\
        length errors
        = length (filter (fun d => dep_fails plugins d = true) (dependencies m)) /\
        (forall d, In d (dependencies m) -> dep_fails plugins d = true ->
                   exists e, dep_errors plugins d = [e] /\ In e errors)) /\
  (forall (plugins : registry) (m : manifest) (n : string) (c : option string),
      dependencies m = [mk_dependency (Some n) c] ->
      n <> "" ->
      dict_mem n plugins = false ->
      validate_dependencies plugins m
      = Ok (false, ["Dependency '" +:+ n +:+ "' not found in registry"])).
Proof.
  split; [|split].
  - intros plugins errors dep.
    split; [apply validate_dep_appends | apply dep_errors_length].
  - intros plugins m. eexists. split; [|split; [reflexivity|split]].
    + unfold validate_dependencies. rewrite for_each_validate. cbn. reflexivity.
    + apply concat_dep_errors_length.
    + intros d Hd Hf. pose proof (dep_errors_length plugins d) as Hlen.
      rewrite Hf in Hlen. destruct (dep_errors plugins d) as [|e [|e' l]] eqn:He; try done.
      exists e. split; [done|]. apply in_concat. exists [e]. split; [|by left].
      rewrite <- He. by apply in_map.
  - intros plugins m n c Hdeps Hn Hmem.
    unfold validate_dependencies. rewrite Hdeps. cbn.
    destruct n as [|ch r]; [done|]. by rewrite Hmem.
Qed.

Lemma validate_accumulates_witness :
  validate_dependencies [("A", mk_manifest (Some "A") (Some "1.0.0") [])]
    (mk_manifest (Some "P") (Some "1.0.0") [mk_dependency (Some "B") (Some "not a constraint")])
  = Ok (false, ["Dependency '" +:+ "B" +:+ "' not found in registry"]).
Proof.
  apply (proj2 (proj2 validate_accumulates)
           [("A", mk_manifest (Some "A") (Some "1.0.0") [])]
           (mk_manifest (Some "P") (Some "1.0.0")
              [mk_dependency (Some "B") (Some "not a constraint")])
           "B" (Some "not a constraint")); done.
Defined.

(** C10: a constraint on a dependency that is registered without a version
    is checked against [0.0.0]: the outcome is that of [Satisfies] on
    [0.0.0], and an unmet constraint is reported with actual version
    [0.0.0]. *)
Theorem validate_default_version :
  (forall (plugins : registry) (errors : list string) (dep : dependency)
          (n c : string) (m : manifest),
      dep_name dep = Some n -> n <> "" ->
      dep_version dep = Some c -> c <> "" ->
      dict_get n plugins = Some m ->
      DependencyResolver.version m = None ->
      validate_dep plugins errors dep =
      match Satisfies c "0.0.0" with
      | Ok true => Ok errors
      | Ok false =>
          Ok (errors ++ ["Dependency '" +:+ n +:+ "' version '0.0.0"
                         +:+ "' does not satisfy constraint '" +:+ c +:+ "'"])
      | Raise (ValueError e) =>
          Ok (errors ++ ["Invalid version constraint for '" +:+ n +:+ "': " +:+ e])
      | Raise e => Raise e
      end) /\
  validate_dependencies [("B", mk_manifest (Some "B") None [])]
    (mk_manifest (Some "A") (Some "1.0.0") [mk_dependency (Some "B") (Some ">=1.0.0")])
  = Ok (false, ["Dependency 'B' version '0.0.0' does not satisfy constraint '>=1.0.0'"]).
Proof.
  split; [|reflexivity].
  intros plugins errors dep n c m Hn Hne Hc Hce Hm Hv.
  unfold validate_dep. rewrite Hn, Hc.
  destruct n as [|ch r]; [done|]. destruct c as [|ch' r']; [done|].
  unfold dict_mem. rewrite Hm. cbn [negb].
  rewrite (check_version_registered _ _ _ _ m Hm), Hv. cbn [default].
  by destruct (Satisfies _ _) as [[|]|[]].
Qed.

Lemma validate_default_version_witness :
  validate_dep [("B", mk_manifest (Some "B") None [])] []
    (mk_dependency (Some "B") (Some ">=1.0.0"))
  = Ok ([] ++ ["Dependency '" +:+ "B" +:+ "' version '0.0.0"
               +:+ "' does not satisfy constraint '" +:+ ">=1.0.0" +:+ "'"]).
Proof.
  apply (proj1 validate_default_version [("B", mk_manifest (Some "B") None [])] []
           (mk_dependency (Some "B") (Some ">=1.0.0")) "B" ">=1.0.0"
           (mk_manifest (Some "B") None [])); done.
Defined.

(** ** The graph *)

Lemma add_to_edge (k x : string) (g : gmap string (gset string)) (a b : string) :
  has_edge (add_to k x g) a b <-> has_edge g a b \/ (a = k /\ b = x).
Proof.
  unfold has_edge, add_to. destruct (decide (a = k)) as [->|Hne].
  - rewrite lookup_insert_eq. cbn [default]. set_solver.
  - rewrite lookup_insert_ne by done. set_solver.
Qed.

Lemma add_dependency_edges (name : string) (gr : graphs) (dep : dependency) (a b : string) :
  (has_edge (dependency_graph (add_dependency name gr dep)) a b <->
   has_edge (dependency_graph gr) a b \/ (a = name /\ dep_name dep = Some b /\ b <> "")) /\
  (has_edge (reverse_graph (add_dependency name gr dep)) b a <->
   has_edge (reverse_graph gr) b a \/ (a = name /\ dep_name dep = Some b /\ b <> "")).
Proof.
  unfold add_dependency. destruct (dep_name dep) as [[|c r]|]; cbn;
    rewrite ?add_to_edge; naive_solver.
Qed.

Lemma add_dependencies_edges (name : string) (deps : list dependency) (gr : graphs)
    (a b : string) :
  let gr' := fold_left (add_dependency name) deps gr in
  (has_edge (dependency_graph gr') a b <->
   has_edge (dependency_graph gr) a b \/
   (a = name /\ exists d, In d deps /\ dep_name d = Some b /\ b <> "")) /\
  (has_edge (reverse_graph gr') b a <->
   has_edge (reverse_graph gr) b a \/
   (a = name /\ exists d, In d deps /\ dep_name d = Some b /\ b <> "")).
Proof.
  revert gr. induction deps as [|d deps IH]; intros gr; cbn.
  - naive_solver.
  - destruct (IH (add_dependency name gr d)) as [IH1 IH2].
    destruct (add_dependency_edges name gr d a b) as [H1 H2].
    rewrite IH1, IH2, H1, H2. clear. naive_solver.
Qed.

Lemma build_edges_from (plugins : registry) (gr : graphs) (a b : string) :
  let gr' := fold_left add_manifest plugins gr in
  (has_edge (dependency_graph gr') a b <->
   has_edge (dependency_graph gr) a b \/ declares plugins a b) /\
  (has_edge (reverse_graph gr') b a <->
   has_edge (reverse_graph gr) b a \/ declares plugins a b).
Proof.
  revert gr. induction plugins as [|[n m] plugins IH]; intros gr; cbn.
  - unfold declares. naive_solver.
  - destruct (IH (add_manifest gr (n, m))) as [IH1 IH2].
    destruct (add_dependencies_edges n (dependencies m) gr a b) as [H1 H2].
    change (add_manifest gr (n, m))
      with (fold_left (add_dependency n) (dependencies m) gr) in IH1, IH2.
    rewrite IH1, IH2, H1, H2. clear. unfold declares. cbn [In]. naive_solver.
Qed.

Lemma has_edge_empty (a b : string) : ~ has_edge ∅ a b.
Proof. unfold has_edge. rewrite lookup_empty. set_solver. Qed.

Lemma build_edges (plugins : registry) (a b : string) :
  (has_edge (dependency_graph (build_dependency_graph plugins)) a b <-> declares plugins a b) /\
  (has_edge (reverse_graph (build_dependency_graph plugins)) b a <-> declares plugins a b).
Proof.
  destruct (build_edges_from plugins (mk_graphs ∅ ∅) a b) as [H1 H2].
  unfold build_dependency_graph. rewrite H1, H2. cbn.
  pose proof (has_edge_empty a b). pose proof (has_edge_empty b a). tauto.
Qed.

(** C8: the forward map has the edge [a -> b], and the reverse map the edge
    [b -> a], exactly when the manifest registered as [a] has a declaration
    with the non-empty name [b], whether or not [b] is registered; a
    declaration without a name changes neither map. *)
Theorem build_graph_edges :
  (forall (plugins : registry) (a b : string),
      (has_edge (dependency_graph (build_dependency_graph plugins)) a b
       <-> declares plugins a b) /\
      (has_edge (reverse_graph (build_dependency_graph plugins)) b a
       <-> declares plugins a b)) /\
  (forall (name : string) (gr : graphs) (dep : dependency),
      Py.truthy (dep_name dep) = false -> add_dependency name gr dep = gr) /\
  (let plugins := [("A", mk_manifest (Some "A") (Some "1.0.0")
                           [mk_dependency (Some "ghost") None; mk_dependency None None])] in
   dict_mem "ghost" plugins = false /\
   dependency_graph (build_dependency_graph plugins) = {["A" := {["ghost"]}]} /\
   reverse_graph (build_dependency_graph plugins) = {["ghost" := {["A"]}]}).
Proof.
  split; [exact build_edges|]. split.
  - intros name gr dep H. unfold add_dependency.
    by destruct (dep_name dep) as [[|c r]|].
  - cbn. split; [done|]. unfold add_to. rewrite !lookup_empty. cbn.
    rewrite !(left_id_L ∅ (∪)). by rewrite !insert_empty.
Qed.

(** ** The traversal *)

Lemma index_fresh (x : string) (p q : list string) :
  x ∉ p -> index x (p ++ x :: q) = Some (length p).
Proof.
  induction p as [|y p IH]; intros Hx; simpl.
  - by rewrite String.eqb_refl.
  - apply not_elem_of_cons in Hx as [Hne Hx].
    destruct (String.eqb_spec y x) as [->|_]; [done|]. by rewrite (IH Hx).
Qed.

Lemma index_elem (x : string) (l : list string) :
  x ∈ l -> exists i, index x l = Some i.
Proof.
  induction l as [|y l IH]; intros Hx; [by apply elem_of_nil in Hx|]. simpl.
  destruct (String.eqb_spec y x) as [->|Hne]; [by eauto|].
  apply elem_of_cons in Hx as [->|Hx]; [done|].
  destruct (IH Hx) as [i ->]. by eauto.
Qed.

Lemma leave_ok (node last : string) (st : dfs_state) (p : list string) :
  node ∈ rec_stack st -> path st = p ++ [last] ->
  leave node st
  = Ok (mk_state (cycles st) (visited st) (rec_stack st ∖ {[node]}) p).
Proof.
  intros Hin Hp. unfold leave. rewrite decide_True by done. rewrite Hp.
  rewrite removelast_last. by destruct p.
Qed.

Lemma triangle_rotate (g : gmap string (gset string)) (x y z : string) :
  triangle g x y z -> triangle g y z x.
Proof. unfold triangle. naive_solver. Qed.

Lemma triangle_next (g : gmap string (gset string)) (x y z y' z' : string) :
  triangle g x y z -> triangle g x y' z' -> y' = y /\ z' = z.
Proof.
  intros (_ & _ & _ & Hx & Hy & _) (_ & _ & _ & Hx' & Hy' & _).
  assert (y' = y) as -> by set_solver. split; [done|]. set_solver.
Qed.

Lemma rotation_rotate (x y z : string) (c : list string) :
  rotation_of x y z c -> rotation_of y z x c.
Proof. unfold rotation_of. tauto. Qed.

Lemma candidate_single (g : gmap string (gset string)) (x y : string) :
  succs g x = {[y]} -> candidate g x = y.
Proof. intros H. unfold candidate. by rewrite H, elements_singleton. Qed.

(** Whether [x] starts a triangle can be decided. *)
Lemma triangle_dec (g : gmap string (gset string)) (x : string) :
  (exists y z, triangle g x y z) \/ (forall y z, ~ triangle g x y z).
Proof.
  set (y := candidate g x). set (z := candidate g y).
  assert (Decision (triangle g x y z)) as [T|NT] by (unfold triangle; apply _).
  - left. by eauto.
  - right. intros y' z' T. apply NT.
    pose proof T as (_ & _ & _ & Hx & Hy & _).
    apply candidate_single in Hx. fold y in Hx. subst y'.
    apply candidate_single in Hy. fold z in Hy. by subst z'.
Qed.

Section Detection.

Variable iter : string -> gset string -> list string.
Variable graph : gmap string (gset string).
Variable U : gset string.

Hypothesis iter_perm : forall n X, iter n X ≡ₚ elements X.
Hypothesis graph_closed : forall n, succs graph n ⊆ U.

Lemma neighbors_in (n x : string) : x ∈ neighbors iter graph n -> x ∈ U.
Proof.
  unfold neighbors. rewrite (iter_perm n). rewrite elem_of_elements.
  intros H. by apply (graph_closed n).
Qed.

Lemma neighbors_single (n y : string) :
  succs graph n = {[y]} -> neighbors iter graph n = [y].
Proof.
  intros H. unfold neighbors. fold (succs graph n). rewrite H.
  apply Permutation_singleton_r. by rewrite (iter_perm n), elements_singleton.
Qed.

Lemma visit_unvisited (f : string -> dfs_state -> result dfs_state)
    (st : dfs_state) (nb : string) :
  nb ∉ visited st -> visit f st nb = f nb st.
Proof. intros H. unfold visit. by rewrite decide_True. Qed.

(** The rule that records a cycle: the path from the first occurrence of
    the neighbor, and the neighbor again. *)
Lemma visit_on_stack (f : string -> dfs_state -> result dfs_state)
    (st : dfs_state) (nb : string) (p q : list string) :
  nb ∈ visited st -> nb ∈ rec_stack st ->
  path st = p ++ nb :: q -> nb ∉ p ->
  visit f st nb
  = Ok (mk_state (cycles st ++ [nb :: q ++ [nb]]) (visited st) (rec_stack st) (path st)).
Proof.
  intros Hv Hr Hp Hfresh. unfold visit.
  rewrite decide_False by (intros H; by apply H).
  rewrite decide_True by done.
  rewrite Hp, (index_fresh nb p q Hfresh), drop_app_length. done.
Qed.

Lemma triangles_closed_enter (node : string) (st : dfs_state) :
  (forall y z, ~ triangle graph node y z) ->
  triangles_closed graph st -> triangles_closed graph (enter node st).
Proof.
  intros Hno Hc x y z T. cbn. rewrite elem_of_union, elem_of_singleton.
  intros [->|Hx]; [by destruct (Hno y z)|].
  destruct (Hc x y z T Hx) as [Hy Hrec]. split; [set_solver | done].
Qed.

Lemma stack_wf_enter (node : string) (st : dfs_state) :
  node ∈ U -> stack_wf U st -> stack_wf U (enter node st).
Proof.
  intros HU (H1 & H2 & H3). unfold stack_wf. cbn. split; [set_solver|]. split; [|set_solver].
  intros x. rewrite elem_of_app, list_elem_of_singleton, (H2 x). set_solver.
Qed.

Lemma dfs_triangle (limit : nat) (x y z : string) (st : dfs_state) :
  triangle graph x y z -> stack_wf U st -> triangles_closed graph st ->
  x ∉ visited st -> (3 <= limit)%nat ->
  exists st', dfs iter graph limit x st = Ok st' /\ dfs_post U graph x st st'.
Proof.
  intros T Hwf Hc Hx Hl.
  pose proof (triangle_rotate _ _ _ _ T) as T1.
  pose proof (triangle_rotate _ _ _ _ T1) as T2.
  assert (Hz : z ∉ visited st) by (intros Hz; by destruct (Hc z x y T2 Hz)).
  assert (Hy : y ∉ visited st) by (intros Hy; by destruct (Hc y z x T1 Hy)).
  pose proof T as (Hxy & Hyz & Hzx & Sx & Sy & Sz).
  destruct Hwf as (W1 & W2 & W3).
  destruct limit as [|[|[|l]]]; [lia | lia | lia |].
  cbn [dfs]. rewrite (neighbors_single x y Sx). cbn [for_each].
  rewrite visit_unvisited by (cbn; set_solver).
  cbn [dfs]. rewrite (neighbors_single y z Sy). cbn [for_each].
  rewrite visit_unvisited by (cbn; set_solver).
  cbn [dfs]. rewrite (neighbors_single z x Sz). cbn [for_each].
  rewrite (visit_on_stack _ _ x (path st) [y; z]);
    [ | cbn; set_solver | cbn; set_solver | cbn; by rewrite <- !app_assoc
      | rewrite (W2 x); set_solver ].
  cbn [mbind result_bind].
  erewrite (leave_ok z z); [ | cbn; set_solver | cbn; reflexivity ].
  cbn [mbind result_bind].
  erewrite (leave_ok y y); [ | cbn; set_solver | cbn; reflexivity ].
  cbn [mbind result_bind].
  erewrite (leave_ok x x); [ | cbn; set_solver | cbn; reflexivity ].
  eexists. split; [reflexivity|].
  assert (HxU : x ∈ U) by (apply (graph_closed z); set_solver).
  assert (HyU : y ∈ U) by (apply (graph_closed x); set_solver).
  assert (HzU : z ∈ U) by (apply (graph_closed y); set_solver).
  unfold dfs_post, stack_wf. cbn.
  split; [split; [set_solver | split; [|set_solver]]|].
  { intros w. rewrite (W2 w). set_solver. }
  split; [|split; [set_solver | split; [set_solver | done]]].
  intros x' y' z' T'. cbn. rewrite !elem_of_union, !elem_of_singleton.
  intros [->|[->|[->|Hv]]].
  - destruct (triangle_next _ _ _ _ _ _ T2 T') as [-> ->].
    split; [by auto|]. exists [x; y; z; x]. split; [set_solver|]. right. by left.
  - destruct (triangle_next _ _ _ _ _ _ T1 T') as [-> ->].
    split; [by auto|]. exists [x; y; z; x]. split; [set_solver|]. right. by right.
  - destruct (triangle_next _ _ _ _ _ _ T T') as [-> ->].
    split; [by auto|]. exists [x; y; z; x]. split; [set_solver|]. by left.
  - destruct (Hc x' y' z' T' Hv) as (Hy' & c & Hin & Hrot).
    split; [by auto|]. exists c. split; [set_solver | done].
Qed.

Lemma visit_indexed (f : string -> dfs_state -> result dfs_state)
    (st : dfs_state) (nb : string) (i : nat) :
  nb ∈ visited st -> nb ∈ rec_stack st -> index nb (path st) = Some i ->
  visit f st nb
  = Ok (mk_state (cycles st ++ [drop i (path st) ++ [nb]])
                 (visited st) (rec_stack st) (path st)).
Proof.
  intros Hv Hr Hi. unfold visit.
  rewrite decide_False by (intros H; by apply H).
  by rewrite decide_True, Hi by done.
Qed.

Lemma visit_finished (f : string -> dfs_state -> result dfs_state)
    (st : dfs_state) (nb : string) :
  nb ∈ visited st -> nb ∉ rec_stack st -> visit f st nb = Ok st.
Proof.
  intros Hv Hr. unfold visit.
  rewrite decide_False by (intros H; by apply H).
  by rewrite decide_False.
Qed.

Lemma triangles_closed_record (st : dfs_state) (c : list string) :
  triangles_closed graph st ->
  triangles_closed graph
    (mk_state (cycles st ++ [c]) (visited st) (rec_stack st) (path st)).
Proof.
  intros Hc x y z T Hx. destruct (Hc x y z T Hx) as (Hy & c' & Hin & Hrot).
  split; [done|]. exists c'. split; [|done]. cbn. set_solver.
Qed.

Lemma remaining_pos (node : string) (st : dfs_state) :
  node ∈ U -> node ∉ visited st -> (0 < size (U ∖ visited st))%nat.
Proof.
  intros HU Hv.
  assert ({[node]} ⊆ U ∖ visited st) as Hsub by set_solver.
  apply subseteq_size in Hsub. rewrite size_singleton in Hsub. lia.
Qed.

Lemma remaining_entered (node : string) (st s : dfs_state) (n : nat) :
  node ∈ U -> node ∉ visited st ->
  {[node]} ∪ visited st ⊆ visited s ->
  (size (U ∖ visited st) <= S n)%nat ->
  (size (U ∖ visited s) <= n)%nat.
Proof.
  intros HU Hv Hs Hn.
  assert (U ∖ visited s ⊂ U ∖ visited st) as Hlt by set_solver.
  apply subset_size in Hlt. lia.
Qed.

(** The loop of [dfs] over the neighbors of [node], given that the nested
    calls behave. *)
Lemma dfs_loop (limit : nat) (node : string) (st : dfs_state) :
  (forall nb s, stack_wf U s -> triangles_closed graph s -> nb ∈ U ->
                nb ∉ visited s -> (size (U ∖ visited s) <= limit)%nat ->
                exists s', dfs iter graph limit nb s = Ok s' /\ dfs_post U graph nb s s') ->
  node ∈ U -> node ∉ visited st -> (size (U ∖ visited st) <= S limit)%nat ->
  forall (l : list string) (s : dfs_state),
    (forall nb, nb ∈ l -> nb ∈ U) ->
    stack_wf U s -> triangles_closed graph s ->
    {[node]} ∪ visited st ⊆ visited s ->
    rec_stack s = {[node]} ∪ rec_stack st ->
    path s = path st ++ [node] ->
    exists s',
      for_each l (visit (dfs iter graph limit)) s = Ok s' /\
      stack_wf U s' /\ triangles_closed graph s' /\
      {[node]} ∪ visited st ⊆ visited s' /\
      rec_stack s' = {[node]} ∪ rec_stack st /\
      path s' = path st ++ [node].
Proof.
  intros IH HU Hv Hsize l. induction l as [|nb l IHl]; intros s Hl Hwf Hc Hvis Hrs Hp.
  - exists s. by cbn.
  - assert (HnbU : nb ∈ U) by (apply Hl; set_solver).
    assert (Hl' : forall nb', nb' ∈ l -> nb' ∈ U) by (intros nb' ?; apply Hl; set_solver).
    cbn [for_each].
    destruct (decide (nb ∉ visited s)) as [Hnew|Hold].
    + rewrite visit_unvisited by done.
      destruct (IH nb s Hwf Hc HnbU Hnew) as (s1 & -> & Hwf1 & Hc1 & Hv1 & Hrs1 & Hp1).
      { exact (remaining_entered node st s limit HU Hv Hvis Hsize). }
      cbn [mbind result_bind].
      apply IHl; [done | done | done | set_solver | congruence | congruence].
    + apply dec_stable in Hold.
      destruct (decide (nb ∈ rec_stack s)) as [Hon|Hoff].
      * destruct (index_elem nb (path s)) as [i Hi].
        { destruct Hwf as (_ & W2 & _). by apply W2. }
        rewrite (visit_indexed _ s nb i Hold Hon Hi).
        cbn [mbind result_bind].
        apply IHl; [done | | by apply triangles_closed_record | by cbn | by cbn | by cbn].
        exact Hwf.
      * rewrite visit_finished by done. cbn [mbind result_bind]. by apply IHl.
Qed.

(** A call of [dfs] on a node not visited returns, within a recursion limit
    of the number of nodes still to visit. *)
Lemma dfs_ok (limit : nat) :
  forall (node : string) (st : dfs_state),
    stack_wf U st -> triangles_closed graph st -> node ∈ U ->
    node ∉ visited st -> (size (U ∖ visited st) <= limit)%nat ->
    exists st', dfs iter graph limit node st = Ok st' /\ dfs_post U graph node st st'.
Proof.
  induction limit as [|limit IH]; intros node st Hwf Hc HU Hv Hsize.
  - pose proof (remaining_pos node st HU Hv). lia.
  - destruct (triangle_dec graph node) as [(y & z & T)|Hno].
    + apply (dfs_triangle (S limit) node y z st T Hwf Hc Hv).
      pose proof (triangle_rotate _ _ _ _ T) as T1.
      pose proof (triangle_rotate _ _ _ _ T1) as T2.
      assert (Hz : z ∉ visited st) by (intros Hz; by destruct (Hc z node y T2 Hz)).
      assert (Hy : y ∉ visited st) by (intros Hy; by destruct (Hc y z node T1 Hy)).
      destruct T as (Hxy & Hyz & Hzx & Sx & Sy & Sz).
      assert ({[node; y; z]} ⊆ U ∖ visited st) as Hsub.
      { pose proof (graph_closed node). pose proof (graph_closed y). set_solver. }
      apply subseteq_size in Hsub.
      rewrite !size_union, !size_singleton in Hsub by set_solver. lia.
    + cbn [dfs].
      destruct (dfs_loop limit node st IH HU Hv Hsize (neighbors iter graph node)
                  (enter node st)) as (s' & -> & Hwf' & Hc' & Hv' & Hrs' & Hp').
      * intros nb. apply neighbors_in.
      * by apply stack_wf_enter.
      * by apply triangles_closed_enter.
      * done.
      * done.
      * done.
      * cbn [mbind result_bind].
        erewrite (leave_ok node node); [ | rewrite Hrs'; set_solver | exact Hp' ].
        eexists. split; [reflexivity|].
        destruct Hwf as (W1 & W2 & W3). destruct Hwf' as (W1' & W2' & W3').
        unfold dfs_post, stack_wf. cbn. rewrite Hrs'.
        assert (({[node]} ∪ rec_stack st) ∖ {[node]} = rec_stack st) as -> by set_solver.
        split; [split; [set_solver | by split]|].
        split; [done|]. split; [set_solver | done].
Qed.

(** The loop of [detect_circular_dependencies] over the keys. *)
Lemma roots_ok (limit : nat) (l : list string) :
  (size U <= limit)%nat ->
  (forall k, k ∈ l -> k ∈ U) ->
  forall s : dfs_state,
    stack_wf U s -> triangles_closed graph s ->
    exists s',
      for_each l (visit_root iter graph limit) s = Ok s' /\
      stack_wf U s' /\ triangles_closed graph s' /\
      visited s ⊆ visited s' /\ (forall k, k ∈ l -> k ∈ visited s').
Proof.
  intros Hsize. induction l as [|k l IHl]; intros Hl s Hwf Hc.
  - exists s. do 4 (split; [done|]). intros k Hk. by apply elem_of_nil in Hk.
  - assert (HkU : k ∈ U) by (apply Hl; set_solver).
    assert (Hl' : forall k', k' ∈ l -> k' ∈ U) by (intros k' ?; apply Hl; set_solver).
    cbn [for_each].
    destruct (decide (k ∉ visited s)) as [Hnew|Hold].
    + assert (visit_root iter graph limit s k = dfs iter graph limit k s) as ->
        by (unfold visit_root; by rewrite decide_True).
      destruct (dfs_ok limit k s Hwf Hc HkU Hnew) as (s1 & Hs1 & Hwf1 & Hc1 & Hv1 & _);
        [|rewrite Hs1].
      { etrans; [|exact Hsize]. apply subseteq_size. set_solver. }
      cbn [mbind result_bind].
      destruct (IHl Hl' s1 Hwf1 Hc1) as (s' & -> & ? & ? & Hv' & Hk').
      exists s'. do 3 (split; [done|]). split; [set_solver|].
      intros k' [->|?]%elem_of_cons; [set_solver | by auto].
    + assert (visit_root iter graph limit s k = Ok s) as ->
        by (unfold visit_root; by rewrite decide_False).
      cbn [mbind result_bind].
      destruct (IHl Hl' s Hwf Hc) as (s' & -> & ? & ? & Hv' & Hk').
      exists s'. do 4 (split; [done|]).
      intros k' [->|?]%elem_of_cons; [|by auto].
      apply Hv'. by apply dec_stable.
Qed.

End Detection.

(** ** The traversal of the graph of a registry *)

Lemma declares_in_nodes (plugins : registry) (a b : string) :
  declares plugins a b -> b ∈ nodes plugins.
Proof.
  intros (m & d & Hm & Hd & Hb & _). unfold nodes.
  apply elem_of_union_r, elem_of_list_to_set, list_elem_of_In, in_flat_map.
  exists (a, m). split; [done|]. cbn.
  apply list_elem_of_In, list_elem_of_omap. exists d. split; [|done].
  by apply list_elem_of_In.
Qed.

Lemma key_in_nodes (plugins : registry) (k : string) :
  k ∈ keys plugins -> k ∈ nodes plugins.
Proof. intros H. unfold nodes. by apply elem_of_union_l, elem_of_list_to_set. Qed.

Lemma build_closed (plugins : registry) (n : string) :
  succs (dependency_graph (build_dependency_graph plugins)) n ⊆ nodes plugins.
Proof.
  intros b Hb. apply (declares_in_nodes plugins n b).
  by apply (proj1 (build_edges plugins n b)).
Qed.

(** With the recursion limit at the number of nodes or more, the detector
    returns, every key is visited and every triangle that holds a key has a
    rotation among the cycles. *)
Lemma detect_ok (iter : string -> gset string -> list string) (limit : nat)
    (plugins : registry) :
  (forall n X, iter n X ≡ₚ elements X) ->
  (size (nodes plugins) <= limit)%nat ->
  exists st : dfs_state,
    detect_circular_dependencies iter (dependency_graph (build_dependency_graph plugins))
      limit plugins = Ok (cycles st) /\
    triangles_closed (dependency_graph (build_dependency_graph plugins)) st /\
    (forall k, k ∈ keys plugins -> k ∈ visited st).
Proof.
  intros Hiter Hsize.
  destruct (roots_ok iter (dependency_graph (build_dependency_graph plugins))
              (nodes plugins) Hiter (build_closed plugins) limit (keys plugins) Hsize
              (key_in_nodes plugins) (mk_state [] ∅ ∅ []))
    as (st & Hst & _ & Hc & _ & Hk).
  - unfold stack_wf. cbn. split; [set_solver|]. split; [|set_solver].
    intros x. rewrite elem_of_nil. set_solver.
  - intros x y z _ Hx. cbn in Hx. set_solver.
  - exists st. unfold detect_circular_dependencies. by rewrite Hst.
Qed.

Lemma dict_get_in (plugins : registry) (k : string) (m : manifest) :
  NoDup (keys plugins) -> In (k, m) plugins -> dict_get k plugins = Some m.
Proof.
  induction plugins as [|[k' m'] plugins IH]; intros Hnd Hin; [done|].
  cbn in Hnd. apply NoDup_cons in Hnd as [Hk' Hnd]. cbn.
  destruct Hin as [[= -> ->]|Hin].
  - by rewrite String.eqb_refl.
  - destruct (String.eqb_spec k k') as [->|_]; [|by apply IH].
    exfalso. apply Hk'. apply list_elem_of_In. apply (in_map fst _ _ Hin).
Qed.

Lemma dict_get_elem (plugins : registry) (k : string) (m : manifest) :
  dict_get k plugins = Some m -> In (k, m) plugins.
Proof.
  induction plugins as [|[k' m'] plugins IH]; [done|]. cbn.
  destruct (String.eqb_spec k k') as [->|_].
  - intros [= ->]. by left.
  - intros H. right. by apply IH.
Qed.

(** A registered manifest whose only declaration names [b] has [b] as its
    only neighbor. *)
Lemma succs_single (plugins : registry) (a b : string) (m : manifest)
    (v : option string) :
  NoDup (keys plugins) -> dict_get a plugins = Some m ->
  dependencies m = [mk_dependency (Some b) v] -> b <> "" ->
  succs (dependency_graph (build_dependency_graph plugins)) a = {[b]}.
Proof.
  intros Hnd Hm Hdeps Hb. apply set_eq. intros x. rewrite elem_of_singleton.
  change (x ∈ succs ?g a) with (has_edge g a x).
  rewrite (proj1 (build_edges plugins a x)). split.
  - intros (m' & d & Hin & Hd & Hx & _).
    apply (dict_get_in _ _ _ Hnd) in Hin. assert (m' = m) as -> by congruence.
    rewrite Hdeps in Hd. destruct Hd as [<-|[]]. cbn in Hx. congruence.
  - intros ->. exists m, (mk_dependency (Some b) v).
    split; [by apply dict_get_elem|]. rewrite Hdeps. split; [by left | done].
Qed.

(** C3 (as stated, refuted): [A] declares [B] and also [C], [B] declares
    [C] and [C] declares [A].  When the set of [A] is iterated with [C]
    first, the traversal goes from [A] to [C], finds [A] on the stack and
    records [A, C, A]; [B] is visited next, when [C] is no longer on the
    stack, and nothing else is recorded: no rotation of [A, B, C, A] is
    returned.  And where the interpreter allows two nested calls only, the
    plain triangle makes the detector fail. *)
Lemma triangle_missed_with_extra_dependency :
  neighbors (fun _ X => filter (fun x => x ∈ X) ["C"; "B"; "A"])
    (dependency_graph
       (build_dependency_graph
          [("A", mk_manifest (Some "A") None
                   [mk_dependency (Some "B") None; mk_dependency (Some "C") None]);
           ("B", mk_manifest (Some "B") None [mk_dependency (Some "C") None]);
           ("C", mk_manifest (Some "C") None [mk_dependency (Some "A") None])]))
    "A"
  = ["C"; "B"] /\
  detect_circular_dependencies (fun _ X => filter (fun x => x ∈ X) ["C"; "B"; "A"])
    (dependency_graph
       (build_dependency_graph
          [("A", mk_manifest (Some "A") None
                   [mk_dependency (Some "B") None; mk_dependency (Some "C") None]);
           ("B", mk_manifest (Some "B") None [mk_dependency (Some "C") None]);
           ("C", mk_manifest (Some "C") None [mk_dependency (Some "A") None])]))
    3
    [("A", mk_manifest (Some "A") None
             [mk_dependency (Some "B") None; mk_dependency (Some "C") None]);
     ("B", mk_manifest (Some "B") None [mk_dependency (Some "C") None]);
     ("C", mk_manifest (Some "C") None [mk_dependency (Some "A") None])]
  = Ok [["A"; "C"; "A"]] /\
  ~ rotation_of "A" "B" "C" ["A"; "C"; "A"] /\
  detect_circular_dependencies (fun _ X => filter (fun x => x ∈ X) ["C"; "B"; "A"])
    (dependency_graph
       (build_dependency_graph
          [("A", mk_manifest (Some "A") None [mk_dependency (Some "B") None]);
           ("B", mk_manifest (Some "B") None [mk_dependency (Some "C") None]);
           ("C", mk_manifest (Some "C") None [mk_dependency (Some "A") None])]))
    2
    [("A", mk_manifest (Some "A") None [mk_dependency (Some "B") None]);
     ("B", mk_manifest (Some "B") None [mk_dependency (Some "C") None]);
     ("C", mk_manifest (Some "C") None [mk_dependency (Some "A") None])]
  = Raise RecursionError.
Proof.
  split; [by vm_compute|]. split; [by vm_compute|]. split; [|by vm_compute].
  intros [H|[H|H]]; discriminate.
Qed.

(** C3 (amended): in a registry where [A], [B] and [C] are three manifests
    that declare, each as its only dependency and without constraint, [B],
    [C] and [A], the detector returns, in any order of iteration of the sets,
    for any other manifests and with a recursion limit of the number of nodes
    of the graph, a list of cycles with a rotation of [A, B, C, A]; and a
    neighbor found on the stack records the path from its first occurrence,
    with the neighbor again at the end.  When [A] declares [C] as well, the
    triangle is returned if the set of [A] is iterated with [B] first. *)
Theorem find_cycles_triangle :
  (forall (iter : string -> gset string -> list string) (limit : nat)
          (plugins : registry) (A B C : string) (mA mB mC : manifest),
      (forall n X, iter n X ≡ₚ elements X) ->
      (size (nodes plugins) <= limit)%nat ->
      NoDup (keys plugins) ->
      A <> B -> B <> C -> C <> A -> A <> "" -> B <> "" -> C <> "" ->
      dict_get A plugins = Some mA -> dependencies mA = [mk_dependency (Some B) None] ->
      dict_get B plugins = Some mB -> dependencies mB = [mk_dependency (Some C) None] ->
      dict_get C plugins = Some mC -> dependencies mC = [mk_dependency (Some A) None] ->
      exists found : list (list string),
        detect_circular_dependencies iter
          (dependency_graph (build_dependency_graph plugins)) limit plugins = Ok found /\
        exists c, c ∈ found /\ rotation_of A B C c) /\
  (forall (f : string -> dfs_state -> result dfs_state) (st : dfs_state)
          (nb : string) (p q : list string),
      nb ∈ visited st -> nb ∈ rec_stack st ->
      path st = p ++ nb :: q -> nb ∉ p ->
      visit f st nb
      = Ok (mk_state (cycles st ++ [nb :: q ++ [nb]])
                     (visited st) (rec_stack st) (path st))) /\
  detect_circular_dependencies (fun _ X => filter (fun x => x ∈ X) ["A"; "B"; "C"])
    (dependency_graph
       (build_dependency_graph
          [("A", mk_manifest (Some "A") None
                   [mk_dependency (Some "B") None; mk_dependency (Some "C") None]);
           ("B", mk_manifest (Some "B") None [mk_dependency (Some "C") None]);
           ("C", mk_manifest (Some "C") None [mk_dependency (Some "A") None])]))
    3
    [("A", mk_manifest (Some "A") None
             [mk_dependency (Some "B") None; mk_dependency (Some "C") None]);
     ("B", mk_manifest (Some "B") None [mk_dependency (Some "C") None]);
     ("C", mk_manifest (Some "C") None [mk_dependency (Some "A") None])]
  = Ok [["A"; "B"; "C"; "A"]].
Proof.
  split; [|split; [exact visit_on_stack | by vm_compute]].
  intros iter limit plugins A B C mA mB mC Hiter Hsize Hnd HAB HBC HCA HA HB HC
         HmA HdA HmB HdB HmC HdC.
  destruct (detect_ok iter limit plugins Hiter Hsize) as (st & Hst & Hc & Hk).
  exists (cycles st). split; [done|].
  assert (T : triangle (dependency_graph (build_dependency_graph plugins)) A B C).
  { unfold triangle. do 3 (split; [done|]).
    split; [|split]; by eapply succs_single. }
  assert (HAk : A ∈ keys plugins).
  { apply list_elem_of_In. apply dict_get_elem in HmA. apply (in_map fst _ _ HmA). }
  by destruct (Hc A B C T (Hk A HAk)) as [_ ?].
Qed.

Lemma find_cycles_triangle_witness :
  exists found : list (list string),
    detect_circular_dependencies (fun _ X => elements X)
      (dependency_graph
         (build_dependency_graph
            [("A", mk_manifest (Some "A") (Some "1.0.0") [mk_dependency (Some "B") None]);
             ("B", mk_manifest (Some "B") (Some "1.0.0") [mk_dependency (Some "C") None]);
             ("C", mk_manifest (Some "C") (Some "1.0.0") [mk_dependency (Some "A") None])]))
      3
      [("A", mk_manifest (Some "A") (Some "1.0.0") [mk_dependency (Some "B") None]);
       ("B", mk_manifest (Some "B") (Some "1.0.0") [mk_dependency (Some "C") None]);
       ("C", mk_manifest (Some "C") (Some "1.0.0") [mk_dependency (Some "A") None])]
    = Ok found /\
    exists c, c ∈ found /\ rotation_of "A" "B" "C" c.
Proof.
  apply (proj1 find_cycles_triangle (fun _ X => elements X) 3%nat
           [("A", mk_manifest (Some "A") (Some "1.0.0") [mk_dependency (Some "B") None]);
            ("B", mk_manifest (Some "B") (Some "1.0.0") [mk_dependency (Some "C") None]);
            ("C", mk_manifest (Some "C") (Some "1.0.0") [mk_dependency (Some "A") None])]
           "A" "B" "C"
           (mk_manifest (Some "A") (Some "1.0.0") [mk_dependency (Some "B") None])
           (mk_manifest (Some "B") (Some "1.0.0") [mk_dependency (Some "C") None])
           (mk_manifest (Some "C") (Some "1.0.0") [mk_dependency (Some "A") None]));
    try done.
  apply (bool_decide_unpack _). by vm_compute.
Defined.

(** ** The whole run *)

Lemma validate_dependencies_ok (plugins : registry) (m : manifest) :
  exists r, validate_dependencies plugins m = Ok r.
Proof. unfold validate_dependencies. rewrite for_each_validate. cbn. by eexists. Qed.

Lemma validate_all_ok (plugins items : registry) (errors : list string) :
  exists errors',
    for_each items
      (fun errors item =>
         r ← validate_dependencies plugins (snd item);
         if negb (fst r) then
           Ok (errors ++ map (fun e => "[" +:+ fst item +:+ "] " +:+ e) (snd r))
         else Ok errors)
      errors
    = Ok errors'.
Proof.
  revert errors. induction items as [|item items IH]; intros errors; cbn [for_each].
  - by eexists.
  - destruct (validate_dependencies_ok plugins (snd item)) as [r ->].
    cbn [mbind result_bind]. destruct (negb (fst r)); cbn [mbind result_bind]; apply IH.
Qed.

Lemma resolve_all_ok (iter : string -> gset string -> list string) (limit : nat)
    (plugins : registry) :
  (forall n X, iter n X ≡ₚ elements X) ->
  (size (nodes plugins) <= limit)%nat ->
  exists r, resolve_all_dependencies iter limit plugins (build_dependency_graph plugins) = Ok r.
Proof.
  intros Hiter Hsize. unfold resolve_all_dependencies.
  destruct (detect_ok iter limit plugins Hiter Hsize) as (st & -> & _).
  cbn [mbind result_bind].
  destruct (validate_all_ok plugins plugins
              (map (fun cycle => "Circular dependency detected: " +:+ join " -> " cycle)
                   (cycles st))) as [errors ->].
  cbn [mbind result_bind]. by eexists.
Qed.

(** *** The resolver on loaded manifests that are of the schema *)

Lemma typed_list_cons {A B : Type} (f : A -> option B) (x : A) (l : list A) (l' : list B) :
  typed_list f (x :: l) = Some l' ->
  exists y l'', f x = Some y /\ typed_list f l = Some l'' /\ l' = y :: l''.
Proof.
  cbn. destruct (f x) as [y|]; [|done]. destruct (typed_list f l) as [l''|]; [|done].
  intros [= <-]. by eauto.
Qed.

Lemma typed_entry_inv (entry : string * Yaml.manifest) (entry' : string * manifest) :
  typed_entry entry = Some entry' ->
  fst entry' = fst entry /\ typed_manifest (snd entry) = Some (snd entry').
Proof.
  unfold typed_entry. destruct (typed_manifest (snd entry)) as [m'|]; [|done].
  by intros [= <-].
Qed.

Lemma typed_get (R : Yaml.registry) (P : registry) (k : string) :
  typed_registry R = Some P ->
  match Yaml.dict_get k R with
  | Some m => exists m', typed_manifest m = Some m' /\ dict_get k P = Some m'
  | None => dict_get k P = None
  end.
Proof.
  unfold typed_registry. revert P. induction R as [|[k' m] R IH]; intros P H.
  - by injection H as <-.
  - apply typed_list_cons in H as ([k'' m'] & P' & Hx & HR & ->).
    apply typed_entry_inv in Hx as [Hk Hm]. cbn in Hk, Hm. subst k''.
    cbn. destruct (String.eqb k k'); [by eauto|]. by apply IH.
Qed.

Lemma typed_keys (R : Yaml.registry) (P : registry) :
  typed_registry R = Some P -> Yaml.keys R = keys P.
Proof.
  unfold typed_registry. revert P. induction R as [|entry R IH]; intros P H.
  - by injection H as <-.
  - apply typed_list_cons in H as (entry' & P' & Hx & HR & ->).
    apply typed_entry_inv in Hx as [Hk _]. unfold Yaml.keys, keys in *.
    cbn [map]. by rewrite Hk, (IH P' HR).
Qed.

Lemma typed_mem (R : Yaml.registry) (P : registry) (k : string) :
  typed_registry R = Some P -> Yaml.dict_mem k R = dict_mem k P.
Proof.
  intros H. pose proof (typed_get R P k H) as Hk. unfold Yaml.dict_mem, dict_mem.
  destruct (Yaml.dict_get k R); [by destruct Hk as (m' & _ & ->) | by rewrite Hk].
Qed.

Lemma typed_item_inv (dep : Yaml.item) (d : dependency) :
  typed_item dep = Some d ->
  exists n v, dep = Yaml.Declaration n v /\
              typed_constraint v = Some (dep_version d) /\ dep_name d = n.
Proof.
  destruct dep as [n v|]; [|done]. cbn.
  destruct (typed_constraint v) as [c|] eqn:Hc; [|done]. intros [= <-].
  exists n, v. by cbn.
Qed.

Lemma yaml_add_dependencies (name : string) (l : list Yaml.item) :
  forall (deps : list dependency) (gr : graphs),
    typed_list typed_item l = Some deps ->
    Yaml.for_each l (Yaml.add_dependency name) gr
    = Yaml.Done (fold_left (add_dependency name) deps gr).
Proof.
  induction l as [|dep l IH]; intros deps gr H.
  - by injection H as <-.
  - apply typed_list_cons in H as (d & deps' & Hd & Hl & ->).
    apply typed_item_inv in Hd as (n & v & -> & _ & Hn).
    cbn [Yaml.for_each fold_left].
    assert (Yaml.add_dependency name gr (Yaml.Declaration n v)
            = Yaml.Done (add_dependency name gr d)) as ->.
    { unfold add_dependency. rewrite Hn. by destruct n as [[|c r]|]. }
    cbn. by apply IH.
Qed.

Lemma yaml_build_from (R : Yaml.registry) :
  forall (P : registry) (gr : graphs),
    typed_registry R = Some P ->
    Yaml.for_each R Yaml.add_manifest gr = Yaml.Done (fold_left add_manifest P gr).
Proof.
  unfold typed_registry. induction R as [|[k m] R IH]; intros P gr H.
  - by injection H as <-.
  - apply typed_list_cons in H as ([k' m'] & P' & Hx & HR & ->).
    apply typed_entry_inv in Hx as [Hk Hm]. cbn in Hk, Hm. subst k'.
    cbn [Yaml.for_each fold_left].
    assert (Yaml.add_manifest gr (k, m) = Yaml.Done (add_manifest gr (k, m'))) as ->.
    { unfold typed_manifest in Hm. destruct (typed_version _); [|done].
      destruct (typed_items (Yaml.dependencies m)) as [deps|] eqn:Hdeps; [|done].
      injection Hm as <-. unfold Yaml.add_manifest, add_manifest. cbn.
      destruct (Yaml.dependencies m) as [|l|]; cbn in Hdeps.
      - by injection Hdeps as <-.
      - by apply yaml_add_dependencies.
      - done. }
    cbn. by apply IH.
Qed.

Lemma yaml_check_version (R : Yaml.registry) (P : registry) (errors : list string)
    (n c : string) :
  typed_registry R = Some P ->
  Yaml.check_version R errors n c = Yaml.lift (check_version P errors n c).
Proof.
  intros H. unfold Yaml.check_version, check_version.
  destruct (__init__ c) as [vc|e]; cbn; [|done].
  pose proof (typed_get R P n H) as Hn.
  destruct (Yaml.dict_get n R) as [m|]; [|by rewrite Hn].
  destruct Hn as (m' & Hm & ->). cbn.
  unfold typed_manifest in Hm.
  destruct (typed_version (Yaml.version m)) as [v|] eqn:Hv; [|done].
  destruct (typed_items _); [|done]. injection Hm as <-. cbn.
  destruct (Yaml.version m) as [|ver|b]; cbn in Hv; [| |done]; injection Hv as <-; cbn;
    destruct (satisfies vc _) as [[|]|e]; by cbn.
Qed.

Lemma yaml_validate_dep (R : Yaml.registry) (P : registry) (errors : list string)
    (dep : Yaml.item) (d : dependency) :
  typed_registry R = Some P -> typed_item dep = Some d ->
  Yaml.validate_dep R errors dep = Yaml.lift (validate_dep P errors d).
Proof.
  intros H Hd. apply typed_item_inv in Hd as (n & v & -> & Hv & Hn).
  unfold Yaml.validate_dep, validate_dep. rewrite Hn.
  destruct n as [[|c r]|]; [done | | done].
  rewrite (typed_mem R P _ H). destruct (dict_mem (String c r) P); cbn [negb]; [|done].
  destruct v as [|[|c' r']|[|]]; cbn in Hv; try done;
    injection Hv as <-; try done.
  rewrite (yaml_check_version R P errors _ _ H).
  by destruct (check_version P errors _ _) as [errors'|[]].
Qed.

Lemma yaml_validate_deps (R : Yaml.registry) (P : registry) (l : list Yaml.item) :
  forall (deps : list dependency) (errors : list string),
    typed_registry R = Some P -> typed_list typed_item l = Some deps ->
    Yaml.for_each l (Yaml.validate_dep R) errors
    = Yaml.lift (for_each deps (validate_dep P) errors).
Proof.
  induction l as [|dep l IH]; intros deps errors H Hl.
  - by injection Hl as <-.
  - apply typed_list_cons in Hl as (d & deps' & Hd & Hl & ->).
    cbn [Yaml.for_each for_each]. rewrite (yaml_validate_dep R P errors dep d H Hd).
    destruct (validate_dep P errors d) as [errors'|e]; cbn; [|done]. by apply IH.
Qed.

Lemma yaml_validate (R : Yaml.registry) (P : registry) (m : Yaml.manifest) (m' : manifest) :
  typed_registry R = Some P -> typed_manifest m = Some m' ->
  Yaml.validate_dependencies R m = Yaml.lift (validate_dependencies P m').
Proof.
  intros H Hm. unfold typed_manifest in Hm. destruct (typed_version _); [|done].
  destruct (typed_items (Yaml.dependencies m)) as [deps|] eqn:Hdeps; [|done].
  injection Hm as <-. unfold Yaml.validate_dependencies, validate_dependencies. cbn.
  assert (match Yaml.dependencies m with
          | Yaml.NoKey => Yaml.Done []
          | Yaml.Sequence l => Yaml.for_each l (Yaml.validate_dep R) []
          | Yaml.NotIterable => Yaml.Abort Yaml.TypeError
          end = Yaml.lift (for_each deps (validate_dep P) [])) as ->.
  { destruct (Yaml.dependencies m) as [|l|]; cbn in Hdeps.
    - by injection Hdeps as <-.
    - by apply yaml_validate_deps.
    - done. }
  by destruct (for_each deps (validate_dep P) []).
Qed.

Lemma yaml_validate_all (R : Yaml.registry) (P : registry) (entries : Yaml.registry) :
  forall (entries' : registry) (errors : list string),
    typed_registry R = Some P -> typed_registry entries = Some entries' ->
    Yaml.for_each entries
      (fun errors entry =>
         r ← Yaml.validate_dependencies R (snd entry);
         if negb (fst r) then
           Yaml.Done (errors ++ map (fun e => "[" +:+ fst entry +:+ "] " +:+ e) (snd r))
         else Yaml.Done errors)
      errors
    = Yaml.lift
        (for_each entries'
           (fun errors item =>
              r ← validate_dependencies P (snd item);
              if negb (fst r) then
                Ok (errors ++ map (fun e => "[" +:+ fst item +:+ "] " +:+ e) (snd r))
              else Ok errors)
           errors).
Proof.
  unfold typed_registry at 2.
  induction entries as [|entry entries IH]; intros entries' errors H He.
  - by injection He as <-.
  - apply typed_list_cons in He as (entry' & rest & Hx & He & ->).
    apply typed_entry_inv in Hx as [Hk Hm].
    cbn [Yaml.for_each for_each]. rewrite (yaml_validate R P _ _ H Hm), Hk.
    destruct (validate_dependencies P (snd entry')) as [[ok errs]|e]; cbn; [|done].
    destruct ok; cbn; by apply IH.
Qed.

Lemma yaml_resolve (iter : string -> gset string -> list string) (limit : nat)
    (R : Yaml.registry) (P : registry) (gr : graphs) :
  typed_registry R = Some P ->
  Yaml.resolve_all_dependencies iter limit R gr
  = Yaml.lift (resolve_all_dependencies iter limit P gr).
Proof.
  intros H. unfold Yaml.resolve_all_dependencies, resolve_all_dependencies.
  unfold Yaml.detect_circular_dependencies, detect_circular_dependencies.
  rewrite (typed_keys R P H).
  destruct (for_each (keys P) _ _) as [st|e]; cbn; [|done].
  rewrite (yaml_validate_all R P R P _ H H).
  by destruct (for_each P _ _).
Qed.

Lemma yaml_build (R : Yaml.registry) (P : registry) :
  typed_registry R = Some P ->
  Yaml.build_dependency_graph R = Yaml.Done (build_dependency_graph P).
Proof. apply yaml_build_from. Qed.

(** *** A chain of dependencies longer than the recursion limit *)

Lemma str_of_nat_inj (a b : nat) : Py.str_of_nat a = Py.str_of_nat b -> a = b.
Proof.
  unfold Py.str_of_nat. intros H. apply DecimalNat.Unsigned.to_uint_inj.
  apply (f_equal NilEmpty.uint_of_string) in H. rewrite !NilEmpty.usu in H.
  by injection H.
Qed.

Lemma plugin_name_inj (a b : nat) : plugin_name a = plugin_name b -> a = b.
Proof.
  change (plugin_name a) with (String "p" (Py.str_of_nat a)).
  change (plugin_name b) with (String "p" (Py.str_of_nat b)).
  intros [= H]. by apply str_of_nat_inj.
Qed.

(** A walk of distinct unvisited nodes, each with the next as its only
    neighbor, that is longer than the calls allowed. *)
Lemma dfs_chain_overflows (iter : string -> gset string -> list string)
    (graph : gmap string (gset string)) (x : nat -> string) (limit : nat) :
  (forall a b, x a = x b -> a = b) ->
  forall (a : nat) (st : dfs_state),
    (forall i, (a <= i < a + limit)%nat -> neighbors iter graph (x i) = [x (S i)]) ->
    (forall j, (a <= j)%nat -> x j ∉ visited st) ->
    dfs iter graph limit (x a) st = Raise RecursionError.
Proof.
  intros Hinj. induction limit as [|limit IH]; intros a st Hnb Hnew; [done|].
  cbn [dfs]. rewrite (Hnb a) by lia. cbn [for_each].
  rewrite visit_unvisited.
  - rewrite (IH (S a)); [done | |].
    + intros i Hi. apply Hnb. lia.
    + intros j Hj. cbn. intros [Hx|Hx]%elem_of_union.
      * apply elem_of_singleton, Hinj in Hx. lia.
      * apply (Hnew j); [lia | done].
  - cbn. intros [Hx|Hx]%elem_of_union.
    + apply elem_of_singleton, Hinj in Hx. lia.
    + apply (Hnew (S a)); [lia | done].
Qed.

Lemma yaml_dict_set_fresh (k : string) (v : Yaml.manifest) (d : Yaml.registry) :
  k ∉ Yaml.keys d -> Yaml.dict_set k v d = d ++ [(k, v)].
Proof.
  induction d as [|[k' v'] d IH]; [done|]. cbn. intros Hk.
  destruct (String.eqb k k') eqn:He.
  - apply String.eqb_eq in He as ->. exfalso. apply Hk. by left.
  - rewrite IH; [done|]. intros Hin. apply Hk. by right.
Qed.

Lemma load_step_chain (acc : Yaml.registry) (warnings : list string) (i : nat) :
  Yaml.load_step (acc, warnings) (chain_file i)
  = (Yaml.dict_set (plugin_name i) (chain_manifest i) acc, warnings).
Proof.
  unfold Yaml.load_step. cbn [Yaml.file_load chain_file].
  change (Yaml.name (chain_manifest i)) with (Some (String "p" (Py.str_of_nat i))).
  reflexivity.
Qed.

Lemma load_chain_from (k : nat) :
  forall (a : nat) (acc : Yaml.registry),
    (forall key, key ∈ Yaml.keys acc -> exists j, (j < a)%nat /\ key = plugin_name j) ->
    fold_left Yaml.load_step (map chain_file (seq a k)) (acc, [])
    = (acc ++ map (fun i => (plugin_name i, chain_manifest i)) (seq a k), []).
Proof.
  induction k as [|k IH]; intros a acc Hacc; cbn [seq map fold_left].
  - by rewrite app_nil_r.
  - rewrite load_step_chain, yaml_dict_set_fresh.
    + rewrite IH; [by rewrite <- app_assoc|].
      intros key. unfold Yaml.keys. rewrite map_app, elem_of_app.
      intros [Hk|Hk].
      * destruct (Hacc key Hk) as (j & Hj & ->). exists j. split; [lia | done].
      * cbn in Hk. apply list_elem_of_singleton in Hk as ->. exists a. split; [lia | done].
    + intros Hk. destruct (Hacc _ Hk) as (j & Hj & He). apply plugin_name_inj in He. lia.
Qed.

Lemma load_chain (n : nat) : Yaml.load_plugins (Some (chain n)) = (loaded_chain n, []).
Proof.
  apply (load_chain_from n 0 []). intros key Hk. by apply elem_of_nil in Hk.
Qed.

Lemma typed_loaded_chain (n : nat) : typed_registry (loaded_chain n) = Some (typed_chain n).
Proof.
  unfold typed_registry, loaded_chain, typed_chain.
  induction (seq 0 n) as [|i l IH]; [done|]. cbn [map typed_list]. by rewrite IH.
Qed.

Lemma typed_chain_keys (n : nat) : keys (typed_chain n) = map plugin_name (seq 0 n).
Proof. unfold keys, typed_chain. by rewrite map_map. Qed.

Lemma typed_chain_NoDup (n : nat) : NoDup (keys (typed_chain n)).
Proof.
  rewrite typed_chain_keys.
  apply (NoDup_fmap_2 (Inj0 := fun a b => plugin_name_inj a b) plugin_name).
  apply NoDup_ListNoDup, seq_NoDup.
Qed.

Lemma typed_chain_neighbors (iter : string -> gset string -> list string) (n i : nat) :
  (forall k X, iter k X ≡ₚ elements X) -> (i < n)%nat ->
  neighbors iter (dependency_graph (build_dependency_graph (typed_chain n))) (plugin_name i)
  = [plugin_name (S i)].
Proof.
  intros Hiter Hi. apply (neighbors_single iter _ Hiter).
  apply (succs_single (typed_chain n) _ _
           (mk_manifest (Some (plugin_name i)) (Some "1.0.0")
              [mk_dependency (Some (plugin_name (S i))) None]) None).
  - apply typed_chain_NoDup.
  - apply dict_get_in; [apply typed_chain_NoDup|].
    unfold typed_chain.
    apply (in_map (fun i => (plugin_name i,
                             mk_manifest (Some (plugin_name i)) (Some "1.0.0")
                               [mk_dependency (Some (plugin_name (S i))) None]))).
    apply in_seq. lia.
  - done.
  - by change (plugin_name (S i)) with (String "p" (Py.str_of_nat (S i))).
Qed.

(** Whatever the number of nested calls the interpreter allows, a chain of
    that many manifests makes the run end with [RecursionError]. *)
Lemma chain_overflows (iter : string -> gset string -> list string) (n : nat) :
  (forall k X, iter k X ≡ₚ elements X) -> (0 < n)%nat ->
  Yaml.main iter n (Some (chain n)) = Yaml.Abort (Yaml.Exn RecursionError).
Proof.
  intros Hiter Hn. unfold Yaml.main. rewrite load_chain.
  rewrite (yaml_build _ _ (typed_loaded_chain n)). cbn [mbind Yaml.outcome_bind].
  rewrite (yaml_resolve iter n _ _ _ (typed_loaded_chain n)).
  assert (detect_circular_dependencies iter
            (dependency_graph (build_dependency_graph (typed_chain n))) n (typed_chain n)
          = Raise RecursionError) as Hdetect.
  { unfold detect_circular_dependencies. rewrite typed_chain_keys.
    destruct n as [|n]; [lia|]. cbn [seq map for_each].
    assert (visit_root iter
              (dependency_graph (build_dependency_graph (typed_chain (S n)))) (S n)
              (mk_state [] ∅ ∅ []) (plugin_name 0)
            = Raise RecursionError) as ->; [|done].
    unfold visit_root. rewrite decide_True by (cbn; set_solver).
    apply (dfs_chain_overflows iter _ plugin_name (S n) plugin_name_inj 0).
    - intros i Hi. apply typed_chain_neighbors; [done | lia].
    - intros j _. cbn. set_solver. }
  unfold resolve_all_dependencies. by rewrite Hdetect.
Qed.

(** C5 (as stated, refuted): without the directory nothing is reported: the
    registry is empty, no line is written, and the run ends with status 0, as
    it does for a directory that is empty.  And problems in the data do
    raise: a registered version that the loader reads as a number, once a
    constraint is checked against it; a [dependencies] field that is null; a
    dependency written as a plain string; a constraint that is a number; and
    a chain of dependencies longer than the nesting of calls the interpreter
    allows: two manifests where one call is left, and a thousand manifests
    under the limit of 1000 the interpreter starts with. *)
Lemma missing_directory_silent_and_data_raises :
  (Yaml.load_plugins None = ([], []) /\
   Yaml.main (fun _ X => elements X) 1000 None = Yaml.Done (0, []) /\
   Yaml.main (fun _ X => elements X) 1000 (Some []) = Yaml.Done (0, [])) /\
  Yaml.main (fun _ X => elements X) 1000
    (Some [Yaml.mk_file "a.potion"
             (Yaml.Document
                (Yaml.mk_manifest (Some "a") (Yaml.Str "1.0.0")
                   (Yaml.Sequence [Yaml.Declaration (Some "b") (Yaml.Str ">=1.0.0")])));
           Yaml.mk_file "b.potion"
             (Yaml.Document (Yaml.mk_manifest (Some "b") (Yaml.Other true) Yaml.NoKey))])
  = Yaml.Abort Yaml.TypeError /\
  Yaml.main (fun _ X => elements X) 1000
    (Some [Yaml.mk_file "a.potion"
             (Yaml.Document
                (Yaml.mk_manifest (Some "a") (Yaml.Str "1.0.0") Yaml.NotIterable))])
  = Yaml.Abort Yaml.TypeError /\
  Yaml.main (fun _ X => elements X) 1000
    (Some [Yaml.mk_file "a.potion"
             (Yaml.Document
                (Yaml.mk_manifest (Some "a") (Yaml.Str "1.0.0")
                   (Yaml.Sequence [Yaml.NotMapping])))])
  = Yaml.Abort Yaml.AttributeError /\
  Yaml.main (fun _ X => elements X) 1000
    (Some [Yaml.mk_file "a.potion"
             (Yaml.Document
                (Yaml.mk_manifest (Some "a") (Yaml.Str "1.0.0")
                   (Yaml.Sequence [Yaml.Declaration (Some "b") (Yaml.Other true)])));
           Yaml.mk_file "b.potion"
             (Yaml.Document (Yaml.mk_manifest (Some "b") (Yaml.Str "1.0.0") Yaml.NoKey))])
  = Yaml.Abort Yaml.TypeError /\
  Yaml.main (fun _ X => elements X) 1
    (Some [Yaml.mk_file "a.potion"
             (Yaml.Document
                (Yaml.mk_manifest (Some "a") (Yaml.Str "1.0.0")
                   (Yaml.Sequence [Yaml.Declaration (Some "b") Yaml.Missing])))])
  = Yaml.Abort (Yaml.Exn RecursionError) /\
  Yaml.main (fun _ X => elements X) 1000 (Some (chain 1000))
  = Yaml.Abort (Yaml.Exn RecursionError).
Proof.
  split; [by vm_compute|]. do 5 (split; [by vm_compute|]).
  apply (chain_overflows (fun _ X => elements X) 1000); [done | lia].
Qed.

(** C5 (amended): a directory that does not exist gives an empty registry
    without error or warning, and the run ends with status 0 as for an empty
    directory; a file that cannot be loaded only adds a warning; and when the
    manifests of the registry are of the input schema (every version a
    string, every [dependencies] a list of mappings, every constraint a
    string), no problem in the data raises: the validator returns its pair,
    and so do the resolution of the whole registry and the run, when the
    recursion limit is at least the number of nodes of the graph.  On such
    manifests the validator and the resolution are those of the schema. *)
Theorem missing_directory_and_data_quality :
  (forall (iter : string -> gset string -> list string) (limit : nat),
      Yaml.load_plugins None = ([], []) /\
      Yaml.main iter limit None = Yaml.Done (0, []) /\
      Yaml.main iter limit None = Yaml.main iter limit (Some [])) /\
  (forall (plugins : Yaml.registry) (warnings : list string) (p e : string),
      Yaml.load_step (plugins, warnings) (Yaml.mk_file p (Yaml.Unloadable e))
      = (plugins, warnings ++ ["Warning: Failed to load " +:+ p +:+ ": " +:+ e])) /\
  (forall (plugins : Yaml.registry) (typed : registry)
          (m : Yaml.manifest) (m' : manifest),
      typed_registry plugins = Some typed -> typed_manifest m = Some m' ->
      Yaml.validate_dependencies plugins m = Yaml.lift (validate_dependencies typed m') /\
      exists (ok : bool) (errors : list string),
        Yaml.validate_dependencies plugins m = Yaml.Done (ok, errors)) /\
  (forall (iter : string -> gset string -> list string) (limit : nat)
          (plugins : Yaml.registry) (typed : registry),
      (forall n X, iter n X ≡ₚ elements X) ->
      typed_registry plugins = Some typed ->
      (size (nodes typed) <= limit)%nat ->
      Yaml.build_dependency_graph plugins = Yaml.Done (build_dependency_graph typed) /\
      Yaml.resolve_all_dependencies iter limit plugins (build_dependency_graph typed)
      = Yaml.lift (resolve_all_dependencies iter limit typed (build_dependency_graph typed)) /\
      exists (ok : bool) (errors : list string),
        Yaml.resolve_all_dependencies iter limit plugins (build_dependency_graph typed)
        = Yaml.Done (ok, errors)) /\
  (forall (iter : string -> gset string -> list string) (limit : nat)
          (plugins_dir : option (list Yaml.manifest_file)) (typed : registry),
      (forall n X, iter n X ≡ₚ elements X) ->
      typed_registry (fst (Yaml.load_plugins plugins_dir)) = Some typed ->
      (size (nodes typed) <= limit)%nat ->
      exists (status : Z) (lines : list string),
        Yaml.main iter limit plugins_dir = Yaml.Done (status, lines)).
Proof.
  split; [by intros iter limit|]. split; [done|]. split; [|split].
  - intros plugins typed m m' H Hm. rewrite (yaml_validate plugins typed m m' H Hm).
    split; [done|]. destruct (validate_dependencies_ok typed m') as [[ok errors] ->].
    by eauto.
  - intros iter limit plugins typed Hiter H Hsize.
    split; [by apply yaml_build|]. rewrite (yaml_resolve iter limit plugins typed _ H).
    split; [done|].
    destruct (resolve_all_ok iter limit typed Hiter Hsize) as [[ok errors] ->]. by eauto.
  - intros iter limit plugins_dir typed Hiter H Hsize. unfold Yaml.main.
    destruct (Yaml.load_plugins plugins_dir) as [plugins warnings]. cbn [fst] in H.
    rewrite (yaml_build plugins typed H). cbn [mbind Yaml.outcome_bind].
    rewrite (yaml_resolve iter limit plugins typed _ H).
    destruct (resolve_all_ok iter limit typed Hiter Hsize) as [r ->].
    cbn. destruct (negb (fst r)); by eauto.
Qed.

Lemma missing_directory_and_data_quality_witness :
  exists (status : Z) (lines : list string),
    Yaml.main (fun _ X => elements X) 2
      (Some [Yaml.mk_file "a.potion" (Yaml.Unloadable "mapping values are not allowed here");
             Yaml.mk_file "b.potion"
               (Yaml.Document
                  (Yaml.mk_manifest (Some "b") Yaml.Missing
                     (Yaml.Sequence [Yaml.Declaration (Some "c") (Yaml.Str "1.0");
                                     Yaml.Declaration None Yaml.Missing])))])
    = Yaml.Done (status, lines).
Proof.
  apply (proj2 (proj2 (proj2 (proj2 missing_directory_and_data_quality)))
           (fun _ X => elements X) 2%nat
           (Some [Yaml.mk_file "a.potion"
                    (Yaml.Unloadable "mapping values are not allowed here");
                  Yaml.mk_file "b.potion"
                    (Yaml.Document
                       (Yaml.mk_manifest (Some "b") Yaml.Missing
                          (Yaml.Sequence [Yaml.Declaration (Some "c") (Yaml.Str "1.0");
                                          Yaml.Declaration None Yaml.Missing])))])
           [("b", mk_manifest (Some "b") None
                    [mk_dependency (Some "c") (Some "1.0"); mk_dependency None None])]);
    [done | reflexivity | by vm_compute].
Defined.

(** * Further properties of the resolver *)

(** ** The matcher *)

Lemma tuple_lt_irrefl (a : Z * Z * Z) : Py.tuple_lt a a = false.
Proof. apply tuple_lt_false. by right. Qed.

Lemma triple_lt_asym (a b : Z * Z * Z) : triple_lt a b -> triple_lt b a -> False.
Proof.
  destruct a as [[a0 a1] a2], b as [[b0 b1] b2]. unfold triple_lt. lia.
Qed.

Lemma triple_le_antisym (a b : Z * Z * Z) : triple_le a b -> triple_le b a -> a = b.
Proof.
  intros [H1|H1] [H2|H2]; try done. by destruct (triple_lt_asym a b).
Qed.

Local Ltac order_facts :=
  repeat match goal with
    | H : Py.tuple_lt _ _ = true |- _ => apply tuple_lt_spec in H
    | H : Py.tuple_lt _ _ = false |- _ => apply tuple_lt_false in H
    end.

(** [_compare_versions] is a three-way comparison for the lexicographic
    order: its value is -1, 0 or 1, it is 0 exactly on equal triples, -1
    exactly when the first is smaller, 1 exactly when it is larger, and
    swapping the arguments negates it. *)
Theorem compare_versions_three_way (a b : Z * Z * Z) :
  (_compare_versions a b = -1 \/ _compare_versions a b = 0 \/ _compare_versions a b = 1) /\
  (_compare_versions a b = 0 <-> a = b) /\
  (_compare_versions a b = -1 <-> triple_lt a b) /\
  (_compare_versions a b = 1 <-> triple_lt b a) /\
  _compare_versions b a = - _compare_versions a b.
Proof.
  unfold _compare_versions.
  destruct (Py.tuple_lt a b) eqn:Hab; destruct (Py.tuple_lt b a) eqn:Hba;
    order_facts.
  - by destruct (triple_lt_asym a b).
  - split; [by left|]. repeat split; try done.
    + intros ->. by destruct (triple_lt_asym b b).
    + intros H. by destruct (triple_lt_asym a b).
  - split; [by right; right|]. repeat split; try done.
    + intros ->. by destruct (triple_lt_asym b b).
    + intros H. by destruct (triple_lt_asym a b).
  - pose proof (triple_le_antisym a b Hba Hab) as ->.
    split; [by right; left|]. repeat split; try done;
      intros H; by destruct (triple_lt_asym b b).
Qed.

Lemma compare_le (a b : Z * Z * Z) :
  (_compare_versions a b <=? 0) = negb (Py.tuple_lt b a).
Proof.
  unfold _compare_versions.
  destruct (Py.tuple_lt a b) eqn:Hab; destruct (Py.tuple_lt b a) eqn:Hba; try done.
  order_facts. by destruct (triple_lt_asym a b).
Qed.

Lemma compare_gt (a b : Z * Z * Z) :
  (_compare_versions a b >? 0) = Py.tuple_lt b a.
Proof.
  unfold _compare_versions.
  destruct (Py.tuple_lt a b) eqn:Hab; destruct (Py.tuple_lt b a) eqn:Hba; try done.
  order_facts. by destruct (triple_lt_asym a b).
Qed.

(** Under [>=], [<=], [>] and [<], with the reference parsed to [r] and the
    candidate to [t], the result is the comparison of [t] with [r] in the
    lexicographic order. *)
Theorem satisfies_relational (c v : string) (vc : VersionConstraint.t) (r t : Z * Z * Z) :
  __init__ c = Ok vc ->
  _parse_version (VersionConstraint.version vc) = Ok r ->
  _parse_version v = Ok t ->
  exists b : bool,
    Satisfies c v = Ok b /\
    (operator vc = ">=" -> (b = true <-> triple_le r t)) /\
    (operator vc = "<=" -> (b = true <-> triple_le t r)) /\
    (operator vc = ">" -> (b = true <-> triple_lt r t)) /\
    (operator vc = "<" -> (b = true <-> triple_lt t r)).
Proof.
  intros Hinit Hr Ht.
  rewrite (Satisfies_init c v vc Hinit), (satisfies_parsed vc v r t Hr Ht).
  eexists. split; [reflexivity|]. unfold decide_parsed.
  split; [|split; [|split]]; intros Hop; rewrite Hop;
    cbn [String.eqb Ascii.eqb Bool.eqb];
    rewrite ?compare_ge, ?compare_le, ?compare_gt, ?compare_lt, ?negb_true_iff,
      ?tuple_lt_false, ?tuple_lt_spec; done.
Qed.

Lemma satisfies_relational_witness :
  exists b : bool,
    Satisfies ">=2.0.0" "1.5.0" = Ok b /\
    (">=" = ">=" -> (b = true <-> triple_le (2, 0, 0) (1, 5, 0))) /\
    (">=" = "<=" -> (b = true <-> triple_le (1, 5, 0) (2, 0, 0))) /\
    (">=" = ">" -> (b = true <-> triple_lt (2, 0, 0) (1, 5, 0))) /\
    (">=" = "<" -> (b = true <-> triple_lt (1, 5, 0) (2, 0, 0))).
Proof.
  apply (satisfies_relational ">=2.0.0" "1.5.0" (VersionConstraint.mk ">=2.0.0" ">=" "2.0.0")
           (2, 0, 0) (1, 5, 0)); reflexivity.
Defined.

Lemma satisfies_true_parsed (vc : VersionConstraint.t) (v : string) (b : bool) :
  satisfies vc v = Ok b ->
  exists r t, _parse_version (VersionConstraint.version vc) = Ok r /\
              _parse_version v = Ok t /\
              b = decide_parsed (operator vc) (VersionConstraint.version vc) v r t.
Proof.
  intros H.
  destruct (_parse_version (VersionConstraint.version vc)) as [r|e] eqn:Hr;
    [|unfold satisfies in H; by rewrite Hr in H].
  destruct (_parse_version v) as [t|e] eqn:Ht;
    [|unfold satisfies in H; by rewrite Hr, Ht in H].
  rewrite (satisfies_parsed vc v r t Hr Ht) in H. injection H as <-. by eauto.
Qed.

Lemma triple_lt_minor_major (t r : Z * Z * Z) :
  triple_lt t (r.1.1, r.1.2 + 1, 0) -> triple_lt t (r.1.1 + 1, 0, 0).
Proof.
  destruct t as [[t0 t1] t2], r as [[r0 r1] r2]. unfold triple_lt. cbn. lia.
Qed.

(** For one reference version the operators nest: what [~>] accepts [^]
    accepts, and what [^] accepts [>=] accepts; and a candidate accepted by
    both [>=] and [<=] parses to the triple of the reference. *)
Theorem operators_nest (c1 c2 c3 c4 ver v : string) :
  (satisfies (VersionConstraint.mk c1 "~>" ver) v = Ok true ->
   satisfies (VersionConstraint.mk c2 "^" ver) v = Ok true) /\
  (satisfies (VersionConstraint.mk c2 "^" ver) v = Ok true ->
   satisfies (VersionConstraint.mk c3 ">=" ver) v = Ok true) /\
  (satisfies (VersionConstraint.mk c3 ">=" ver) v = Ok true ->
   satisfies (VersionConstraint.mk c4 "<=" ver) v = Ok true ->
   _parse_version v = _parse_version ver).
Proof.
  split; [|split].
  - intros H. destruct (satisfies_true_parsed _ _ _ H) as (r & t & Hr & Ht & Hb).
    rewrite (satisfies_parsed (VersionConstraint.mk c2 "^" ver) v r t Hr Ht). f_equal.
    unfold decide_parsed in *. cbn [operator String.eqb Ascii.eqb Bool.eqb] in *.
    symmetry in Hb. apply andb_true_iff in Hb as [H1 H2]. rewrite H1. cbn.
    rewrite compare_lt in *. order_facts. apply tuple_lt_spec.
    by apply triple_lt_minor_major.
  - intros H. destruct (satisfies_true_parsed _ _ _ H) as (r & t & Hr & Ht & Hb).
    rewrite (satisfies_parsed (VersionConstraint.mk c3 ">=" ver) v r t Hr Ht). f_equal.
    unfold decide_parsed in *. cbn [operator String.eqb Ascii.eqb Bool.eqb] in *.
    symmetry in Hb. by apply andb_true_iff in Hb as [H1 H2].
  - intros H H'. destruct (satisfies_true_parsed _ _ _ H) as (r & t & Hr & Ht & Hb).
    destruct (satisfies_true_parsed _ _ _ H') as (r' & t' & Hr' & Ht' & Hb').
    cbn [VersionConstraint.version] in *. rewrite Hr in Hr'. rewrite Ht in Ht'.
    injection Hr' as <-. injection Ht' as <-. rewrite Hr, Ht. f_equal.
    unfold decide_parsed in *. cbn [operator String.eqb Ascii.eqb Bool.eqb] in *.
    rewrite compare_ge in Hb. rewrite compare_le in Hb'.
    symmetry in Hb, Hb'. apply negb_true_iff in Hb, Hb'. order_facts.
    by apply triple_le_antisym.
Qed.

Lemma operators_nest_witness :
  satisfies (VersionConstraint.mk "^1.2.3" "^" "1.2.3") "1.2.9" = Ok true.
Proof.
  apply (proj1 (operators_nest "~>1.2.3" "^1.2.3" ">=1.2.3" "<=1.2.3" "1.2.3" "1.2.9")).
  reflexivity.
Defined.

(** Under every operator but [=], a pre-release or build suffix of the
    candidate, or of the reference, does not change the result: [1.0.0-beta]
    is accepted where [1.0.0] is.  Under [=] it does. *)
Theorem satisfies_ignores_suffix :
  (forall (vc : VersionConstraint.t) (v s : string) (ch : ascii),
      operator vc <> "=" ->
      sign_free v -> Py.is_sign ch = true -> no_lf s ->
      satisfies vc (v +:+ String ch s) = satisfies vc v) /\
  (forall (c c' op ver s v : string) (ch : ascii),
      op <> "=" ->
      sign_free ver -> Py.is_sign ch = true -> no_lf s ->
      satisfies (VersionConstraint.mk c op (ver +:+ String ch s)) v
      = satisfies (VersionConstraint.mk c' op ver) v) /\
  Satisfies ">=1.0.0" "1.0.0-beta" = Ok true /\
  Satisfies "<=1.0.0" "1.0.0-beta" = Ok true /\
  Satisfies "=1.0.0" "1.0.0-beta" = Ok false.
Proof.
  assert (Hp : forall v s ch, sign_free v -> Py.is_sign ch = true -> no_lf s ->
                 _parse_version (v +:+ String ch s) = _parse_version v).
  { intros v s ch Hv Hch Hs. unfold _parse_version.
    by rewrite (re_sub_strips v s ch Hv Hch Hs), (re_sub_sign_free v Hv). }
  split; [|split; [|by repeat split]].
  - intros vc v s ch Hop Hv Hch Hs. unfold satisfies. rewrite (Hp v s ch Hv Hch Hs).
    destruct (String.eqb_spec (operator vc) "=") as [|_]; done.
  - intros c c' op ver s v ch Hop Hv Hch Hs. unfold satisfies.
    cbn [VersionConstraint.version operator]. rewrite (Hp ver s ch Hv Hch Hs).
    destruct (String.eqb_spec op "=") as [|_]; done.
Qed.

Lemma satisfies_ignores_suffix_witness :
  satisfies (VersionConstraint.mk ">=1.0.0" ">=" "1.0.0") ("1.0.0" +:+ String "-" "beta")
  = satisfies (VersionConstraint.mk ">=1.0.0" ">=" "1.0.0") "1.0.0".
Proof.
  apply (proj1 satisfies_ignores_suffix (VersionConstraint.mk ">=1.0.0" ">=" "1.0.0")
           "1.0.0" "beta" "-"%char); done.
Defined.

Lemma dot_plus_dollar_plain (v : string) :
  v <> "" -> no_lf v -> Py.dot_plus_dollar v = Some v.
Proof. intros Hv Hlf. apply dot_plus_dollar_spec. by auto. Qed.

(** Writing an operator in front of a version part and parsing the result
    gives both back: always for [>=], [<=], [~>], [=] and [^], and for [>]
    and [<] unless the version part starts with [=], since then the longer
    operator is read; [>=] and [<=] alone are read as [>] and [<] with
    version [=]. *)
Theorem parse_round_trip :
  (forall op v : string,
      In op [">="; "<="; "~>"; "="; "^"] -> v <> "" -> no_lf v ->
      _parse (op +:+ v) = Ok (op, v)) /\
  (forall op v : string,
      In op [">"; "<"] -> v <> "" -> no_lf v -> Py.strip_prefix "=" v = None ->
      _parse (op +:+ v) = Ok (op, v)) /\
  (forall w : string,
      w <> "" -> no_lf w ->
      _parse (">" +:+ "=" +:+ w) = Ok (">=", w) /\
      _parse ("<" +:+ "=" +:+ w) = Ok ("<=", w)) /\
  _parse ">=" = Ok (">", "=") /\
  _parse "<=" = Ok ("<", "=").
Proof.
  split; [|split; [|split; [|by split]]].
  - intros op v Hop Hv Hlf. pose proof (dot_plus_dollar_plain v Hv Hlf) as Hd.
    unfold _parse, operators.
    repeat (destruct Hop as [<-|Hop]); [..|done];
      rewrite !append_cons, append_nil_l; cbn; by rewrite Hd.
  - intros op v Hop Hv Hlf Heq. pose proof (dot_plus_dollar_plain v Hv Hlf) as Hd.
    destruct v as [|c0 v0]; [done|].
    unfold _parse, operators.
    repeat (destruct Hop as [<-|Hop]); [..|done];
      rewrite !append_cons, append_nil_l; cbn in Heq |- *;
      (match type of Heq with (if ?b then _ else _) = _ => destruct b end);
      by rewrite ?Hd.
  - intros w Hw Hlf. pose proof (dot_plus_dollar_plain w Hw Hlf) as Hd.
    unfold _parse, operators. rewrite !append_cons, !append_nil_l. cbn.
    by rewrite Hd.
Qed.

Lemma parse_round_trip_witness : _parse ("~>" +:+ "1.2") = Ok ("~>", "1.2").
Proof. apply (proj1 parse_round_trip "~>" "1.2"); [cbn; tauto | done | done]. Defined.

(** ** The loader *)

Lemma dict_get_set_eq (k : string) (v : manifest) (d : registry) :
  dict_get k (dict_set k v d) = Some v.
Proof.
  induction d as [|[k' v'] d IH]; cbn.
  - by rewrite String.eqb_refl.
  - destruct (String.eqb_spec k k') as [->|Hne]; cbn.
    + by rewrite String.eqb_refl.
    + by destruct (String.eqb_spec k k').
Qed.

Lemma dict_get_set_ne (k k' : string) (v : manifest) (d : registry) :
  k <> k' -> dict_get k' (dict_set k v d) = dict_get k' d.
Proof.
  intros Hne. induction d as [|[k0 v0] d IH]; cbn.
  - by destruct (String.eqb_spec k' k).
  - destruct (String.eqb_spec k k0) as [->|Hne0]; cbn.
    + by destruct (String.eqb_spec k' k0).
    + by rewrite IH.
Qed.

Lemma keys_dict_set (k : string) (v : manifest) (d : registry) :
  keys (dict_set k v d) = if dict_mem k d then keys d else keys d ++ [k].
Proof.
  unfold dict_mem. induction d as [|[k' v'] d IH]; cbn; [done|].
  destruct (String.eqb_spec k k') as [->|Hne]; cbn; [done|].
  unfold keys in IH. rewrite IH. by destruct (dict_get k d).
Qed.

Lemma dict_mem_keys (k : string) (d : registry) : dict_mem k d = true <-> k ∈ keys d.
Proof.
  unfold dict_mem. induction d as [|[k' v'] d IH]; cbn.
  - split; [done | by intros ?%elem_of_nil].
  - rewrite elem_of_cons. destruct (String.eqb_spec k k') as [->|Hne].
    + split; [by left | done].
    + rewrite IH. unfold keys. naive_solver.
Qed.

Lemma dict_set_NoDup (k : string) (v : manifest) (d : registry) :
  NoDup (keys d) -> NoDup (keys (dict_set k v d)).
Proof.
  intros Hnd. rewrite keys_dict_set. destruct (dict_mem k d) eqn:Hm; [done|].
  apply NoDup_app. split; [done|]. split; [|apply NoDup_singleton].
  intros x Hx ->%list_elem_of_singleton. apply dict_mem_keys in Hx. congruence.
Qed.

(** The documents of [files] that come with a name. *)
Definition named_document (f : manifest_file) (k : string) (m : manifest) : Prop :=
  file_load f = Document m /\ name m = Some k /\ k <> "".

Lemma load_step_get (plugins : registry) (warnings : list string) (f : manifest_file)
    (k : string) (m : manifest) :
  dict_get k (fst (load_step (plugins, warnings) f)) = Some m <->
  named_document f k m \/
  (dict_get k plugins = Some m /\ forall m', ~ named_document f k m').
Proof.
  unfold load_step, named_document. destruct (file_load f) as [doc|e]; cbn.
  - destruct (name doc) as [[|c r]|] eqn:Hn; cbn.
    + naive_solver.
    + destruct (decide (String c r = k)) as [<-|Hne].
      * rewrite dict_get_set_eq. naive_solver.
      * rewrite dict_get_set_ne by done. naive_solver.
    + naive_solver.
  - naive_solver.
Qed.

Lemma load_step_NoDup (acc : registry * list string) (f : manifest_file) :
  NoDup (keys (fst acc)) -> NoDup (keys (fst (load_step acc f))).
Proof.
  destruct acc as [plugins warnings]. unfold load_step. cbn.
  destruct (file_load f) as [doc|e]; [|done].
  destruct (name doc) as [[|c r]|]; try done. cbn. apply dict_set_NoDup.
Qed.

Lemma load_fold_get (files : list manifest_file) (acc : registry * list string)
    (k : string) (m : manifest) :
  dict_get k (fst (fold_left load_step files acc)) = Some m <->
  (exists l1 f l2, files = l1 ++ f :: l2 /\ named_document f k m /\
                   forall f' m', In f' l2 -> ~ named_document f' k m') \/
  (dict_get k (fst acc) = Some m /\
   forall f' m', In f' files -> ~ named_document f' k m').
Proof.
  revert acc. induction files as [|f files IH]; intros [plugins warnings]; cbn [fold_left].
  - cbn. split; [intros H; right; by split|].
    intros [(l1 & f & l2 & H & _)|[H _]]; [by destruct l1 | done].
  - rewrite IH. rewrite (load_step_get plugins warnings f k m). split.
    + intros [(l1 & f0 & l2 & -> & Hdoc & Hlast)|[[Hdoc|[Hget Hno]] Hrest]].
      * left. exists (f :: l1), f0, l2. by auto.
      * left. exists [], f, files. by auto.
      * right. split; [done|]. intros f' m' [<-|Hin]; [by apply Hno | by apply Hrest].
    + intros [(l1 & f0 & l2 & Heq & Hdoc & Hlast)|[Hget Hno]].
      * destruct l1 as [|f1 l1]; injection Heq as -> ->.
        -- right. split; [by left | done].
        -- left. exists l1, f0, l2. by auto.
      * right. split.
        -- right. split; [done|]. intros m'. apply Hno. by left.
        -- intros f' m' Hin. apply Hno. by right.
Qed.

Lemma load_step_mem (plugins : registry) (warnings : list string) (f : manifest_file)
    (k : string) :
  dict_mem k (fst (load_step (plugins, warnings) f)) = true <->
  dict_mem k plugins = true \/ exists m, named_document f k m.
Proof.
  unfold load_step, named_document. destruct (file_load f) as [doc|e]; cbn.
  - destruct (name doc) as [[|c r]|] eqn:Hn; cbn.
    + naive_solver.
    + rewrite !dict_mem_keys, keys_dict_set.
      destruct (dict_mem (String c r) plugins) eqn:Hm.
      * apply dict_mem_keys in Hm. naive_solver.
      * rewrite elem_of_app, list_elem_of_singleton. naive_solver.
    + naive_solver.
  - naive_solver.
Qed.

Lemma load_fold_mem (files : list manifest_file) (acc : registry * list string)
    (k : string) :
  dict_mem k (fst (fold_left load_step files acc)) = true <->
  dict_mem k (fst acc) = true \/ exists f m, In f files /\ named_document f k m.
Proof.
  revert acc. induction files as [|f files IH]; intros [plugins warnings]; cbn [fold_left].
  - cbn. split; [by left | intros [?|(f & m & [] & _)]; done].
  - rewrite IH, (load_step_mem plugins warnings f k). cbn [fst In]. split.
    + intros [[?|(m & ?)]|(f' & m & ? & ?)]; [by left | right | right]; by eauto.
    + intros [?|(f' & m & [<-|?] & ?)]; [by left; left | left; right | right]; by eauto.
Qed.

Lemma load_fold_NoDup (files : list manifest_file) (acc : registry * list string) :
  NoDup (keys (fst acc)) -> NoDup (keys (fst (fold_left load_step files acc))).
Proof.
  revert acc. induction files as [|f files IH]; intros acc Hacc; [done|].
  cbn [fold_left]. by apply IH, load_step_NoDup.
Qed.

(** The registry that [load_plugins] builds has no key twice, every key is
    the non-empty name of the manifest stored under it, and a name is a key
    exactly when some loaded document carries it. *)
Theorem load_plugins_registry (plugins_dir : option (list manifest_file)) :
  NoDup (keys (fst (load_plugins plugins_dir))) /\
  (forall k m, dict_get k (fst (load_plugins plugins_dir)) = Some m ->
               name m = Some k /\ k <> "") /\
  (forall k, dict_mem k (fst (load_plugins plugins_dir)) = true <->
             exists files f m, plugins_dir = Some files /\ In f files /\
                               named_document f k m).
Proof.
  destruct plugins_dir as [files|]; cbn [load_plugins].
  - split; [|split].
    + apply load_fold_NoDup. cbn. apply NoDup_nil_2.
    + intros k m. rewrite load_fold_get.
      intros [(l1 & f & l2 & _ & (_ & ? & ?) & _)|[H _]]; done.
    + intros k. rewrite load_fold_mem. cbn. split.
      * intros [?|(f & m & ? & ?)]; [done|]. exists files, f, m. by auto.
      * intros (files' & f & m & [= <-] & ? & ?). right. by eauto.
  - cbn. split; [apply NoDup_nil_2|]. split; [done|].
    intros k. split; [done|]. intros (files & f & m & ? & _). done.
Qed.

(** Of several documents with one name the last one loaded is the one
    registered. *)
Theorem load_plugins_last_wins (l1 l2 : list manifest_file) (f : manifest_file)
    (k : string) (m : manifest) :
  named_document f k m ->
  (forall f' m', In f' l2 -> ~ named_document f' k m') ->
  dict_get k (fst (load_plugins (Some (l1 ++ f :: l2)))) = Some m.
Proof.
  intros Hdoc Hlast. cbn [load_plugins]. apply load_fold_get. left.
  exists l1, f, l2. by auto.
Qed.

Lemma load_plugins_last_wins_witness :
  dict_get "a"
    (fst (load_plugins
            (Some ([mk_file "1.potion" (Document (mk_manifest (Some "a") (Some "1.0.0") []))]
                   ++ mk_file "2.potion" (Document (mk_manifest (Some "a") (Some "2.0.0") []))
                   :: [mk_file "3.potion" (Document (mk_manifest (Some "b") None []))]))))
  = Some (mk_manifest (Some "a") (Some "2.0.0") []).
Proof.
  apply (load_plugins_last_wins
           [mk_file "1.potion" (Document (mk_manifest (Some "a") (Some "1.0.0") []))]
           [mk_file "3.potion" (Document (mk_manifest (Some "b") None []))]
           (mk_file "2.potion" (Document (mk_manifest (Some "a") (Some "2.0.0") [])))
           "a" (mk_manifest (Some "a") (Some "2.0.0") [])).
  - by repeat split.
  - intros f' m' [<-|[]] (Hl & Hn & _). cbn in Hl. injection Hl as <-. done.
Defined.

(** The warnings of [load_plugins] are one per file that could not be
    loaded, in the order of the files; a document without a name is dropped
    without a warning. *)
Theorem load_plugins_warnings (files : list manifest_file) :
  snd (load_plugins (Some files))
  = flat_map (fun f => match file_load f with
                       | Unloadable e =>
                           ["Warning: Failed to load " +:+ file_path f +:+ ": " +:+ e]
                       | Document _ => []
                       end) files.
Proof.
  cbn [load_plugins].
  assert (forall fs acc,
            snd (fold_left load_step fs acc)
            = snd acc ++ flat_map (fun f => match file_load f with
                       | Unloadable e =>
                           ["Warning: Failed to load " +:+ file_path f +:+ ": " +:+ e]
                       | Document _ => []
                       end) fs) as H.
  { induction fs as [|f fs IH]; intros [plugins warnings]; cbn [fold_left flat_map].
    - by rewrite app_nil_r.
    - rewrite IH. unfold load_step. destruct (file_load f) as [doc|e]; cbn.
      + by destruct (name doc) as [[|c r]|].
      + by rewrite <- app_assoc. }
  by rewrite H.
Qed.

(** ** The graph, further *)

(** Every set stored in an adjacency map has an element. *)
Definition sets_inhabited (g : gmap string (gset string)) : Prop :=
  forall k X, g !! k = Some X -> X <> ∅.

Lemma add_to_inhabited (k x : string) (g : gmap string (gset string)) :
  sets_inhabited g -> sets_inhabited (add_to k x g).
Proof.
  intros Hg k' X. unfold add_to. destruct (decide (k = k')) as [<-|Hne].
  - rewrite lookup_insert_eq. intros [= <-]. set_solver.
  - rewrite lookup_insert_ne by done. apply Hg.
Qed.

Lemma add_dependency_inhabited (n : string) (gr : graphs) (dep : dependency) :
  sets_inhabited (dependency_graph gr) /\ sets_inhabited (reverse_graph gr) ->
  sets_inhabited (dependency_graph (add_dependency n gr dep)) /\
  sets_inhabited (reverse_graph (add_dependency n gr dep)).
Proof.
  intros [H1 H2]. unfold add_dependency.
  destruct (dep_name dep) as [[|c r]|]; cbn; [done | | done].
  split; by apply add_to_inhabited.
Qed.

Lemma build_inhabited (plugins : registry) :
  sets_inhabited (dependency_graph (build_dependency_graph plugins)) /\
  sets_inhabited (reverse_graph (build_dependency_graph plugins)).
Proof.
  unfold build_dependency_graph.
  assert (forall gr, sets_inhabited (dependency_graph gr) /\ sets_inhabited (reverse_graph gr) ->
            let gr' := fold_left add_manifest plugins gr in
            sets_inhabited (dependency_graph gr') /\ sets_inhabited (reverse_graph gr')) as H.
  { induction plugins as [|[n m] plugins IH]; intros gr Hgr; [done|].
    cbn [fold_left]. apply IH. unfold add_manifest.
    generalize dependent gr. induction (dependencies m) as [|d deps IHd]; intros gr Hgr; [done|].
    cbn [fold_left]. by apply IHd, add_dependency_inhabited. }
  apply H. cbn. split; intros k X; by rewrite lookup_empty.
Qed.

(** The forward map has a key exactly for the registered manifests that
    declare a named dependency, the reverse map exactly for the names that
    are declared, and no stored set is empty: a manifest without
    dependencies adds nothing to either map. *)
Theorem build_graph_keys (plugins : registry) :
  (forall a, is_Some (dependency_graph (build_dependency_graph plugins) !! a) <->
             exists b, declares plugins a b) /\
  (forall b, is_Some (reverse_graph (build_dependency_graph plugins) !! b) <->
             exists a, declares plugins a b) /\
  (forall a, is_Some (dependency_graph (build_dependency_graph plugins) !! a) ->
             a ∈ keys plugins) /\
  (forall (a : string) (m : manifest),
      dependencies m = [] ->
      build_dependency_graph (plugins ++ [(a, m)]) = build_dependency_graph plugins).
Proof.
  destruct (build_inhabited plugins) as [Hf Hr].
  assert (Hkey : forall g k, sets_inhabited g -> is_Some (g !! k) <-> exists x, has_edge g k x).
  { intros g k Hg. unfold has_edge. split.
    - intros [X HX]. rewrite HX. cbn. apply set_choose_L. by eapply Hg.
    - intros [x Hx]. destruct (g !! k); [done|]. cbn in Hx. set_solver. }
  split; [|split; [|split]].
  - intros a. rewrite (Hkey _ _ Hf). split; intros [b Hb]; exists b;
      by apply (proj1 (build_edges plugins a b)).
  - intros b. rewrite (Hkey _ _ Hr). split; intros [a Ha]; exists a;
      by apply (proj2 (build_edges plugins a b)).
  - intros a Ha. apply (Hkey _ _ Hf) in Ha as [b Hb].
    apply (proj1 (build_edges plugins a b)) in Hb as (m & d & Hin & _).
    apply list_elem_of_In. apply (in_map fst _ _ Hin).
  - intros a m Hdeps. unfold build_dependency_graph.
    rewrite fold_left_app. cbn. by rewrite Hdeps.
Qed.

Lemma build_graph_keys_witness :
  build_dependency_graph ([] ++ [("A", mk_manifest (Some "A") (Some "1.0.0") [])])
  = build_dependency_graph [].
Proof.
  apply (proj2 (proj2 (proj2 (build_graph_keys [])))). reflexivity.
Defined.

(** ** The validator, further *)

(** A declaration adds no error exactly when it names a registered plugin
    and either has no constraint or has one that the registered version, or
    [0.0.0] when there is none, satisfies. *)
Theorem dependency_accepted (plugins : registry) (dep : dependency) :
  dep_errors plugins dep = [] <->
  exists (n : string) (m : manifest),
    dep_name dep = Some n /\ n <> "" /\ dict_get n plugins = Some m /\
    (Py.truthy (dep_version dep) = false \/
     exists c, dep_version dep = Some c /\
               Satisfies c (default "0.0.0" (DependencyResolver.version m)) = Ok true).
Proof.
  unfold dep_errors, validate_dep.
  destruct (dep_name dep) as [[|ch r]|] eqn:Hn; [naive_solver | | naive_solver].
  unfold dict_mem. destruct (dict_get (String ch r) plugins) as [m|] eqn:Hm; cbn [negb];
    [|naive_solver].
  destruct (dep_version dep) as [[|ch' r']|] eqn:Hv.
  - split; [|done]. intros _. exists (String ch r), m. by auto.
  - rewrite (check_version_registered _ _ _ _ m Hm).
    destruct (Satisfies _ _) as [[|]|e] eqn:HS.
    + split; [|done]. intros _. exists (String ch r), m. by eauto 10.
    + split; [done|]. intros (n & m' & [= <-] & _ & Hm' & [?|(c & [= <-] & HS')]);
        [done|]. rewrite Hm in Hm'. injection Hm' as <-. congruence.
    + destruct (Satisfies_raise_value_error _ _ _ HS) as [msg ->].
      split; [done|]. intros (n & m' & [= <-] & _ & Hm' & [?|(c & [= <-] & HS')]);
        [done|]. rewrite Hm in Hm'. injection Hm' as <-. congruence.
  - split; [|done]. intros _. exists (String ch r), m. by auto.
Qed.

Lemma concat_map_nil {A B : Type} (f : A -> list B) (l : list A) :
  concat (map f l) = [] <-> forall x, In x l -> f x = [].
Proof.
  induction l as [|a l IH]; cbn.
  - by split.
  - split.
    + intros [Ha H]%app_eq_nil x [<-|Hin]; [done|]. by apply IH.
    + intros H. rewrite (H a (or_introl eq_refl)). cbn. apply IH. by auto.
Qed.

(** A manifest validates exactly when none of its declarations adds an
    error; otherwise the flag is false and the list is not empty. *)
Theorem validate_succeeds_iff (plugins : registry) (m : manifest) :
  exists (ok : bool) (errors : list string),
    validate_dependencies plugins m = Ok (ok, errors) /\
    (ok = true <-> errors = []) /\
    (ok = true <-> forall d, In d (dependencies m) -> dep_errors plugins d = []).
Proof.
  unfold validate_dependencies. rewrite for_each_validate. cbn.
  eexists _, _. split; [reflexivity|]. split.
  - destruct (concat _); cbn; split; done.
  - rewrite <- (concat_map_nil (dep_errors plugins) (dependencies m)).
    destruct (concat _); cbn; split; done.
Qed.

(** When the registered version of a dependency is not a version, a
    declaration with a well-formed constraint gets the invalid-constraint
    error, with the text of the failed conversion; a declaration without
    constraint is accepted whatever the registered version is. *)
Theorem validate_unparsable_registered_version :
  (forall (plugins : registry) (errors : list string) (dep : dependency)
          (n c v msg : string) (m : manifest) (vc : VersionConstraint.t) (r : Z * Z * Z),
      dep_name dep = Some n -> n <> "" ->
      dep_version dep = Some c -> c <> "" ->
      dict_get n plugins = Some m ->
      DependencyResolver.version m = Some v ->
      __init__ c = Ok vc ->
      _parse_version (VersionConstraint.version vc) = Ok r ->
      _parse_version v = Raise (ValueError msg) ->
      validate_dep plugins errors dep
      = Ok (errors ++ ["Invalid version constraint for '" +:+ n +:+ "': " +:+ msg])) /\
  (forall (plugins : registry) (errors : list string) (dep : dependency)
          (n : string) (m : manifest),
      dep_name dep = Some n -> n <> "" ->
      Py.truthy (dep_version dep) = false ->
      dict_get n plugins = Some m ->
      validate_dep plugins errors dep = Ok errors).
Proof.
  split.
  - intros plugins errors dep n c v msg m vc r Hn Hne Hc Hce Hm Hv Hinit Hr Hraise.
    unfold validate_dep. rewrite Hn, Hc.
    destruct n as [|ch s]; [done|]. destruct c as [|ch' s']; [done|].
    unfold dict_mem. rewrite Hm. cbn [negb].
    rewrite (check_version_registered _ _ _ _ m Hm), Hv. cbn [default from_option id].
    rewrite (Satisfies_init _ _ vc Hinit). unfold satisfies.
    rewrite Hr. cbn [mbind result_bind]. by rewrite Hraise.
  - intros plugins errors dep n m Hn Hne Hv Hm.
    unfold validate_dep. rewrite Hn. destruct n as [|ch s]; [done|].
    unfold dict_mem. rewrite Hm. cbn [negb].
    by destruct (dep_version dep) as [[|ch' s']|].
Qed.

Lemma validate_unparsable_registered_version_witness :
  validate_dep [("B", mk_manifest (Some "B") (Some "latest") [])] []
    (mk_dependency (Some "B") (Some ">=1.0.0"))
  = Ok ([] ++ ["Invalid version constraint for '" +:+ "B" +:+ "': "
               +:+ "invalid literal for int() with base 10: 'latest'"]).
Proof.
  apply (proj1 validate_unparsable_registered_version
           [("B", mk_manifest (Some "B") (Some "latest") [])] []
           (mk_dependency (Some "B") (Some ">=1.0.0")) "B" ">=1.0.0" "latest"
           "invalid literal for int() with base 10: 'latest'"
           (mk_manifest (Some "B") (Some "latest") [])
           (VersionConstraint.mk ">=1.0.0" ">=" "1.0.0") (1, 0, 0)); done.
Defined.

(** ** What the detector finds *)

(** Consecutive elements of [l] are joined by edges of [g]. *)
Fixpoint is_walk (g : gmap string (gset string)) (l : list string) : Prop :=
  match l with
  | x :: l' =>
      match l' with
      | y :: _ => has_edge g x y
      | [] => True
      end /\ is_walk g l'
  | [] => True
  end.

(** [c] is a cycle of [g] written as a closed walk: it ends where it
    starts and passes no node twice before that. *)
Definition closed_walk (g : gmap string (gset string)) (c : list string) : Prop :=
  exists x w, c = x :: w ++ [x] /\ NoDup (x :: w) /\ is_walk g c.

(** [g] has a cycle. *)
Definition cyclic (g : gmap string (gset string)) : Prop :=
  exists x, tc (has_edge g) x x.

(** [x] has been visited and left. *)
Definition finished (st : dfs_state) (x : string) : Prop :=
  x ∈ visited st /\ x ∉ rec_stack st.

(** The nodes visited and left can be ranked so that every edge from one of
    them leads to one of them of lower rank. *)
Definition ranked (g : gmap string (gset string)) (st : dfs_state) : Prop :=
  exists (rank : string -> nat) (N : nat),
    forall u, finished st u ->
      (rank u < N)%nat /\
      forall v, v ∈ succs g u -> finished st v /\ (rank v < rank u)%nat.

(** What holds of the state between two steps of the traversal. *)
Definition walk_inv (g : gmap string (gset string)) (st : dfs_state) : Prop :=
  rec_stack st ⊆ visited st /\
  (forall x, x ∈ path st <-> x ∈ rec_stack st) /\
  NoDup (path st) /\
  is_walk g (path st) /\
  (forall c, c ∈ cycles st -> closed_walk g c) /\
  (cycles st = [] -> ranked g st).

Lemma is_walk_suffix (g : gmap string (gset string)) (p l : list string) :
  is_walk g (p ++ l) -> is_walk g l.
Proof.
  induction p as [|x p IH]; [done|]. cbn [app is_walk]. intros [_ H]. by apply IH.
Qed.

Lemma is_walk_snoc (g : gmap string (gset string)) (l : list string) (x : string) :
  is_walk g l -> (forall u, last l = Some u -> has_edge g u x) -> is_walk g (l ++ [x]).
Proof.
  induction l as [|y l IH]; intros Hl Hlast; [done|].
  destruct l as [|z l].
  - cbn. split; [|done]. by apply Hlast.
  - destruct Hl as [Hyz Hl]. cbn [app is_walk]. split; [done|].
    apply IH; [done|]. intros u Hu. apply Hlast. by rewrite last_cons_cons.
Qed.

Lemma walk_tc (g : gmap string (gset string)) (w : list string) (x y : string) :
  is_walk g (x :: w ++ [y]) -> tc (has_edge g) x y.
Proof.
  revert x. induction w as [|z w IH]; intros x.
  - cbn. intros [H _]. by apply tc_once.
  - cbn [app is_walk]. intros [Hxz H]. eapply tc_l; [done|]. by apply IH.
Qed.

Lemma index_split (x : string) (l : list string) (i : nat) :
  index x l = Some i -> exists p q, l = p ++ x :: q /\ (x ∉ p) /\ i = length p.
Proof.
  revert i. induction l as [|y l IH]; intros i; [done|]. cbn.
  destruct (String.eqb_spec y x) as [->|Hne].
  - intros [= <-]. exists [], l. split; [done|]. split; [|done]. by apply not_elem_of_nil.
  - destruct (index x l) as [j|] eqn:Hj; [|done]. intros [= <-].
    destruct (IH j eq_refl) as (p & q & -> & Hp & ->).
    exists (y :: p), q. split; [done|]. split; [|done].
    apply not_elem_of_cons. by auto.
Qed.

Lemma bind_ok_inv {A B : Type} (r : result A) (k : A -> result B) (b : B) :
  (r ≫= k) = Ok b -> exists a, r = Ok a /\ k a = Ok b.
Proof. destruct r as [a|e]; cbn; [by eauto | done]. Qed.

Lemma ranked_descends (g : gmap string (gset string)) (st : dfs_state)
    (rank : string -> nat) (x y : string) :
  (forall u, finished st u ->
     forall v, v ∈ succs g u -> finished st v /\ (rank v < rank u)%nat) ->
  tc (has_edge g) x y -> finished st x ->
  finished st y /\ (rank y < rank x)%nat.
Proof.
  intros Hrank Htc Hx. induction Htc as [x y Hxy|x y z Hxy Htc IH].
  - by apply (Hrank x Hx).
  - destruct (Hrank x Hx y Hxy) as [Hy Hlt].
    destruct (IH Hy) as [Hz Hlt']. split; [done | lia].
Qed.

Section Soundness.

Variable iter : string -> gset string -> list string.
Variable graph : gmap string (gset string).

Hypothesis iter_perm : forall n X, iter n X ≡ₚ elements X.

Lemma neighbors_edge (node nb : string) :
  nb ∈ neighbors iter graph node <-> has_edge graph node nb.
Proof. unfold neighbors, has_edge. by rewrite (iter_perm node), elem_of_elements. Qed.

Lemma walk_inv_enter (node : string) (st : dfs_state) :
  walk_inv graph st -> node ∉ visited st ->
  (forall u, last (path st) = Some u -> has_edge graph u node) ->
  walk_inv graph (enter node st).
Proof.
  intros (W1 & W2 & W3 & W4 & W5 & W6) Hnew Hlast. unfold walk_inv. cbn.
  split; [set_solver|]. split; [|split; [|split; [|split; [done|]]]].
  - intros x. rewrite elem_of_app, list_elem_of_singleton, (W2 x). set_solver.
  - apply NoDup_app. split; [done|]. split; [|apply NoDup_singleton].
    intros x Hx ->%list_elem_of_singleton. apply W2 in Hx. set_solver.
  - by apply is_walk_snoc.
  - intros Hc. destruct (W6 Hc) as (rank & N & Hrank). exists rank, N.
    intros u [Hu1 Hu2]. cbn in Hu1, Hu2.
    assert (finished st u) as Hu by (split; set_solver).
    destruct (Hrank u Hu) as [HN Hsucc]. split; [done|].
    intros v Hv. destruct (Hsucc v Hv) as [[Hv1 Hv2] Hlt]. split; [|done].
    split; cbn; set_solver.
Qed.

Lemma walk_inv_record (s : dfs_state) (node nb : string) (i : nat) :
  walk_inv graph s -> index nb (path s) = Some i ->
  last (path s) = Some node -> has_edge graph node nb ->
  walk_inv graph
    (mk_state (cycles s ++ [drop i (path s) ++ [nb]]) (visited s) (rec_stack s) (path s)).
Proof.
  intros (W1 & W2 & W3 & W4 & W5 & W6) Hi Hlast Hedge. unfold walk_inv. cbn.
  do 4 (split; [done|]). split.
  - intros c [Hc|Hc]%elem_of_app; [by apply W5|].
    apply list_elem_of_singleton in Hc as ->.
    destruct (index_split nb (path s) i Hi) as (p & q & Hp & Hfresh & ->).
    rewrite Hp, drop_app_length. exists nb, q. split; [done|].
    rewrite Hp in W3, W4, Hlast. split.
    + by apply NoDup_app in W3 as (_ & _ & ?).
    + change (is_walk graph ((nb :: q) ++ [nb])). apply is_walk_snoc.
      * by apply is_walk_suffix in W4.
      * intros u Hu. rewrite last_app in Hlast. rewrite Hu in Hlast. congruence.
  - intros Hc. by apply app_eq_nil in Hc as [_ ?].
Qed.

Lemma walk_inv_leave (node : string) (st s : dfs_state) :
  walk_inv graph st -> node ∉ visited st ->
  walk_inv graph s ->
  rec_stack s = {[node]} ∪ rec_stack st ->
  (cycles s = [] -> forall v, v ∈ succs graph node -> finished s v) ->
  walk_inv graph (mk_state (cycles s) (visited s) (rec_stack s ∖ {[node]}) (path st)).
Proof.
  intros (V1 & V2 & V3 & V4 & _ & _) Hnew (W1 & W2 & W3 & W4 & W5 & W6) Hrs Hdone.
  unfold walk_inv. cbn.
  split; [set_solver|]. split; [|split; [done|split; [done|split; [done|]]]].
  - intros x. rewrite (V2 x), Hrs. set_solver.
  - intros Hc. destruct (W6 Hc) as (rank & N & Hrank). specialize (Hdone Hc).
    exists (fun x => if decide (x = node) then N else rank x), (S N).
    intros u [Hu1 Hu2]. cbn in Hu1, Hu2.
    destruct (decide (u = node)) as [->|Hne].
    + split; [lia|]. intros v Hv. destruct (Hdone v Hv) as [Hv1 Hv2].
      assert (v <> node) by set_solver. rewrite decide_False by done.
      split; [split; cbn; set_solver|].
      by destruct (Hrank v (conj Hv1 Hv2)) as [? _].
    + assert (finished s u) as Hu by (split; set_solver).
      destruct (Hrank u Hu) as [HN Hsucc]. split; [lia|].
      intros v Hv. destruct (Hsucc v Hv) as [[Hv1 Hv2] Hlt].
      assert (v <> node) by set_solver. rewrite decide_False by done.
      split; [split; cbn; set_solver | done].
Qed.

(** What a call of [dfs] that returns leaves behind. *)
Definition dfs_walk_post (node : string) (st st' : dfs_state) : Prop :=
  walk_inv graph st' /\
  rec_stack st' = rec_stack st /\
  path st' = path st /\
  visited st ⊆ visited st' /\
  node ∈ visited st' /\
  (cycles st' = [] -> cycles st = []).

Lemma dfs_walk_loop (limit : nat) (node : string) :
  (forall nb s s', dfs iter graph limit nb s = Ok s' -> walk_inv graph s ->
                   nb ∉ visited s ->
                   (forall u, last (path s) = Some u -> has_edge graph u nb) ->
                   dfs_walk_post nb s s') ->
  forall (l : list string) (s s' : dfs_state),
    for_each l (visit (dfs iter graph limit)) s = Ok s' ->
    (forall nb, nb ∈ l -> has_edge graph node nb) ->
    walk_inv graph s -> last (path s) = Some node ->
    walk_inv graph s' /\
    rec_stack s' = rec_stack s /\
    path s' = path s /\
    visited s ⊆ visited s' /\
    (cycles s' = [] -> cycles s = [] /\ forall nb, nb ∈ l -> finished s' nb).
Proof.
  intros IH l. induction l as [|nb l IHl]; intros s s' Hrun Hl Hinv Hlast.
  - cbn in Hrun. injection Hrun as <-. do 4 (split; [done|]).
    intros Hc. split; [done|]. intros nb Hnb. by apply elem_of_nil in Hnb.
  - cbn [for_each] in Hrun. apply bind_ok_inv in Hrun as (s1 & Hvisit & Hrest).
    assert (Hedge : has_edge graph node nb) by (apply Hl; set_solver).
    assert (Hl' : forall nb', nb' ∈ l -> has_edge graph node nb')
      by (intros nb' ?; apply Hl; set_solver).
    destruct (decide (nb ∉ visited s)) as [Hnew|Hold].
    + rewrite visit_unvisited in Hvisit by done.
      destruct (IH nb s s1 Hvisit Hinv Hnew) as (Hinv1 & Hrs1 & Hp1 & Hv1 & Hnb1 & Hc1).
      { intros u Hu. rewrite Hlast in Hu. by injection Hu as <-. }
      destruct (IHl s1 s' Hrest Hl' Hinv1) as (Hinv' & Hrs' & Hp' & Hv' & Hc').
      { by rewrite Hp1. }
      split; [done|]. split; [congruence|]. split; [congruence|]. split; [set_solver|].
      intros Hc. destruct (Hc' Hc) as [Hc1' Hfin]. split; [by apply Hc1|].
      intros nb' [->|Hin]%elem_of_cons; [|by apply Hfin].
      destruct Hinv as (W1 & _). split; [set_solver|]. rewrite Hrs', Hrs1. set_solver.
    + apply dec_stable in Hold. destruct (decide (nb ∈ rec_stack s)) as [Hon|Hoff].
      * destruct (index_elem nb (path s)) as [i Hi].
        { destruct Hinv as (_ & W2 & _). by apply W2. }
        rewrite (visit_indexed _ s nb i Hold Hon Hi) in Hvisit. injection Hvisit as <-.
        pose proof (walk_inv_record s node nb i Hinv Hi Hlast Hedge) as Hinv1.
        destruct (IHl _ s' Hrest Hl' Hinv1 Hlast) as (Hinv' & Hrs' & Hp' & Hv' & Hc').
        do 4 (split; [done|]).
        intros Hc. destruct (Hc' Hc) as [Hc1 _]. cbn in Hc1.
        by apply app_eq_nil in Hc1 as [_ ?].
      * rewrite visit_finished in Hvisit by done. injection Hvisit as <-.
        destruct (IHl s s' Hrest Hl' Hinv Hlast) as (Hinv' & Hrs' & Hp' & Hv' & Hc').
        do 4 (split; [done|]).
        intros Hc. destruct (Hc' Hc) as [Hc1 Hfin]. split; [done|].
        intros nb' [->|Hin]%elem_of_cons; [|by apply Hfin].
        split; [set_solver | by rewrite Hrs'].
Qed.

Lemma dfs_walk (limit : nat) :
  forall (node : string) (st st' : dfs_state),
    dfs iter graph limit node st = Ok st' -> walk_inv graph st ->
    node ∉ visited st ->
    (forall u, last (path st) = Some u -> has_edge graph u node) ->
    dfs_walk_post node st st'.
Proof.
  induction limit as [|limit IH]; intros node st st' Hrun Hinv Hnew Hlast; [done|].
  cbn [dfs] in Hrun. apply bind_ok_inv in Hrun as (s & Hloop & Hleave).
  pose proof (walk_inv_enter node st Hinv Hnew Hlast) as Hinv1.
  destruct (dfs_walk_loop limit node IH (neighbors iter graph node) (enter node st) s Hloop)
    as (Hinvs & Hrs & Hp & Hv & Hc); [by intros nb ?%neighbors_edge | done | |].
  { cbn. apply last_snoc. }
  cbn in Hrs, Hp, Hv.
  rewrite (leave_ok node node s (path st)) in Hleave; [ | rewrite Hrs; set_solver | done ].
  injection Hleave as <-.
  assert (Hnode : node ∉ rec_stack st) by (destruct Hinv as (W1 & _); set_solver).
  unfold dfs_walk_post. cbn.
  split; [|split; [rewrite Hrs; set_solver | split; [done | split; [set_solver | split; [set_solver|]]]]].
  - apply (walk_inv_leave node st s Hinv Hnew Hinvs Hrs).
    intros Hcs v Hv'. destruct (Hc Hcs) as [_ Hfin]. apply Hfin.
    by apply neighbors_edge.
  - intros Hcs. by destruct (Hc Hcs) as [? _].
Qed.

Lemma roots_walk (limit : nat) (l : list string) :
  forall s s' : dfs_state,
    for_each l (visit_root iter graph limit) s = Ok s' ->
    walk_inv graph s -> path s = [] ->
    walk_inv graph s' /\ path s' = [] /\ rec_stack s' = rec_stack s /\
    visited s ⊆ visited s' /\ (forall k, k ∈ l -> k ∈ visited s').
Proof.
  induction l as [|k l IHl]; intros s s' Hrun Hinv Hp.
  - cbn in Hrun. injection Hrun as <-. do 4 (split; [done|]).
    intros k Hk. by apply elem_of_nil in Hk.
  - cbn [for_each] in Hrun. apply bind_ok_inv in Hrun as (s1 & Hroot & Hrest).
    unfold visit_root in Hroot. destruct (decide (k ∉ visited s)) as [Hnew|Hold].
    + destruct (dfs_walk limit k s s1 Hroot Hinv Hnew) as (Hinv1 & Hrs1 & Hp1 & Hv1 & Hk1 & _).
      { intros u Hu. by rewrite Hp in Hu. }
      destruct (IHl s1 s' Hrest Hinv1) as (Hinv' & Hp' & Hrs' & Hv' & Hk'); [congruence|].
      split; [done|]. split; [done|]. split; [congruence|]. split; [set_solver|].
      intros k' [->|?]%elem_of_cons; [set_solver | by auto].
    + injection Hroot as <-. apply dec_stable in Hold.
      destruct (IHl s s' Hrest Hinv Hp) as (Hinv' & Hp' & Hrs' & Hv' & Hk').
      do 4 (split; [done|]).
      intros k' [->|?]%elem_of_cons; [set_solver | by auto].
Qed.

End Soundness.

Lemma walk_inv_initial (g : gmap string (gset string)) :
  walk_inv g (mk_state [] ∅ ∅ []).
Proof.
  unfold walk_inv. cbn. split; [done|].
  split; [intros x; rewrite elem_of_nil; set_solver|]. split; [apply NoDup_nil_2|].
  split; [done|]. split; [by intros c ?%elem_of_nil|].
  intros _. exists (fun _ => O), O. intros u [Hu _]. cbn in Hu. set_solver.
Qed.

Lemma detect_final (iter : string -> gset string -> list string)
    (g : gmap string (gset string)) (limit : nat) (plugins : registry)
    (found : list (list string)) :
  (forall n X, iter n X ≡ₚ elements X) ->
  detect_circular_dependencies iter g limit plugins = Ok found ->
  exists st, found = cycles st /\ walk_inv g st /\ rec_stack st = ∅ /\
             forall k, k ∈ keys plugins -> k ∈ visited st.
Proof.
  intros Hiter Hrun. unfold detect_circular_dependencies in Hrun.
  apply bind_ok_inv in Hrun as (st & Hloop & [= <-]).
  destruct (roots_walk iter g Hiter limit (keys plugins) _ st Hloop (walk_inv_initial g) eq_refl)
    as (Hinv & _ & Hrs & _ & Hk).
  exists st. by auto.
Qed.

Lemma detected_cycle_closed
    (iter : string -> gset string -> list string) (g : gmap string (gset string))
    (limit : nat) (plugins : registry) (found : list (list string)) (c : list string) :
  (forall n X, iter n X ≡ₚ elements X) ->
  detect_circular_dependencies iter g limit plugins = Ok found ->
  c ∈ found ->
  closed_walk g c /\ cyclic g.
Proof.
  intros Hiter Hrun Hc.
  destruct (detect_final iter g limit plugins found Hiter Hrun) as (st & -> & Hinv & _).
  destruct Hinv as (_ & _ & _ & _ & W5 & _). pose proof (W5 c Hc) as Hcw.
  split; [done|]. destruct Hcw as (x & w & -> & _ & Hwalk).
  exists x. by apply (walk_tc g w x x).
Qed.

(** Every cycle the detector returns is a cycle of the graph: a closed walk
    along its edges that ends where it starts and passes no node twice
    before. *)
Theorem detected_cycles_are_cycles
    (iter : string -> gset string -> list string) (g : gmap string (gset string))
    (limit : nat) (plugins : registry) (found : list (list string)) (c : list string) :
  (forall n X, iter n X ≡ₚ elements X) ->
  detect_circular_dependencies iter g limit plugins = Ok found ->
  c ∈ found ->
  closed_walk g c /\ cyclic g.
Proof. apply detected_cycle_closed. Qed.

Lemma detected_cycles_are_cycles_witness :
  closed_walk
    (dependency_graph
       (build_dependency_graph
          [("A", mk_manifest (Some "A") None [mk_dependency (Some "B") None]);
           ("B", mk_manifest (Some "B") None [mk_dependency (Some "A") None])]))
    ["A"; "B"; "A"] /\
  cyclic
    (dependency_graph
       (build_dependency_graph
          [("A", mk_manifest (Some "A") None [mk_dependency (Some "B") None]);
           ("B", mk_manifest (Some "B") None [mk_dependency (Some "A") None])])).
Proof.
  apply (detected_cycles_are_cycles (fun _ X => elements X) _ 2%nat
           [("A", mk_manifest (Some "A") None [mk_dependency (Some "B") None]);
            ("B", mk_manifest (Some "B") None [mk_dependency (Some "A") None])]
           [["A"; "B"; "A"]] ["A"; "B"; "A"]).
  - done.
  - by vm_compute.
  - apply list_elem_of_singleton. reflexivity.
Defined.

Lemma tc_first_edge {A : Type} (R : relation A) (x y : A) :
  tc R x y -> exists z, R x z.
Proof. intros [x' y' H|x' y' z H _]; by eauto. Qed.

(** If the detector returns on the graph of a registry, it returns no cycle
    exactly when the graph has none. *)
Lemma detect_nil_iff (iter : string -> gset string -> list string) (limit : nat)
    (plugins : registry) (found : list (list string)) :
  (forall n X, iter n X ≡ₚ elements X) ->
  detect_circular_dependencies iter (dependency_graph (build_dependency_graph plugins))
    limit plugins = Ok found ->
  (found = [] <-> ~ cyclic (dependency_graph (build_dependency_graph plugins))).
Proof.
  intros Hiter Hrun.
  destruct (detect_final iter _ limit plugins _ Hiter Hrun) as (st & -> & Hinv & Hrs & Hk).
  assert (Hsound : cycles st <> [] -> cyclic (dependency_graph (build_dependency_graph plugins))).
  { destruct (cycles st) as [|c cs] eqn:Hcs; [done|]. intros _.
    destruct Hinv as (_ & _ & _ & _ & W5 & _).
    destruct (W5 c) as (x & w & -> & _ & Hwalk); [rewrite Hcs; set_solver|].
    exists x. by apply (walk_tc _ w x x). }
  split.
  - intros Hnil [x Hx]. destruct Hinv as (_ & _ & _ & _ & _ & W6).
    destruct (W6 Hnil) as (rank & N & Hrank).
    assert (finished st x) as Hfin.
    { destruct (tc_first_edge _ x x Hx) as [y Hxy].
      apply (proj1 (build_edges plugins x y)) in Hxy as (m & d & Hin & _).
      split; [|rewrite Hrs; set_solver].
      apply Hk, list_elem_of_In. apply (in_map fst _ _ Hin). }
    destruct (ranked_descends (dependency_graph (build_dependency_graph plugins))
                st rank x x) as [_ Hlt]; [|done|done|lia].
    intros u Hu. by destruct (Hrank u Hu).
  - intros Hac. destruct (cycles st) as [|c cs] eqn:Hcs; [done|].
    destruct Hac. by apply Hsound.
Qed.

(** On the graph of a registry the detector returns, within a recursion
    limit of the number of nodes, and it returns no cycle exactly when the
    graph has none. *)
Theorem detector_decides_cycles
    (iter : string -> gset string -> list string) (limit : nat) (plugins : registry) :
  (forall n X, iter n X ≡ₚ elements X) ->
  (size (nodes plugins) <= limit)%nat ->
  exists found : list (list string),
    detect_circular_dependencies iter (dependency_graph (build_dependency_graph plugins))
      limit plugins = Ok found /\
    (found = [] <-> ~ cyclic (dependency_graph (build_dependency_graph plugins))) /\
    (found <> [] <-> cyclic (dependency_graph (build_dependency_graph plugins))).
Proof.
  intros Hiter Hsize.
  destruct (detect_ok iter limit plugins Hiter Hsize) as (st0 & Hrun & _).
  exists (cycles st0). split; [done|].
  pose proof (detect_nil_iff iter limit plugins (cycles st0) Hiter Hrun) as Hiff.
  split; [done|]. split.
  - intros Hne. destruct (cycles st0) as [|c cs] eqn:Hcs; [done|].
    destruct (detected_cycle_closed iter _ limit plugins _ c Hiter Hrun) as [_ ?];
      [set_solver | done].
  - intros Hcyc Hnil. by apply Hiff.
Qed.

Lemma detector_decides_cycles_witness :
  exists found : list (list string),
    detect_circular_dependencies (fun _ X => elements X)
      (dependency_graph
         (build_dependency_graph
            [("A", mk_manifest (Some "A") None [mk_dependency (Some "B") None]);
             ("B", mk_manifest (Some "B") None [])]))
      2
      [("A", mk_manifest (Some "A") None [mk_dependency (Some "B") None]);
       ("B", mk_manifest (Some "B") None [])] = Ok found /\
    (found = [] <->
     ~ cyclic (dependency_graph
                 (build_dependency_graph
                    [("A", mk_manifest (Some "A") None [mk_dependency (Some "B") None]);
                     ("B", mk_manifest (Some "B") None [])]))) /\
    (found <> [] <->
     cyclic (dependency_graph
               (build_dependency_graph
                  [("A", mk_manifest (Some "A") None [mk_dependency (Some "B") None]);
                   ("B", mk_manifest (Some "B") None [])]))).
Proof.
  apply (detector_decides_cycles (fun _ X => elements X) 2%nat
           [("A", mk_manifest (Some "A") None [mk_dependency (Some "B") None]);
            ("B", mk_manifest (Some "B") None [])]); [done|].
  by vm_compute.
Defined.

(** ** The resolution of a registry and the run *)

(** The errors of one registered manifest, as [resolve_all_dependencies]
    reports them. *)
Definition manifest_errors (plugins : registry) (item : string * manifest) : list string :=
  map (fun e => "[" +:+ fst item +:+ "] " +:+ e)
      (concat (map (dep_errors plugins) (dependencies (snd item)))).

Lemma validate_result (plugins : registry) (m : manifest) :
  validate_dependencies plugins m
  = Ok (Nat.eqb (length (concat (map (dep_errors plugins) (dependencies m)))) 0,
        concat (map (dep_errors plugins) (dependencies m))).
Proof. unfold validate_dependencies. by rewrite for_each_validate. Qed.

Lemma validate_all_errors (plugins items : registry) (errors : list string) :
  for_each items
    (fun errors item =>
       r ← validate_dependencies plugins (snd item);
       if negb (fst r) then
         Ok (errors ++ map (fun e => "[" +:+ fst item +:+ "] " +:+ e) (snd r))
       else Ok errors)
    errors
  = Ok (errors ++ concat (map (manifest_errors plugins) items)).
Proof.
  revert errors. induction items as [|item items IH]; intros errors; cbn [for_each].
  - cbn. by rewrite app_nil_r.
  - rewrite validate_result.
    cbn [mbind result_bind app fst snd map concat].
    assert (manifest_errors plugins item
            = map (fun e => "[" +:+ fst item +:+ "] " +:+ e)
                  (concat (map (dep_errors plugins) (dependencies (snd item)))))
      as -> by done.
    destruct (concat (map (dep_errors plugins) (dependencies (snd item)))) as [|e es];
      cbn [length Nat.eqb negb mbind result_bind]; rewrite IH.
    + by cbn.
    + by rewrite app_assoc.
Qed.

Lemma resolve_all_found
    (iter : string -> gset string -> list string) (limit : nat)
    (plugins : registry) (gr : graphs) (found : list (list string)) :
  detect_circular_dependencies iter (dependency_graph gr) limit plugins = Ok found ->
  resolve_all_dependencies iter limit plugins gr
  = let errors :=
      map (fun cycle => "Circular dependency detected: " +:+ join " -> " cycle) found
      ++ concat (map (manifest_errors plugins) plugins) in
    Ok (Nat.eqb (length errors) 0, errors).
Proof.
  intros Hrun. unfold resolve_all_dependencies. rewrite Hrun. cbn [mbind result_bind].
  by rewrite validate_all_errors.
Qed.

Lemma resolve_all_raise
    (iter : string -> gset string -> list string) (limit : nat)
    (plugins : registry) (gr : graphs) (e : exn) :
  detect_circular_dependencies iter (dependency_graph gr) limit plugins = Raise e ->
  resolve_all_dependencies iter limit plugins gr = Raise e.
Proof. intros Hrun. unfold resolve_all_dependencies. by rewrite Hrun. Qed.

(** The errors of a resolution are the cycles found, in the order found,
    then the errors of the registered manifests, in the order of the
    registry, each with the name of its manifest in front; the flag says
    whether there is none.  An exception of the detector goes through. *)
Theorem resolve_all_errors
    (iter : string -> gset string -> list string) (limit : nat)
    (plugins : registry) (gr : graphs) :
  (forall found : list (list string),
      detect_circular_dependencies iter (dependency_graph gr) limit plugins = Ok found ->
      exists errors : list string,
        errors = map (fun cycle => "Circular dependency detected: " +:+ join " -> " cycle)
                     found
                 ++ concat (map (manifest_errors plugins) plugins) /\
        resolve_all_dependencies iter limit plugins gr
        = Ok (Nat.eqb (length errors) 0, errors)) /\
  (forall e : exn,
      detect_circular_dependencies iter (dependency_graph gr) limit plugins = Raise e ->
      resolve_all_dependencies iter limit plugins gr = Raise e).
Proof.
  split.
  - intros found Hrun. eexists. split; [reflexivity|]. by apply resolve_all_found.
  - intros e Hrun. by apply resolve_all_raise.
Qed.

Lemma resolve_all_errors_witness :
  exists errors : list string,
    errors = map (fun cycle => "Circular dependency detected: " +:+ join " -> " cycle)
                 [["A"; "A"]]
             ++ concat (map (manifest_errors
                               [("A", mk_manifest (Some "A") None
                                        [mk_dependency (Some "A") (Some ">=1.0.0")])])
                            [("A", mk_manifest (Some "A") None
                                     [mk_dependency (Some "A") (Some ">=1.0.0")])]) /\
    resolve_all_dependencies (fun _ X => elements X) 1
      [("A", mk_manifest (Some "A") None [mk_dependency (Some "A") (Some ">=1.0.0")])]
      (build_dependency_graph
         [("A", mk_manifest (Some "A") None [mk_dependency (Some "A") (Some ">=1.0.0")])])
    = Ok (Nat.eqb (length errors) 0, errors).
Proof.
  apply (proj1 (resolve_all_errors (fun _ X => elements X) 1%nat
                  [("A", mk_manifest (Some "A") None
                           [mk_dependency (Some "A") (Some ">=1.0.0")])]
                  (build_dependency_graph
                     [("A", mk_manifest (Some "A") None
                              [mk_dependency (Some "A") (Some ">=1.0.0")])]))
           [["A"; "A"]]).
  by vm_compute.
Defined.

Lemma manifest_errors_nil (plugins items : registry) :
  concat (map (manifest_errors plugins) items) = [] <->
  forall k m d, In (k, m) items -> In d (dependencies m) -> dep_errors plugins d = [].
Proof.
  rewrite concat_map_nil. split.
  - intros H k m d Hin Hd. specialize (H (k, m) Hin). unfold manifest_errors in H.
    apply map_eq_nil in H. cbn in H. by apply (proj1 (concat_map_nil _ _) H).
  - intros H [k m] Hin. unfold manifest_errors. cbn.
    assert (concat (map (dep_errors plugins) (dependencies m)) = []) as ->; [|done].
    apply concat_map_nil. intros d Hd. by eapply H.
Qed.

(** A run that ends does so with status 0 or 1, and with 0 exactly when the
    graph of the loaded registry has no cycle and no declaration of a
    registered manifest adds an error; then it writes nothing but the
    warnings of the loader. *)
Theorem main_exit_status
    (iter : string -> gset string -> list string) (limit : nat)
    (plugins_dir : option (list manifest_file)) (status : Z) (lines : list string) :
  (forall n X, iter n X ≡ₚ elements X) ->
  main iter limit plugins_dir = Ok (status, lines) ->
  (status = 0 \/ status = 1) /\
  (status = 0 <->
   ~ cyclic (dependency_graph (build_dependency_graph (fst (load_plugins plugins_dir)))) /\
   forall k m d, In (k, m) (fst (load_plugins plugins_dir)) -> In d (dependencies m) ->
                 dep_errors (fst (load_plugins plugins_dir)) d = []) /\
  (status = 0 -> lines = snd (load_plugins plugins_dir)).
Proof.
  intros Hiter Hrun. unfold main in Hrun.
  destruct (load_plugins plugins_dir) as [plugins warnings]. cbn [fst snd].
  apply bind_ok_inv in Hrun as ([ok errors] & Hres & Hout).
  destruct (detect_circular_dependencies iter
              (dependency_graph (build_dependency_graph plugins)) limit plugins)
    as [found|e] eqn:Hdet.
  - rewrite (resolve_all_found iter limit plugins (build_dependency_graph plugins)
               found Hdet) in Hres.
    cbv zeta in Hres.
    remember (map (fun cycle => "Circular dependency detected: " +:+ join " -> " cycle)
                  found
              ++ concat (map (manifest_errors plugins) plugins)) as errors' eqn:Herrors.
    injection Hres as <- <-.
    pose proof (detect_nil_iff iter limit plugins found Hiter Hdet) as Hnil.
    assert (errors' = [] <->
            found = [] /\ concat (map (manifest_errors plugins) plugins) = []) as Hiff.
    { rewrite Herrors. split.
      - intros [H1 H2]%app_eq_nil. split; [|done]. by apply map_eq_nil in H1.
      - intros [-> ->]. done. }
    rewrite manifest_errors_nil, Hnil in Hiff. cbn [fst snd] in Hout.
    destruct errors' as [|e es]; cbn in Hout; injection Hout as <- <-.
    + split; [by left|]. split; [|done]. split; [intros _; by apply Hiff | done].
    + split; [by right|]. split; [|done]. split; [done|].
      intros H. by apply Hiff in H.
  - by rewrite (resolve_all_raise iter limit plugins (build_dependency_graph plugins)
                  e Hdet) in Hres.
Qed.

Lemma main_exit_status_witness :
  (1 = 0 \/ 1 = 1) /\
  (1 = 0 <->
   ~ cyclic (dependency_graph
               (build_dependency_graph
                  (fst (load_plugins
                          (Some [mk_file "a.potion"
                                   (Document (mk_manifest (Some "a") (Some "1.0.0")
                                                [mk_dependency (Some "b") None]))]))))) /\
   forall k m d,
     In (k, m) (fst (load_plugins
                       (Some [mk_file "a.potion"
                                (Document (mk_manifest (Some "a") (Some "1.0.0")
                                             [mk_dependency (Some "b") None]))]))) ->
     In d (dependencies m) ->
     dep_errors (fst (load_plugins
                        (Some [mk_file "a.potion"
                                 (Document (mk_manifest (Some "a") (Some "1.0.0")
                                              [mk_dependency (Some "b") None]))]))) d = []) /\
  (1 = 0 ->
   ["Dependency resolution failed:"; "  - [a] Dependency 'b' not found in registry"]
   = snd (load_plugins
            (Some [mk_file "a.potion"
                     (Document (mk_manifest (Some "a") (Some "1.0.0")
                                  [mk_dependency (Some "b") None]))]))).
Proof.
  apply (main_exit_status (fun _ X => elements X) 2%nat
           (Some [mk_file "a.potion"
                    (Document (mk_manifest (Some "a") (Some "1.0.0")
                                 [mk_dependency (Some "b") None]))])
           1 ["Dependency resolution failed:"; "  - [a] Dependency 'b' not found in registry"]);
    [done|]. by vm_compute.
Defined.

(** ** main, with a manifest argument *)

(** [str(e)] for the exceptions of this program. *)
Definition exn_text (e : exn) : string :=
  match e with
  | ValueError msg => msg
  | KeyError key => Py.repr key
  | IndexError => "pop from empty list"
  | RecursionError => "maximum recursion depth exceeded"
  end.

(** The branch of [main] that validates the one manifest given on the
    command line against the loaded registry; [manifest_file] is what
    opening and parsing that file gives.  The exit status and the lines
    written to the error stream: whatever is raised inside the [try] is
    printed and ends the run with status 1. *)
Definition main_with_manifest (plugins_dir : option (list manifest_file))
    (manifest_file : loaded) : Z * list string :=
  let (plugins, warnings) := load_plugins plugins_dir in
  match manifest_file with
  | Unloadable e => (1, warnings ++ ["Error: " +:+ e])
  | Document manifest =>
      match validate_dependencies plugins manifest with
      | Ok (valid, errors) =>
          if negb valid then
            (1, warnings ++ "Dependency validation failed:"
                         :: map (fun error => "  - " +:+ error) errors)
          else (0, warnings)
      | Raise e => (1, warnings ++ ["Error: " +:+ exn_text e])
      end
  end.

(** With a manifest argument the run ends with status 0 exactly when the
    manifest loads and none of its declarations adds an error against the
    loaded registry; cycles are not looked for, so a manifest of a cyclic
    registry passes where the run over the whole registry fails. *)
Theorem main_with_manifest_status :
  (forall (plugins_dir : option (list manifest_file)) (manifest_file : loaded),
      (fst (main_with_manifest plugins_dir manifest_file) = 0 \/
       fst (main_with_manifest plugins_dir manifest_file) = 1) /\
      (fst (main_with_manifest plugins_dir manifest_file) = 0 <->
       exists m, manifest_file = Document m /\
                 forall d, In d (dependencies m) ->
                           dep_errors (fst (load_plugins plugins_dir)) d = []) /\
      (forall m,
          manifest_file = Document m ->
          snd (main_with_manifest plugins_dir manifest_file)
          = snd (load_plugins plugins_dir)
            ++ match concat (map (dep_errors (fst (load_plugins plugins_dir)))
                                 (dependencies m)) with
               | [] => []
               | errors => "Dependency validation failed:"
                           :: map (fun error => "  - " +:+ error) errors
               end)) /\
  (let a := mk_manifest (Some "A") (Some "1.0.0") [mk_dependency (Some "B") None] in
   let b := mk_manifest (Some "B") (Some "1.0.0") [mk_dependency (Some "A") None] in
   let dir := Some [mk_file "a.potion" (Document a); mk_file "b.potion" (Document b)] in
   main_with_manifest dir (Document a) = (0, []) /\
   main (fun _ X => elements X) 2 dir
   = Ok (1, ["Dependency resolution failed:";
             "  - Circular dependency detected: A -> B -> A"])).
Proof.
  split; [|by vm_compute].
  intros plugins_dir manifest_file. unfold main_with_manifest.
  destruct (load_plugins plugins_dir) as [plugins warnings]. cbn [fst snd].
  destruct manifest_file as [m|e].
  - rewrite validate_result.
    pose proof (concat_map_nil (dep_errors plugins) (dependencies m)) as Hnil.
    split; [|split].
    + destruct (concat (map (dep_errors plugins) (dependencies m))); cbn; by auto.
    + destruct (concat (map (dep_errors plugins) (dependencies m))) as [|e es]; cbn.
      * split; [|done]. intros _. exists m. split; [done|]. by apply Hnil.
      * split; [done|]. intros (m' & [= <-] & H). by apply Hnil in H.
    + intros m' [= <-].
      destruct (concat (map (dep_errors plugins) (dependencies m))) as [|e es]; cbn;
        by rewrite ?app_nil_r.
  - cbn. split; [by right|]. split; [|done].
    split; [done|]. by intros (m & ? & _).
Qed.

Lemma main_with_manifest_status_witness :
  snd (main_with_manifest (Some []) (Document (mk_manifest (Some "A") None
                                                 [mk_dependency (Some "B") None])))
  = snd (load_plugins (Some []))
    ++ match concat (map (dep_errors (fst (load_plugins (Some []))))
                         (dependencies (mk_manifest (Some "A") None
                                          [mk_dependency (Some "B") None]))) with
       | [] => []
       | errors => "Dependency validation failed:"
                   :: map (fun error => "  - " +:+ error) errors
       end.
Proof.
  apply (proj2 (proj2 (proj1 main_with_manifest_status (Some [])
                         (Document (mk_manifest (Some "A") None
                                      [mk_dependency (Some "B") None]))))).
  reflexivity.
Defined.

(** ** No cycle is returned twice *)

(** The walk [c] ends with the edge from [u] to [v]. *)
Definition closes (c : list string) (u v : string) : Prop :=
  exists pre, c = pre ++ [u; v].

(** The cycles recorded are distinct, and each ends with an edge from a
    visited node. *)
Definition distinct_inv (st : dfs_state) : Prop :=
  NoDup (cycles st) /\
  forall c u v, c ∈ cycles st -> closes c u v -> u ∈ visited st.

Lemma closes_inj (c : list string) (u v u' v' : string) :
  closes c u v -> closes c u' v' -> u = u' /\ v = v'.
Proof.
  intros [pre ->] [pre' H].
  change (pre ++ [u; v]) with (pre ++ [u] ++ [v]) in H.
  change (pre' ++ [u'; v']) with (pre' ++ [u'] ++ [v']) in H.
  rewrite !app_assoc in H. apply app_inj_tail in H as [H ->].
  by apply app_inj_tail in H as [_ ->].
Qed.

Lemma recorded_closes (path : list string) (node nb : string) (i : nat) :
  index nb path = Some i -> last path = Some node ->
  closes (drop i path ++ [nb]) node nb.
Proof.
  intros Hi Hlast. destruct (index_split nb path i Hi) as (p & q & -> & _ & ->).
  rewrite drop_app_length. rewrite last_app in Hlast.
  destruct (last (nb :: q)) as [x|] eqn:Hq; [|by apply last_None in Hq].
  injection Hlast as ->.
  apply last_Some in Hq as [pre Hpre]. exists pre. rewrite Hpre.
  by rewrite <- app_assoc.
Qed.

Section Distinct.

Variable iter : string -> gset string -> list string.
Variable graph : gmap string (gset string).

Hypothesis iter_perm : forall n X, iter n X ≡ₚ elements X.

Lemma neighbors_NoDup (node : string) : NoDup (neighbors iter graph node).
Proof. unfold neighbors. rewrite (iter_perm node). apply NoDup_elements. Qed.

Lemma dfs_distinct_loop (limit : nat) (node : string) :
  (forall nb s s', dfs iter graph limit nb s = Ok s' ->
                   walk_inv graph s -> distinct_inv s -> nb ∉ visited s ->
                   (forall u, last (path s) = Some u -> has_edge graph u nb) ->
                   distinct_inv s' /\
                   forall c, c ∈ cycles s' ->
                             c ∈ cycles s \/ exists u v, closes c u v /\ u ∉ visited s) ->
  forall (l : list string) (s s' : dfs_state),
    for_each l (visit (dfs iter graph limit)) s = Ok s' ->
    NoDup l -> (forall nb, nb ∈ l -> has_edge graph node nb) ->
    walk_inv graph s -> last (path s) = Some node -> node ∈ visited s ->
    distinct_inv s ->
    (forall c v, c ∈ cycles s -> closes c node v -> v ∉ l) ->
    distinct_inv s' /\
    forall c, c ∈ cycles s' ->
              c ∈ cycles s \/ exists u v, closes c u v /\ (u = node \/ u ∉ visited s).
Proof.
  intros IH l. induction l as [|nb l IHl];
    intros s s' Hrun Hnd Hl Hinv Hlast Hnode Hdist Hrem.
  - cbn in Hrun. injection Hrun as <-. split; [done|]. by auto.
  - cbn [for_each] in Hrun. apply bind_ok_inv in Hrun as (s1 & Hvisit & Hrest).
    apply NoDup_cons in Hnd as [Hnb Hnd].
    assert (Hedge : has_edge graph node nb) by (apply Hl; set_solver).
    assert (Hl' : forall nb', nb' ∈ l -> has_edge graph node nb')
      by (intros nb' ?; apply Hl; set_solver).
    destruct (decide (nb ∉ visited s)) as [Hnew|Hold].
    + rewrite visit_unvisited in Hvisit by done.
      assert (Hl1 : forall u, last (path s) = Some u -> has_edge graph u nb).
      { intros u Hu. rewrite Hlast in Hu. by injection Hu as <-. }
      destruct (IH nb s s1 Hvisit Hinv Hdist Hnew Hl1) as [Hdist1 Hnew1].
      destruct (dfs_walk iter graph iter_perm limit nb s s1 Hvisit Hinv Hnew Hl1)
        as (Hinv1 & _ & Hp1 & Hv1 & _ & _).
      destruct (IHl s1 s' Hrest Hnd Hl' Hinv1) as [Hdist' Hnew']; [congruence | set_solver | done | |].
      { intros c v Hc Hcl. destruct (Hnew1 c Hc) as [Hc0|(u & v' & Hcl' & Hu)].
        - specialize (Hrem c v Hc0 Hcl). set_solver.
        - destruct (closes_inj c _ _ _ _ Hcl Hcl') as [<- _]. done. }
      split; [done|]. intros c Hc.
      destruct (Hnew' c Hc) as [Hc1|(u & v & Hcl & [->|Hu])].
      * destruct (Hnew1 c Hc1) as [?|(u & v & Hcl & Hu)]; [by left|].
        right. exists u, v. by auto.
      * right. exists node, v. by auto.
      * right. exists u, v. split; [done|]. right. set_solver.
    + apply dec_stable in Hold. destruct (decide (nb ∈ rec_stack s)) as [Hon|Hoff].
      * destruct (index_elem nb (path s)) as [i Hi].
        { destruct Hinv as (_ & W2 & _). by apply W2. }
        rewrite (visit_indexed _ s nb i Hold Hon Hi) in Hvisit. injection Hvisit as <-.
        pose proof (walk_inv_record graph s node nb i Hinv Hi Hlast Hedge) as Hinv1.
        pose proof (recorded_closes (path s) node nb i Hi Hlast) as Hcl0.
        destruct (IHl _ s' Hrest Hnd Hl' Hinv1 Hlast Hnode) as [Hdist' Hnew'].
        { destruct Hdist as [D1 D2]. split; cbn.
          - apply NoDup_app. split; [done|]. split; [|apply NoDup_singleton].
            intros c Hc ->%list_elem_of_singleton.
            specialize (Hrem _ nb Hc Hcl0). set_solver.
          - intros c u v [Hc|Hc]%elem_of_app Hcl; [by eapply D2|].
            apply list_elem_of_singleton in Hc as ->.
            by destruct (closes_inj _ _ _ _ _ Hcl Hcl0) as [-> _]. }
        { cbn. intros c v [Hc|Hc]%elem_of_app Hcl.
          - specialize (Hrem c v Hc Hcl). set_solver.
          - apply list_elem_of_singleton in Hc as ->.
            by destruct (closes_inj _ _ _ _ _ Hcl Hcl0) as [_ ->]. }
        split; [done|]. intros c Hc.
        destruct (Hnew' c Hc) as [Hc1|?]; [|by right].
        cbn in Hc1. apply elem_of_app in Hc1 as [?|Hc1]; [by left|].
        apply list_elem_of_singleton in Hc1 as ->. right. exists node, nb. by auto.
      * rewrite visit_finished in Hvisit by done. injection Hvisit as <-.
        apply (IHl s s' Hrest Hnd Hl' Hinv Hlast Hnode Hdist).
        intros c v Hc Hcl. specialize (Hrem c v Hc Hcl). set_solver.
Qed.

Lemma dfs_distinct (limit : nat) :
  forall (node : string) (st st' : dfs_state),
    dfs iter graph limit node st = Ok st' ->
    walk_inv graph st -> distinct_inv st -> node ∉ visited st ->
    (forall u, last (path st) = Some u -> has_edge graph u node) ->
    distinct_inv st' /\
    forall c, c ∈ cycles st' ->
              c ∈ cycles st \/ exists u v, closes c u v /\ u ∉ visited st.
Proof.
  induction limit as [|limit IH]; intros node st st' Hrun Hinv Hdist Hnew Hlast; [done|].
  cbn [dfs] in Hrun. apply bind_ok_inv in Hrun as (s & Hloop & Hleave).
  pose proof (walk_inv_enter iter graph iter_perm node st Hinv Hnew Hlast) as Hinv1.
  destruct (dfs_walk_loop iter graph iter_perm limit node
              (dfs_walk iter graph iter_perm limit)
              (neighbors iter graph node) (enter node st) s Hloop)
    as (Hinvs & Hrs & Hp & Hv & _);
    [by intros nb ?%(neighbors_edge iter graph iter_perm) | done | cbn; apply last_snoc |].
  cbn in Hrs, Hp, Hv.
  rewrite (leave_ok node node s (path st)) in Hleave; [ | rewrite Hrs; set_solver | done ].
  injection Hleave as <-.
  destruct (dfs_distinct_loop limit node IH (neighbors iter graph node) (enter node st) s Hloop)
    as [[D1 D2] Hnews].
  - apply neighbors_NoDup.
  - by intros nb ?%(neighbors_edge iter graph iter_perm).
  - done.
  - cbn. apply last_snoc.
  - cbn. set_solver.
  - destruct Hdist as [D1 D2]. split; [done|]. cbn. intros c u v Hc Hcl.
    specialize (D2 c u v Hc Hcl). set_solver.
  - cbn. intros c v Hc Hcl. destruct Hdist as [_ D2]. by specialize (D2 c node v Hc Hcl).
  - split; [split; [done|]|].
    + cbn. intros c u v Hc Hcl. by eapply D2.
    + cbn. intros c Hc. destruct (Hnews c Hc) as [?|(u & v & Hcl & [->|Hu])].
      * by left.
      * right. exists node, v. by auto.
      * right. exists u, v. split; [done|]. cbn in Hu. set_solver.
Qed.

Lemma roots_distinct (limit : nat) (l : list string) :
  forall s s' : dfs_state,
    for_each l (visit_root iter graph limit) s = Ok s' ->
    walk_inv graph s -> path s = [] -> distinct_inv s -> distinct_inv s'.
Proof.
  induction l as [|k l IHl]; intros s s' Hrun Hinv Hp Hdist.
  - cbn in Hrun. by injection Hrun as <-.
  - cbn [for_each] in Hrun. apply bind_ok_inv in Hrun as (s1 & Hroot & Hrest).
    unfold visit_root in Hroot. destruct (decide (k ∉ visited s)) as [Hnew|Hold].
    + assert (Hl : forall u, last (path s) = Some u -> has_edge graph u k)
        by (intros u Hu; by rewrite Hp in Hu).
      destruct (dfs_walk iter graph iter_perm limit k s s1 Hroot Hinv Hnew Hl)
        as (Hinv1 & _ & Hp1 & _).
      destruct (dfs_distinct limit k s s1 Hroot Hinv Hdist Hnew Hl) as [Hdist1 _].
      apply (IHl s1 s' Hrest Hinv1); [congruence | done].
    + injection Hroot as <-. by apply (IHl s s' Hrest).
Qed.

End Distinct.

(** The detector returns no cycle twice. *)
Theorem detected_cycles_distinct
    (iter : string -> gset string -> list string) (g : gmap string (gset string))
    (limit : nat) (plugins : registry) (found : list (list string)) :
  (forall n X, iter n X ≡ₚ elements X) ->
  detect_circular_dependencies iter g limit plugins = Ok found ->
  NoDup found.
Proof.
  intros Hiter Hrun. unfold detect_circular_dependencies in Hrun.
  apply bind_ok_inv in Hrun as (st & Hloop & [= <-]).
  destruct (roots_distinct iter g Hiter limit (keys plugins) _ st Hloop
              (walk_inv_initial g) eq_refl) as [H _]; [|done].
  split; cbn; [apply NoDup_nil_2|]. by intros c u v ?%elem_of_nil.
Qed.

Lemma detected_cycles_distinct_witness :
  NoDup [["A"; "C"; "A"]; ["A"; "B"; "A"]].
Proof.
  apply (detected_cycles_distinct (fun _ X => elements X)
           (dependency_graph
              (build_dependency_graph
                 [("A", mk_manifest (Some "A") None
                          [mk_dependency (Some "B") None; mk_dependency (Some "C") None]);
                  ("B", mk_manifest (Some "B") None [mk_dependency (Some "A") None]);
                  ("C", mk_manifest (Some "C") None [mk_dependency (Some "A") None])]))
           3%nat
           [("A", mk_manifest (Some "A") None
                    [mk_dependency (Some "B") None; mk_dependency (Some "C") None]);
            ("B", mk_manifest (Some "B") None [mk_dependency (Some "A") None]);
            ("C", mk_manifest (Some "C") None [mk_dependency (Some "A") None])]).
  - done.
  - by vm_compute.
Defined.

(** ** The only failure of the detector *)

Lemma bind_raise_inv {A B : Type} (r : result A) (k : A -> result B) (e : exn) :
  (r ≫= k) = Raise e -> r = Raise e \/ exists a, r = Ok a /\ k a = Raise e.
Proof.
  destruct r as [a|e']; cbn.
  - intros H. right. by exists a.
  - intros [= ->]. by left.
Qed.

Section Failure.

Variable iter : string -> gset string -> list string.
Variable graph : gmap string (gset string).

Hypothesis iter_perm : forall n X, iter n X ≡ₚ elements X.

Lemma dfs_raise_loop (limit : nat) (node : string) (e : exn) :
  (forall nb s, dfs iter graph limit nb s = Raise e -> walk_inv graph s ->
                nb ∉ visited s ->
                (forall u, last (path s) = Some u -> has_edge graph u nb) ->
                e = RecursionError) ->
  forall (l : list string) (s : dfs_state),
    for_each l (visit (dfs iter graph limit)) s = Raise e ->
    (forall nb, nb ∈ l -> has_edge graph node nb) ->
    walk_inv graph s -> last (path s) = Some node ->
    e = RecursionError.
Proof.
  intros IH l. induction l as [|nb l IHl]; intros s Hrun Hl Hinv Hlast; [done|].
  cbn [for_each] in Hrun.
  assert (Hedge : has_edge graph node nb) by (apply Hl; set_solver).
  assert (Hl' : forall nb', nb' ∈ l -> has_edge graph node nb')
    by (intros nb' ?; apply Hl; set_solver).
  assert (Hl1 : forall u, last (path s) = Some u -> has_edge graph u nb).
  { intros u Hu. rewrite Hlast in Hu. by injection Hu as <-. }
  destruct (decide (nb ∉ visited s)) as [Hnew|Hold].
  - rewrite visit_unvisited in Hrun by done.
    apply bind_raise_inv in Hrun as [Hrun|(s1 & Hvisit & Hrest)].
    + by apply (IH nb s).
    + destruct (dfs_walk iter graph iter_perm limit nb s s1 Hvisit Hinv Hnew Hl1)
        as (Hinv1 & _ & Hp1 & _).
      apply (IHl s1 Hrest Hl' Hinv1). congruence.
  - apply dec_stable in Hold. destruct (decide (nb ∈ rec_stack s)) as [Hon|Hoff].
    + destruct (index_elem nb (path s)) as [i Hi].
      { destruct Hinv as (_ & W2 & _). by apply W2. }
      rewrite (visit_indexed _ s nb i Hold Hon Hi) in Hrun. cbn [mbind result_bind] in Hrun.
      by apply (IHl _ Hrun Hl' (walk_inv_record graph s node nb i Hinv Hi Hlast Hedge)).
    + rewrite visit_finished in Hrun by done. cbn [mbind result_bind] in Hrun.
      by apply (IHl s Hrun Hl' Hinv).
Qed.

Lemma dfs_raise (limit : nat) (e : exn) :
  forall (node : string) (st : dfs_state),
    dfs iter graph limit node st = Raise e -> walk_inv graph st ->
    node ∉ visited st ->
    (forall u, last (path st) = Some u -> has_edge graph u node) ->
    e = RecursionError.
Proof.
  induction limit as [|limit IH]; intros node st Hrun Hinv Hnew Hlast.
  { cbn in Hrun. by injection Hrun as <-. }
  cbn [dfs] in Hrun.
  pose proof (walk_inv_enter iter graph iter_perm node st Hinv Hnew Hlast) as Hinv1.
  assert (Hnb : forall nb, nb ∈ neighbors iter graph node -> has_edge graph node nb)
    by (by intros nb ?%(neighbors_edge iter graph iter_perm)).
  assert (Hl : last (path (enter node st)) = Some node) by (cbn; apply last_snoc).
  apply bind_raise_inv in Hrun as [Hrun|(s & Hloop & Hleave)].
  - by apply (dfs_raise_loop limit node e IH _ _ Hrun Hnb Hinv1 Hl).
  - destruct (dfs_walk_loop iter graph iter_perm limit node
                (dfs_walk iter graph iter_perm limit)
                (neighbors iter graph node) (enter node st) s Hloop Hnb Hinv1 Hl)
      as (_ & Hrs & Hp & _).
    cbn in Hrs, Hp.
    rewrite (leave_ok node node s (path st)) in Hleave; [done | rewrite Hrs; set_solver | done].
Qed.

Lemma roots_raise (limit : nat) (e : exn) (l : list string) :
  forall s : dfs_state,
    for_each l (visit_root iter graph limit) s = Raise e ->
    walk_inv graph s -> path s = [] -> e = RecursionError.
Proof.
  induction l as [|k l IHl]; intros s Hrun Hinv Hp; [done|].
  cbn [for_each] in Hrun.
  assert (Hl : forall u, last (path s) = Some u -> has_edge graph u k)
    by (intros u Hu; by rewrite Hp in Hu).
  apply bind_raise_inv in Hrun as [Hrun|(s1 & Hroot & Hrest)].
  - unfold visit_root in Hrun. destruct (decide (k ∉ visited s)) as [Hnew|Hold]; [|done].
    by apply (dfs_raise limit e k s).
  - unfold visit_root in Hroot. destruct (decide (k ∉ visited s)) as [Hnew|Hold].
    + destruct (dfs_walk iter graph iter_perm limit k s s1 Hroot Hinv Hnew Hl)
        as (Hinv1 & _ & Hp1 & _).
      apply (IHl s1 Hrest Hinv1). congruence.
    + injection Hroot as <-. by apply (IHl s Hrest).
Qed.

End Failure.

(** The detector fails in one way only: with [RecursionError], and only when
    the interpreter allows fewer nested calls than the graph has nodes.  The
    look-up of the neighbour in the path, the removal of the node from the
    stack and the pop of the path never fail. *)
Theorem detector_fails_only_on_depth
    (iter : string -> gset string -> list string) (limit : nat)
    (plugins : registry) (e : exn) :
  (forall n X, iter n X ≡ₚ elements X) ->
  detect_circular_dependencies iter (dependency_graph (build_dependency_graph plugins))
    limit plugins = Raise e ->
  e = RecursionError /\ (limit < size (nodes plugins))%nat.
Proof.
  intros Hiter Hrun. split.
  - unfold detect_circular_dependencies in Hrun.
    apply bind_raise_inv in Hrun as [Hrun|(st & _ & ?)]; [|done].
    by apply (roots_raise iter _ Hiter limit e (keys plugins) _ Hrun (walk_inv_initial _)).
  - destruct (decide (size (nodes plugins) <= limit)%nat) as [Hle|]; [|lia].
    destruct (detect_ok iter limit plugins Hiter Hle) as (st & Hok & _). congruence.
Qed.

Lemma detector_fails_only_on_depth_witness :
  RecursionError = RecursionError /\
  (1 < size (nodes [("A", mk_manifest (Some "A") None [mk_dependency (Some "B") None])]))%nat.
Proof.
  apply (detector_fails_only_on_depth (fun _ X => elements X) 1%nat
           [("A", mk_manifest (Some "A") None [mk_dependency (Some "B") None])]
           RecursionError).
  - done.
  - by vm_compute.
Defined.
